(** * The Uno rules engine of [server/core/uno.py]

    A shallow embedding of the classes [Player], [Card], [Deck] and [Game],
    followed by the properties of the engine: card conservation, the
    pending-draw discipline, turn arithmetic, the legality test and scoring.

    Python values are modelled as follows.
    - [str] is [string]; [int] is [Z] and [%] is [Z.modulo] (both are floor
      modulo for a positive divisor); [Optional[x]] is [option].
    - A Python [list] is a [list] in the same order: index 0 is the head and
      [pop()] removes the last element.
    - [Set[Player]] is a [gset Player]; the [defaultdict] of hands is a
      [gmap Player (list Card)] whose reads insert the empty list for a
      missing key, as [collections.defaultdict(list)] does.
    - Exceptions are the [Exc] results of a small state-and-error monad; the
      notification sink and the [on_game_over] callback are recorded as
      traces in the monad's state.
    - The module [random] is an oracle: the [t]-th call of [random.shuffle]
      returns [shuffle_at t l], the [t]-th call of [random.choice] picks the
      element of index [choice_at t] modulo the length. *)

From stdpp Require Import gmap strings list fin_maps sorting pretty.
From Stdlib Require Import ZArith Ascii.

Local Open Scope string_scope.
Local Open Scope list_scope.
Local Open Scope Z_scope.

(** ** Python list primitives *)

(** [l[i]] for an [int] index: negative indices count from the end. *)
Definition py_index {A} (l : list A) (i : Z) : option A :=
  if bool_decide (0 ≤ i) then l !! Z.to_nat i
  else if bool_decide (- Z.of_nat (length l) ≤ i)
       then l !! Z.to_nat (Z.of_nat (length l) + i)
       else None.

(** The bound [k] of a slice [l[k:]] or [l[:k]], clamped as Python does. *)
Definition py_slice_bound {A} (l : list A) (k : Z) : nat :=
  if bool_decide (0 ≤ k) then Z.to_nat k
  else Z.to_nat (Z.max 0 (Z.of_nat (length l) + k)).

(** [l[k:]] *)
Definition py_slice_from {A} (l : list A) (k : Z) : list A :=
  drop (py_slice_bound l k) l.

(** [l[:k]] *)
Definition py_slice_to {A} (l : list A) (k : Z) : list A :=
  take (py_slice_bound l k) l.

(** [l.pop()]: the list without its last element, and that element. *)
Fixpoint list_pop {A} (l : list A) : option (list A * A) :=
  match l with
  | [] => None
  | [x] => Some ([], x)
  | x :: l' => match list_pop l' with
               | Some (i, y) => Some (x :: i, y)
               | None => None
               end
  end.

(** [s.isdigit()] on ASCII text, and [int(s)] for such a string. *)
Definition is_digit_char (a : ascii) : bool :=
  (48 <=? nat_of_ascii a)%nat && (nat_of_ascii a <=? 57)%nat.

Fixpoint all_digits (s : string) : bool :=
  match s with
  | EmptyString => true
  | String a s' => is_digit_char a && all_digits s'
  end.

Definition isdigit (s : string) : bool :=
  match s with
  | EmptyString => false
  | _ => all_digits s
  end.

Fixpoint int_of_digits (acc : Z) (s : string) : Z :=
  match s with
  | EmptyString => acc
  | String a s' => int_of_digits (10 * acc + (Z.of_nat (nat_of_ascii a) - 48)) s'
  end.

Definition int (s : string) : Z := int_of_digits 0 s.

(** ** Player and Card *)

(** Objects that carry an [id] attribute, as [find_object] expects. *)
Class HasId (A : Type) := get_id : A → string.

Record Player := mkPlayer { name : string }.

Definition Player_id (p : Player) : string := "player-" +:+ name p.

Global Instance Player_HasId : HasId Player := Player_id.

Global Instance Player_eq_dec : EqDecision Player.
Proof. solve_decision. Defined.

Global Instance Player_countable : Countable Player :=
  inj_countable' name mkPlayer (λ p, match p with mkPlayer _ => eq_refl end).

Record Card := mkCard { color : string; value : string }.

Definition Card_id (c : Card) : string := value c +:+ "-" +:+ color c.

Global Instance Card_HasId : HasId Card := Card_id.

Global Instance Card_eq_dec : EqDecision Card.
Proof. solve_decision. Defined.

Definition is_black (c : Card) : bool := (color c =? "black")%string.
Definition is_draw_four (c : Card) : bool := (value c =? "draw-four")%string.
Definition is_wild (c : Card) : bool := (value c =? "wild")%string.

(** ** Deck *)

Definition SHUFFLE_FREQ : nat := 50.
Definition COLORS : list string := ["red"; "blue"; "green"; "yellow"].
Definition NUMBER_CARDS : list string :=
  (λ i : nat, pretty i) <$> (seq 0 10 ++ seq 1 9).
Definition DRAW_TWO_CARDS : list string := replicate 2 "draw-two".
Definition REVERSE_CARDS : list string := replicate 2 "reverse".
Definition SKIP_CARDS : list string := replicate 2 "skip".
Definition DRAW_FOUR_CARDS : list string := replicate 4 "draw-four".
Definition WILD_CARDS : list string := replicate 4 "wild".
Definition COLOR_CARDS : list string :=
  NUMBER_CARDS ++ DRAW_TWO_CARDS ++ REVERSE_CARDS ++ SKIP_CARDS.

Definition is_special (c : Card) : bool :=
  bool_decide (value c ∈ DRAW_TWO_CARDS ++ REVERSE_CARDS ++ SKIP_CARDS
                         ++ DRAW_FOUR_CARDS ++ WILD_CARDS)
  || (color c =? "black")%string.

Definition is_color_special (c : Card) : bool :=
  bool_decide (value c ∈ DRAW_TWO_CARDS ++ REVERSE_CARDS ++ SKIP_CARDS)
  || negb (color c =? "black")%string.

(** The card list of [Deck.__init__] before it is shuffled. *)
Definition Deck_cards : list Card :=
  let color_cards := c ← COLORS; v ← COLOR_CARDS; [mkCard c v] in
  let black_cards := mkCard "black" <$> (DRAW_FOUR_CARDS ++ WILD_CARDS) in
  color_cards ++ black_cards.

(** ** Game state, exceptions and traces *)

Definition MIN_PLAYERS_ALLOWED : Z := 2.
Definition MAX_PLAYERS_ALLOWED : Z := 2.

Record Game := mkGame {
  hands : gmap Player (list Card);
  players_list : list Player;
  players : gset Player;
  current_index : Z;
  direction : Z;
  current_color : option string;
  pending_draw_count : Z;
  pending_draw_for_index : option Z;
  remaining_cards : list Card;
  game_stack : list Card
}.

Definition set_hands (h : gmap Player (list Card)) (g : Game) : Game :=
  mkGame h (players_list g) (players g) (current_index g) (direction g)
    (current_color g) (pending_draw_count g) (pending_draw_for_index g)
    (remaining_cards g) (game_stack g).
Definition set_current_index (i : Z) (g : Game) : Game :=
  mkGame (hands g) (players_list g) (players g) i (direction g)
    (current_color g) (pending_draw_count g) (pending_draw_for_index g)
    (remaining_cards g) (game_stack g).
Definition set_direction (d : Z) (g : Game) : Game :=
  mkGame (hands g) (players_list g) (players g) (current_index g) d
    (current_color g) (pending_draw_count g) (pending_draw_for_index g)
    (remaining_cards g) (game_stack g).
Definition set_current_color (c : option string) (g : Game) : Game :=
  mkGame (hands g) (players_list g) (players g) (current_index g) (direction g)
    c (pending_draw_count g) (pending_draw_for_index g)
    (remaining_cards g) (game_stack g).
Definition set_pending_draw_count (n : Z) (g : Game) : Game :=
  mkGame (hands g) (players_list g) (players g) (current_index g) (direction g)
    (current_color g) n (pending_draw_for_index g)
    (remaining_cards g) (game_stack g).
Definition set_pending_draw_for_index (i : option Z) (g : Game) : Game :=
  mkGame (hands g) (players_list g) (players g) (current_index g) (direction g)
    (current_color g) (pending_draw_count g) i
    (remaining_cards g) (game_stack g).
Definition set_remaining_cards (l : list Card) (g : Game) : Game :=
  mkGame (hands g) (players_list g) (players g) (current_index g) (direction g)
    (current_color g) (pending_draw_count g) (pending_draw_for_index g)
    l (game_stack g).
Definition set_game_stack (l : list Card) (g : Game) : Game :=
  mkGame (hands g) (players_list g) (players g) (current_index g) (direction g)
    (current_color g) (pending_draw_count g) (pending_draw_for_index g)
    (remaining_cards g) l.

Inductive GameOverReason := WON | ERROR | INSUFFICIENT_PLAYERS.

Inductive Exn :=
| InsufficientPlayers   (* the [Exception] of [validate_players] *)
| IndexError
| ValueError
| ZeroDivisionError.

(** The messages handed to the notification sink. *)
Inductive Message :=
| MsgNotYourTurn
| MsgDeckEmpty
| MsgMustDraw (n : Z)
| MsgCannotPlay
| MsgDrawFourHeld
| MsgChooseColor
| MsgNoUno (who : string)
| MsgWon (who : string) (score : Z).

Definition render (m : Message) : string :=
  match m with
  | MsgNotYourTurn => "not your turn"
  | MsgDeckEmpty => "deck is empty!"
  | MsgMustDraw n => "must draw " +:+ pretty n +:+ " card(s) before playing"
  | MsgCannotPlay => "cannot play this card"
  | MsgDrawFourHeld =>
      "cannot play draw four when you have a card of the current color"
  | MsgChooseColor => "please choose a color to play a wild card"
  | MsgNoUno who => who +:+ " didn't say UNO! Drawing 2 penalty cards."
  | MsgWon who score =>
      who +:+ " won the game with " +:+ pretty score +:+ " points!"
  end.

Inductive Notice :=
| NError (m : Message)
| NWarn (m : Message)
| NSuccess (m : Message).

(** What a call works on: the [Game] object, the number of calls made to
    [random] so far, and the calls made to the notification sink and to
    [on_game_over], oldest first. *)
Record St := mkSt {
  st_game : Game;
  st_rng : nat;
  st_notes : list Notice;
  st_calls : list (GameOverReason * Player)
}.

Inductive Res (A : Type) :=
| Ok (a : A) (s : St)
| Exc (e : Exn) (s : St).
Arguments Ok {A} a s.
Arguments Exc {A} e s.

Definition M (A : Type) : Type := St → Res A.

Definition ret {A} (a : A) : M A := λ s, Ok a s.
Definition bind {A B} (m : M A) (k : A → M B) : M B :=
  λ s, match m s with
       | Ok a s' => k a s'
       | Exc e s' => Exc e s'
       end.
Definition raise {A} (e : Exn) : M A := λ s, Exc e s.
Definition st_set_game (g : Game) (s : St) : St :=
  mkSt g (st_rng s) (st_notes s) (st_calls s).
Definition get : M Game := λ s, Ok (st_game s) s.
Definition modify (f : Game → Game) : M unit :=
  λ s, Ok tt (st_set_game (f (st_game s)) s).
Definition notify (n : Notice) : M unit :=
  λ s, Ok tt (mkSt (st_game s) (st_rng s) (st_notes s ++ [n]) (st_calls s)).
Definition call_on_game_over (r : GameOverReason) (p : Player) : M unit :=
  λ s, Ok tt (mkSt (st_game s) (st_rng s) (st_notes s) (st_calls s ++ [(r, p)])).
Definition tick : M nat :=
  λ s, Ok (st_rng s) (mkSt (st_game s) (S (st_rng s)) (st_notes s) (st_calls s)).
Definition lift_opt {A} (e : Exn) (o : option A) : M A :=
  match o with Some a => ret a | None => raise e end.

Notation "'let*' x := m 'in' k" := (bind m (λ x, k))
  (at level 10, x name, m at level 200, k at level 200, only parsing).
Notation "m ;;; k" := (bind m (λ _, k))
  (at level 100, k at level 200, right associativity, only parsing).

(** ** The engine *)

Definition truthy (o : option string) : bool :=
  match o with
  | Some s => negb (s =? "")%string
  | None => false
  end.

(** [_can_play_card] only reads [self.current_color]. *)
Definition _can_play_card (g : Game) (card top_card : Card) : bool :=
  if truthy (current_color g) then
    if is_black card then true
    else bool_decide (Some (color card) = current_color g)
         || (value card =? value top_card)%string
  else if is_black top_card then true
  else is_black card || (color card =? color top_card)%string
       || (value card =? value top_card)%string.

(** The points one card adds to [total] in [_calculate_score]. *)
Definition card_points (c : Card) : Z :=
  if isdigit (value c) then int (value c)
  else if bool_decide (value c ∈ ["draw-two"; "reverse"; "skip"]) then 20
  else if is_black c then 50
  else 0.

(** [self.hands[p]]: a read of the [defaultdict]. *)
Definition hands_get (p : Player) : M (list Card) :=
  let* g := get in
  match hands g !! p with
  | Some l => ret l
  | None => modify (set_hands (<[p := []]> (hands g))) ;;; ret []
  end.

(** An in-place update of the list object [self.hands[p]]. Every alias of
    that object ([player_cards] in [draw] and [play]) is read back through
    [hands_get], since the dictionary entry is never rebound. *)
Definition hands_update (p : Player) (f : list Card → list Card) : M unit :=
  let* l := hands_get p in
  modify (λ g, set_hands (<[p := f l]> (hands g)) g).

Definition hands_append (p : Player) (c : Card) : M unit :=
  hands_update p (λ l, l ++ [c]).

Definition validate_players : M unit :=
  let* g := get in
  if bool_decide (Z.of_nat (size (players g)) < MIN_PLAYERS_ALLOWED)
  then raise InsufficientPlayers
  else ret tt.

Definition get_top_card : M Card :=
  let* g := get in lift_opt IndexError (last (game_stack g)).

Definition find_object_idx `{HasId A} (objects : list A) (obj_id : string)
  : M nat :=
  lift_opt ValueError
    (fst <$> list_find (λ i, i = obj_id) (get_id <$> objects)).

Definition find_object `{HasId A} (objects : list A) (obj_id : string) : M A :=
  let* idx := find_object_idx objects obj_id in
  lift_opt IndexError (objects !! idx).

Definition _next_index (steps : Z) : M Z :=
  let* g := get in
  let n := Z.of_nat (length (players_list g)) in
  if bool_decide (n = 0) then raise ZeroDivisionError
  else ret ((current_index g + steps * direction g) mod n).

Definition _advance_turn (steps : Z) : M unit :=
  let* i := _next_index steps in
  modify (set_current_index i).

Fixpoint _calculate_score_from (ps : list Player) (exclude_player : Player)
  (total : Z) : M Z :=
  match ps with
  | [] => ret total
  | p :: ps' =>
      if bool_decide (Player_id p = Player_id exclude_player)
      then _calculate_score_from ps' exclude_player total
      else
        let* cs := hands_get p in
        _calculate_score_from ps' exclude_player
          (foldl (λ t c, t + card_points c) total cs)
  end.

Definition _calculate_score (exclude_player : Player) : M Z :=
  let* g := get in
  _calculate_score_from (players_list g) exclude_player 0.

(** [sorted(list(players), key=lambda p: p.id)]: strings compare by code
    point, which [String.leb] does on their bytes. *)
Definition id_le (p q : Player) : Prop :=
  (Player_id p <=? Player_id q)%string = true.

Global Instance id_le_dec : RelDecision id_le.
Proof. intros p q. unfold id_le. apply _. Defined.

Definition sorted_by_id (l : list Player) : list Player := merge_sort id_le l.

Section Engine.
  (** The oracle behind [random]. *)
Variable shuffle_at : nat → list Card → list Card.
Variable choice_at : nat → nat.

Definition random_shuffle (l : list Card) : M (list Card) :=
    let* t := tick in ret (shuffle_at t l).

Definition random_choice (l : list string) : M string :=
    let* t := tick in
    lift_opt IndexError (l !! (choice_at t mod length l)%nat).

  (** [Deck.shuffle], and [Deck.__init__] which returns [self.cards]. *)
Fixpoint Deck_shuffle (n : nat) (cards : list Card) : M (list Card) :=
    match n with
    | O => ret cards
    | S n' => let* cards' := random_shuffle cards in Deck_shuffle n' cards'
    end.

Definition Deck_init : M (list Card) := Deck_shuffle SHUFFLE_FREQ Deck_cards.

Definition transfer_played_cards : M unit :=
    let* g := get in
    let* popped := lift_opt IndexError (list_pop (game_stack g)) in
    let* played_cards := random_shuffle popped.1 in
    modify (set_remaining_cards played_cards) ;;;
    let* top := get_top_card in
    modify (set_game_stack [top]).

  (** [if not self.remaining_cards: self.transfer_played_cards()] *)
Definition refill_if_empty : M unit :=
    let* g := get in
    if bool_decide (remaining_cards g = []) then transfer_played_cards
    else ret tt.

Fixpoint _draw_n (player : Player) (n : nat) : M unit :=
    match n with
    | O => ret tt
    | S n' =>
        refill_if_empty ;;;
        let* g := get in
        match list_pop (remaining_cards g) with
        | None => ret tt
        | Some (rest, c) =>
            hands_get player ;;;
            modify (set_remaining_cards rest) ;;;
            hands_append player c ;;;
            _draw_n player n'
        end
    end.

Definition draw (player_id : string) : M unit :=
    validate_players ;;;
    let* g := get in
    let* current_player :=
      lift_opt IndexError (py_index (players_list g) (current_index g)) in
    if negb (player_id =? Player_id current_player)%string then
      notify (NError MsgNotYourTurn)
    else
      let* player := find_object (elements (players g)) player_id in
      hands_get player ;;;
      refill_if_empty ;;;
      let* g := get in
      match list_pop (remaining_cards g) with
      | None => notify (NWarn MsgDeckEmpty)
      | Some (rest, new_card) =>
          modify (set_remaining_cards rest) ;;;
          hands_append player new_card ;;;
          let* g := get in
          if bool_decide (0 < pending_draw_count g)
             && bool_decide (pending_draw_for_index g = Some (current_index g))
          then
            modify (set_pending_draw_count (pending_draw_count g - 1)) ;;;
            let* g := get in
            if bool_decide (pending_draw_count g ≤ 0) then
              modify (set_pending_draw_count 0) ;;;
              modify (set_pending_draw_for_index None) ;;;
              _advance_turn 1
            else ret tt
          else
            let* top_card := get_top_card in
            let* g := get in
            if negb (_can_play_card g new_card top_card) then _advance_turn 1
            else ret tt
      end.

Definition play (player_id card_id : string) (chosen_color : option string)
    (uno_called : bool) : M unit :=
    validate_players ;;;
    let* g := get in
    let* current_player :=
      lift_opt IndexError (py_index (players_list g) (current_index g)) in
    if negb (player_id =? Player_id current_player)%string then
      notify (NError MsgNotYourTurn)
    else if bool_decide (0 < pending_draw_count g)
            && bool_decide (pending_draw_for_index g = Some (current_index g))
    then notify (NError (MsgMustDraw (pending_draw_count g)))
    else
      let* player := find_object (elements (players g)) player_id in
      let* player_cards := hands_get player in
      let* card := find_object player_cards card_id in
      let* top_card := get_top_card in
      let* g := get in
      if negb (_can_play_card g card top_card) then
        notify (NError MsgCannotPlay)
      else if is_draw_four card
              && match current_color g with
                 | Some cc =>
                     existsb (λ c, (color c =? cc)%string)
                       (filter (λ c, negb (is_black c) = true) player_cards)
                 | None => false
                 end
      then notify (NError MsgDrawFourHeld)
      else
        let* idx := find_object_idx player_cards (get_id card) in
        hands_update player (delete idx) ;;;
        modify (λ g, set_game_stack (game_stack g ++ [card]) g) ;;;
        if is_black card
           && negb match chosen_color with
                   | Some c => bool_decide (c ∈ COLORS)
                   | None => false
                   end
        then notify (NError MsgChooseColor)
        else
          modify (set_current_color
                    (if is_black card then chosen_color
                     else Some (color card))) ;;;
          let* player_cards := hands_get player in
          (if bool_decide (length player_cards = 1%nat) && negb uno_called
           then notify (NError (MsgNoUno (name player))) ;;; _draw_n player 2
           else ret tt) ;;;
          let* player_cards := hands_get player in
          if bool_decide (length player_cards = 0%nat) then
            let* score := _calculate_score player in
            notify (NSuccess (MsgWon (name player) score)) ;;;
            call_on_game_over WON player
          else
            let* g := get in
            let* steps :=
              if (value card =? "skip")%string then ret 2
              else if (value card =? "reverse")%string then
                if bool_decide (length (players_list g) = 2%nat) then ret 2
                else modify (set_direction (direction g * -1)) ;;; ret 1
              else if (value card =? "draw-two")%string then
                let* next_idx := _next_index 1 in
                modify (set_pending_draw_count 2) ;;;
                modify (set_pending_draw_for_index (Some next_idx)) ;;;
                ret 1
              else if is_draw_four card then
                let* next_idx := _next_index 1 in
                modify (set_pending_draw_count 4) ;;;
                modify (set_pending_draw_for_index (Some next_idx)) ;;;
                ret 1
              else ret 1
            in
            _advance_turn steps.

  (** *** Construction *)

  (** One pass of [for p in self.players_list] inside the dealing loop: the
      cards of [dealt] not yet handed out are returned. *)
Fixpoint deal_round (ps : list Player) (dealt : list Card) : M (list Card) :=
    match ps with
    | [] => ret dealt
    | p :: ps' =>
        match dealt with
        | [] => ret []
        | c :: dealt' => hands_append p c ;;; deal_round ps' dealt'
        end
    end.

  (** [while i < len(dealt)]: [None] when the rounds allowed are used up
      with cards left over. *)
Fixpoint deal_loop (rounds : nat) (ps : list Player) (dealt : list Card)
    (s : St) : option (Res unit) :=
    match dealt with
    | [] => Some (Ok tt s)
    | _ :: _ =>
        match rounds with
        | O => None
        | S rounds' =>
            match deal_round ps dealt s with
            | Ok rest s' => deal_loop rounds' ps rest s'
            | Exc e s' => Some (Exc e s')
            end
        end
    end.

  (** One iteration of the [while True] of
      [_start_discard_with_valid_card]; [true] stands for [continue]. *)
Definition start_discard_step : M bool :=
    refill_if_empty ;;;
    let* g := get in
    let* popped := lift_opt IndexError (list_pop (remaining_cards g)) in
    let card := popped.2 in
    modify (set_remaining_cards popped.1) ;;;
    if is_draw_four card then
      modify (set_remaining_cards (card :: popped.1)) ;;;
      let* g := get in
      let* shuffled := random_shuffle (remaining_cards g) in
      modify (set_remaining_cards shuffled) ;;;
      ret true
    else
      modify (λ g, set_game_stack (game_stack g ++ [card]) g) ;;;
      (if is_black card then
         let* c := random_choice COLORS in modify (set_current_color (Some c))
       else modify (set_current_color (Some (color card)))) ;;;
      (if (value card =? "skip")%string then _advance_turn 2
       else if (value card =? "reverse")%string then
         let* g := get in
         if bool_decide (length (players_list g) = 2%nat) then _advance_turn 2
         else modify (set_direction (direction g * -1))
       else if (value card =? "draw-two")%string then
         let* next_idx := _next_index 1 in
         modify (set_pending_draw_count 2) ;;;
         modify (set_pending_draw_for_index (Some next_idx)) ;;;
         _advance_turn 1
       else ret tt) ;;;
      ret false.

Fixpoint _start_discard_with_valid_card (fuel : nat) (s : St)
    : option (Res unit) :=
    match fuel with
    | O => None
    | S fuel' =>
        match start_discard_step s with
        | Ok true s' => _start_discard_with_valid_card fuel' s'
        | Ok false s' => Some (Ok tt s')
        | Exc e s' => Some (Exc e s')
        end
    end.

  (** The object [Game.__init__] starts from: the attributes assigned before
      [Deck()] is built; [remaining_cards] and [game_stack], assigned
      later, are empty until then. *)
Definition Game_new (players0 : gset Player) : Game :=
    let players_list := sorted_by_id (elements players0) in
    mkGame ∅ players_list (list_to_set players_list) 0 1 None 0 None [] [].

  (** [Game.__init__] up to the dealing loop; returns [dealt]. *)
Definition Game_init_cards (hand_size : Z) : M (list Card) :=
    let* cards := Deck_init in
    validate_players ;;;
    let* g := get in
    let total_players := Z.of_nat (length (players_list g)) in
    modify (set_remaining_cards
              (py_slice_from cards (total_players * hand_size))) ;;;
    ret (py_slice_to cards (total_players * hand_size)).

  (** [Game.__init__] up to and including [self.game_stack = []]. [None]:
      the dealing loop does not end (it has cards to deal and no player). *)
Definition Game_init_deal (players0 : gset Player) (hand_size : Z)
    (rng : nat) : option (Res unit) :=
    match Game_init_cards hand_size (mkSt (Game_new players0) rng [] []) with
    | Exc e s => Some (Exc e s)
    | Ok dealt s =>
        match deal_loop (length dealt) (players_list (st_game s)) dealt s with
        | Some (Ok _ s') => Some (modify (set_game_stack []) s')
        | r => r
        end
    end.

  (** [Game(room, players, hand_size)], run with [rng] calls to [random]
      already made. [None]: [_start_discard_with_valid_card] did not finish
      within [fuel] iterations. *)
Definition Game_init (fuel : nat) (players0 : gset Player) (hand_size : Z)
    (rng : nat) : option (Res unit) :=
    match Game_init_deal players0 hand_size rng with
    | Some (Ok _ s) => _start_discard_with_valid_card fuel s
    | r => r
    end.

End Engine.

(** ** Running one call on a game *)

(** A call of [draw] or [play] on the game [g], [rng] calls to [random]
    having been made before; the traces of the call start empty. *)
Definition enter (g : Game) (rng : nat) : St := mkSt g rng [] [].

(** The notices that end a call without the action being carried out. *)
Definition is_rejection (n : Notice) : bool :=
  match n with
  | NError MsgNotYourTurn | NError (MsgMustDraw _) | NError MsgCannotPlay
  | NError MsgDrawFourHeld | NError MsgChooseColor | NWarn MsgDeckEmpty => true
  | _ => false
  end.

Definition rejected (s : St) : bool := existsb is_rejection (st_notes s).

(** The attributes of the game the specification lists as untouched by a
    rejected call. *)
Definition same_observables (g g' : Game) : Prop :=
  hands g' = hands g ∧ game_stack g' = game_stack g
  ∧ remaining_cards g' = remaining_cards g
  ∧ current_index g' = current_index g
  ∧ current_color g' = current_color g
  ∧ pending_draw_count g' = pending_draw_count g
  ∧ pending_draw_for_index g' = pending_draw_for_index g.

(** Number of cards held in all hands together. *)
Definition hands_total (h : gmap Player (list Card)) : nat :=
  sum_list (length <$> (map_to_list h).*2).

Definition cards_in_game (g : Game) : nat :=
  (length (remaining_cards g) + length (game_stack g)
   + hands_total (hands g))%nat.

(** The hand of [p], empty when the dictionary has no entry. *)
Definition hand_of (g : Game) (p : Player) : list Card :=
  default [] (hands g !! p).

(** The state a call leaves behind, whether it returned or raised. *)
Definition outcome_state {A} (r : Res A) : St :=
  match r with Ok _ s | Exc _ s => s end.

(** The list [Deck.shuffle] leaves in [self.cards]: [n] shuffles, the
    first one being call number [t] of [random]. *)
Fixpoint shuffled (shuffle_at : nat → list Card → list Card) (n t : nat)
  (cards : list Card) : list Card :=
  match n with
  | O => cards
  | S n' => shuffled shuffle_at n' (S t) (shuffle_at t cards)
  end.

(** ** Sequences of calls *)

Inductive Action :=
| Draw (player_id : string)
| Play (player_id card_id : string) (chosen_color : option string)
       (uno_called : bool).

Global Instance Action_eq_dec : EqDecision Action.
Proof. solve_decision. Defined.

Section Runs.
Variable shuffle_at : nat → list Card → list Card.
Variable choice_at : nat → nat.

Definition perform (a : Action) : M unit :=
    match a with
    | Draw player_id => draw shuffle_at player_id
    | Play player_id card_id chosen_color uno_called =>
        play shuffle_at player_id card_id chosen_color uno_called
    end.

  (** The calls of [acts] made one after the other on the same game; a call
      that raises leaves the game as it was when the exception left it. *)
Fixpoint run (acts : list Action) (g : Game) (rng : nat) : Game * nat :=
    match acts with
    | [] => (g, rng)
    | a :: acts' =>
        let s := outcome_state (perform a (enter g rng)) in
        run acts' (st_game s) (st_rng s)
    end.

  (** The games (with the count of calls made to [random]) that a
      successful construction followed by calls of [draw] and [play] can
      produce. *)
Inductive reachable : Game → nat → Prop :=
  | reachable_init fuel players0 hand_size rng s :
      Game_init shuffle_at choice_at fuel players0 hand_size rng
        = Some (Ok tt s) →
      reachable (st_game s) (st_rng s)
  | reachable_call g rng a s :
      reachable g rng →
      outcome_state (perform a (enter g rng)) = s →
      reachable (st_game s) (st_rng s).
End Runs.

(** The draws asked by the player of identifier [player_id] in [acts]. *)
Definition draws_by (player_id : string) (acts : list Action) : nat :=
  length (filter (λ a, a = Draw player_id) acts).

(** The first object whose [id] is [obj_id], which is what [find_object]
    returns when there is one. *)
Definition find_by_id `{HasId A} (objects : list A) (obj_id : string)
  : option A :=
  List.find (λ o, (get_id o =? obj_id)%string) objects.

(** The card [play] picks with [find_object(player_cards, card_id)]. *)
Definition held_card (g : Game) (p : Player) (card_id : string)
  : option Card :=
  find_by_id (hand_of g p) card_id.

(** The game after a read of [self.hands[p]]. *)
Definition touch (p : Player) (g : Game) : Game :=
  set_hands (<[p := hand_of g p]> (hands g)) g.

(** The attributes that only the turn logic of [play], [draw] and the
    start-of-game effects assign. *)
Definition same_turn (g g' : Game) : Prop :=
  players_list g' = players_list g ∧ players g' = players g
  ∧ current_index g' = current_index g ∧ direction g' = direction g
  ∧ current_color g' = current_color g
  ∧ pending_draw_count g' = pending_draw_count g
  ∧ pending_draw_for_index g' = pending_draw_for_index g.

Definition same_traces (s s' : St) : Prop :=
  st_notes s' = st_notes s ∧ st_calls s' = st_calls s.

(** Two games that differ at most in the draw pile, the discard stack and
    the hands, with the same top card. *)
Definition piles_moved (g g' : Game) : Prop :=
  same_turn g g' ∧ last (game_stack g') = last (game_stack g).

(** Two games that differ at most in which empty hands the dictionary
    holds an entry for. *)
Definition hands_touched (g g' : Game) : Prop :=
  same_turn g g'
  ∧ remaining_cards g' = remaining_cards g
  ∧ game_stack g' = game_stack g
  ∧ (∀ q, hand_of g' q = hand_of g q)
  ∧ hands_total (hands g') = hands_total (hands g).

(** The value [_calculate_score_from ps exclude_player total] returns. *)
Definition score_from (g : Game) (ps : list Player) (exclude_player : Player)
  (total : Z) : Z :=
  foldl (λ t p, if bool_decide (Player_id p = Player_id exclude_player) then t
                else foldl (λ t c, t + card_points c) t (hand_of g p))
    total ps.

(** Whoever owes cards is the seat whose turn it is. *)
Definition pending_on_current (g : Game) : Prop :=
  0 < pending_draw_count g
  → pending_draw_for_index g = Some (current_index g).

(** The outstanding obligation tested by [draw] and [play]. *)
Definition obligated (g : Game) : Prop :=
  0 < pending_draw_count g
  ∧ pending_draw_for_index g = Some (current_index g).

(** The draw pile [draw] takes a card from: the draw pile of the game, or,
    when it is empty, the discard stack without its top card, shuffled by
    call number [rng] of [random]. *)
Definition refilled_pile (shuffle_at : nat → list Card → list Card)
  (g : Game) (rng : nat) : list Card :=
  if bool_decide (remaining_cards g = []) then
    match list_pop (game_stack g) with
    | Some (init, _) => shuffle_at rng init
    | None => []
    end
  else remaining_cards g.

(** ** Scoring as the specification words it *)

(** Section 4.7: digit cards contribute their numeric value, draw-two,
    reverse and skip 20 each, black cards 50 each. *)
Definition spec_card_value (c : Card) : Z :=
  (if isdigit (value c) then int (value c) else 0)
  + (if bool_decide (value c ∈ ["draw-two"; "reverse"; "skip"]) then 20 else 0)
  + (if bool_decide (color c = "black") then 50 else 0).

Definition sum_Z (l : list Z) : Z := foldr Z.add 0 l.

(** The sum over the hands of all non-winning seats. *)
Definition spec_score (g : Game) (winner : Player) : Z :=
  sum_Z ((λ p, sum_Z (spec_card_value <$> hand_of g p))
           <$> filter (λ p, p ≠ winner) (players_list g)).

(** ** Sample oracles and games *)

(** A generator under which every shuffle leaves the order as it is. *)
Definition keep_order (t : nat) (l : list Card) : list Card := l.

(** A generator whose first shuffle moves the cards equal to [c] to the
    end of the list and whose later shuffles keep the order. *)
Definition to_back (c : Card) (t : nat) (l : list Card) : list Card :=
  match t with
  | O => filter (λ x, x ≠ c) l ++ filter (λ x, ¬ x ≠ c) l
  | S _ => l
  end.

Definition first_choice (t : nat) : nat := 0%nat.

Definition alice : Player := mkPlayer "alice".
Definition bob : Player := mkPlayer "bob".
Definition carol : Player := mkPlayer "carol".

(** A game in progress between [alice] (seat 0, to play) and [bob]. *)
Definition table (alice_hand bob_hand pile stack : list Card) (cc : string)
  : Game :=
  mkGame (<[alice := alice_hand]> (<[bob := bob_hand]> ∅)) [alice; bob]
    (list_to_set [alice; bob]) 0 1 (Some cc) 0 None pile stack.

(** The same with [carol] at seat 2. *)
Definition table3 (alice_hand bob_hand carol_hand pile stack : list Card)
  (cc : string) : Game :=
  mkGame (<[alice := alice_hand]> (<[bob := bob_hand]> (<[carol := carol_hand]> ∅)))
    [alice; bob; carol] (list_to_set [alice; bob; carol]) 0 1 (Some cc)
    0 None pile stack.

Definition red (v : string) : Card := mkCard "red" v.
Definition blue (v : string) : Card := mkCard "blue" v.
Definition black (v : string) : Card := mkCard "black" v.

(** The state a finished construction leaves, for use on sample games. *)
Definition constructed (r : option (Res unit)) : St :=
  match r with
  | Some (Ok _ s) => s
  | _ => enter (Game_new ∅) 0
  end.

(** [Game(room, {alice, bob}, 7)] when no shuffle changes the order: the
    opening card is the last card of the deck, a wild card. *)
Definition plain_start : St :=
  constructed (Game_init keep_order first_choice 1 {[alice; bob]} 7 0).

(** The same when the first shuffle puts the red draw-two cards last: the
    opening card is a draw-two. *)
Definition draw_two_start : St :=
  constructed
    (Game_init (to_back (red "draw-two")) first_choice 1 {[alice; bob]} 7 0).

(** [Game(room, {alice, bob}, -1)] with the order kept. *)
Definition negative_start : St :=
  constructed (Game_init keep_order first_choice 1 {[alice; bob]} (-1) 0).

(** [alice] holds a single card, a draw-two she may play. *)
Definition last_draw_two : Game :=
  table [red "draw-two"] [blue "1"; blue "2"] [red "9"] [red "3"] "red".

(** [alice] holds a draw-two and other cards. *)
Definition holding_draw_two : Game :=
  table [red "draw-two"; blue "4"; blue "5"] [blue "1"; blue "2"]
    [red "9"; blue "7"; blue "8"] [red "3"] "red".

(** [alice] holds a single wild card; [bob] holds a seven, a skip and a
    draw-four. *)
Definition last_wild : Game :=
  table [black "wild"] [blue "7"; red "skip"; black "draw-four"] [red "9"]
    [red "3"] "red".

(** Three players; [alice] holds a reverse and other cards. *)
Definition holding_reverse : Game :=
  table3 [red "reverse"; blue "4"; blue "5"] [blue "1"] [blue "2"]
    [red "9"] [red "3"] "red".

(** [alice] holds a wild card and a five. *)
Definition holding_wild : Game :=
  table [black "wild"; red "5"] [blue "1"; blue "2"] [red "9"] [red "3"] "red".

(** ** The rest of [Game]: equality of players, removal, the state tuple *)

(** [Player.__eq__]: two players are equal when their [id]s are. *)
Definition Player_eqb (p q : Player) : bool :=
  (Player_id p =? Player_id q)%string.

Definition set_players_list (l : list Player) (g : Game) : Game :=
  mkGame (hands g) l (players g) (current_index g) (direction g)
    (current_color g) (pending_draw_count g) (pending_draw_for_index g)
    (remaining_cards g) (game_stack g).
Definition set_players (ps : gset Player) (g : Game) : Game :=
  mkGame (hands g) (players_list g) ps (current_index g) (direction g)
    (current_color g) (pending_draw_count g) (pending_draw_for_index g)
    (remaining_cards g) (game_stack g).

(** The [KeyError] of [set.remove]. *)
Inductive SetError := KeyError.

(** [Game.remove_player]: [self.players.remove(player)] raises when the
    player is not in the set; the list keeps the players that are not equal
    to [player]. No other attribute is assigned. *)
Definition remove_player (player : Player) (g : Game) : SetError + Game :=
  if bool_decide (player ∈ players g) then
    inr (set_players_list
           (filter (λ p, negb (Player_eqb p player) = true) (players_list g))
           (set_players (players g ∖ {[player]}) g))
  else inl KeyError.

(** The tuple [Game.get_state] returns. *)
Record StateTuple := mkStateTuple {
  t_hands : gmap Player (list Card);
  t_top_card : Card;
  t_current_player_id : string;
  t_current_color : option string;
  t_pending_draw_count : Z;
  t_pending_for_id : option string
}.

(** [Game.get_state] *)
Definition get_state : M StateTuple :=
  validate_players ;;;
  let* top_card := get_top_card in
  let* g := get in
  let* current_player :=
    lift_opt IndexError (py_index (players_list g) (current_index g)) in
  let* pending_for_id :=
    match pending_draw_for_index g with
    | None => ret None
    | Some i =>
        let* p := lift_opt IndexError (py_index (players_list g) i) in
        ret (Some (Player_id p))
    end in
  ret (mkStateTuple (hands g) top_card (Player_id current_player)
         (current_color g) (pending_draw_count g) pending_for_id).

(** The cards [_draw_n] can still hand out: the draw pile, and the discard
    stack under its top card, which a refill brings back. *)
Definition drawable (g : Game) : nat :=
  (length (remaining_cards g) + (length (game_stack g) - 1))%nat.

(** The attributes no call of [draw] or [play] may leave in disorder: who
    sits where, whose turn it is, which way the turn goes, and a top card
    with a colour to play on. *)
Definition well_seated (g : Game) : Prop :=
  NoDup (players_list g)
  ∧ players g = list_to_set (players_list g)
  ∧ (2 ≤ length (players_list g))%nat
  ∧ 0 ≤ current_index g < Z.of_nat (length (players_list g))
  ∧ (direction g = 1 ∨ direction g = -1)
  ∧ game_stack g ≠ []
  ∧ current_color g ≠ None.

(** The obligation in full: cards are owed exactly when a seat is named,
    the seat named is the seat whose turn it is, and at most four cards are
    owed. *)
Definition pending_exact (g : Game) : Prop :=
  match pending_draw_for_index g with
  | Some i => i = current_index g ∧ 0 < pending_draw_count g ≤ 4
  | None => pending_draw_count g = 0
  end.

(** The [player_id] argument of a call. *)
Definition actor (a : Action) : string :=
  match a with
  | Draw player_id => player_id
  | Play player_id _ _ _ => player_id
  end.

(** What the opening card does to the turn, the direction and the colour
    to play on. *)
Definition opening_effect (g : Game) (card : Card) (g' : Game) : Prop :=
  let n := Z.of_nat (length (players_list g)) in
  players_list g' = players_list g
  ∧ (if is_black card then ∃ c, c ∈ COLORS ∧ current_color g' = Some c
     else current_color g' = Some (color card))
  ∧ (value card = "skip" →
     current_index g' = (current_index g + 2 * direction g) mod n
     ∧ direction g' = direction g
     ∧ pending_draw_count g' = pending_draw_count g
     ∧ pending_draw_for_index g' = pending_draw_for_index g)
  ∧ (value card = "reverse" →
     pending_draw_count g' = pending_draw_count g
     ∧ pending_draw_for_index g' = pending_draw_for_index g
     ∧ if bool_decide (n = 2)
       then current_index g' = (current_index g + 2 * direction g) mod n
            ∧ direction g' = direction g
       else current_index g' = current_index g
            ∧ direction g' = direction g * -1)
  ∧ (value card = "draw-two" →
     current_index g' = (current_index g + 1 * direction g) mod n
     ∧ direction g' = direction g
     ∧ pending_draw_count g' = 2
     ∧ pending_draw_for_index g' = Some (current_index g'))
  ∧ (value card ∉ ["skip"; "reverse"; "draw-two"] →
     current_index g' = current_index g
     ∧ direction g' = direction g
     ∧ pending_draw_count g' = pending_draw_count g
     ∧ pending_draw_for_index g' = pending_draw_for_index g).


(** ** The request parser of [server/lib/parser.py] *)

(** [parse_data_args(data, args)]: the values of [data] under the keys
    [args], in that order, or the message of the [Exception] raised when
    some keys are missing. The loop keeps the two lists [missing_args] and
    [values]. *)
Definition parse_data_args {V} (data : gmap string V) (args : list string)
  : string + list V :=
  let '(missing_args, values) :=
    foldl (λ '(missing_args, values) arg,
             match data !! arg with
             | None => (missing_args ++ [arg], values)
             | Some x => (missing_args, values ++ [x])
             end)
      ([], []) args in
  if bool_decide (missing_args ≠ [])
  then inl ("missing args: " +:+ String.concat ", " missing_args)
  else inr values.

(** [obj.__dict__] for a [Card]: the three attributes [__init__] sets. *)
Definition parse_object (c : Card) : gmap string string :=
  {[ "id" := Card_id c; "color" := color c; "value" := value c ]}.

Definition parse_object_list (objects : list Card)
  : list (gmap string string) :=
  parse_object <$> objects.

(** The tuples [parse_game_state] unpacks: the six-element tuple of
    [Game.get_state], and the older tuples of four, three and two
    elements. *)
Inductive GameState :=
| State6 (hands : gmap Player (list Card)) (top_card : Card)
         (current_player_id current_color : option string)
         (pending_draw_count : Z) (pending_for_player_id : option string)
| State4 (hands : gmap Player (list Card)) (top_card : Card)
         (current_player_id current_color : option string)
| State3 (hands : gmap Player (list Card)) (top_card : Card)
         (current_player_id : option string)
| State2 (hands : gmap Player (list Card)) (top_card : Card).

(** The values of the dictionary [parse_game_state] returns. *)
Inductive Field :=
| FHands (h : gmap string (list (gmap string string)))
| FCard (c : gmap string string)
| FStr (s : string)
| FInt (n : Z)
| FNone.

Definition opt_field (o : option string) : Field :=
  match o with Some s => FStr s | None => FNone end.

(** [result[key] = v] when [v is not None]. *)
Definition insert_if_set (key : string) (o : option string)
  (result : gmap string Field) : gmap string Field :=
  match o with
  | Some s => <[key := FStr s]> result
  | None => result
  end.

Definition parse_game_state (state : GameState) : gmap string Field :=
  let '(hands, top_card, current_player_id, current_color,
        pending_draw_count, pending_for_player_id) :=
    match state with
    | State6 h t p c n f => (h, t, p, c, n, f)
    | State4 h t p c => (h, t, p, c, 0, None)
    | State3 h t p => (h, t, p, None, 0, None)
    | State2 h t => (h, t, None, None, 0, None)
    end in
  let parsed_hands := kmap Player_id (parse_object_list <$> hands) in
  let parsed_top_card := parse_object top_card in
  let result :=
    {[ "hands" := FHands parsed_hands; "top_card" := FCard parsed_top_card ]} in
  let result := insert_if_set "current_player_id" current_player_id result in
  let result := insert_if_set "current_color" current_color result in
  let result := <["pending_draw_count" := FInt pending_draw_count]> result in
  <["pending_for_player_id" := opt_field pending_for_player_id]> result.

(** The first two elements of the tuple, which every shape has. *)
Definition state_hands (state : GameState) : gmap Player (list Card) :=
  match state with
  | State6 h _ _ _ _ _ | State4 h _ _ _ | State3 h _ _ | State2 h _ => h
  end.

Definition state_top_card (state : GameState) : Card :=
  match state with
  | State6 _ t _ _ _ _ | State4 _ t _ _ | State3 _ t _ | State2 _ t => t
  end.

(** The tuple of [Game.get_state] as [parse_game_state] receives it. *)
Definition state_of_tuple (t : StateTuple) : GameState :=
  State6 (t_hands t) (t_top_card t) (Some (t_current_player_id t))
    (t_current_color t) (t_pending_draw_count t) (t_pending_for_id t).

(** ** The rooms of [server/lib/state.py] *)

(** The two tables of the database, each with [room] as its primary key;
    a row holds the pickled value, which [pickle.loads] gives back. *)
Record Store := mkStore {
  games_table : gmap string Game;
  players_table : gmap string (gset Player)
}.

Definition _exists_players (room : string) (db : Store) : bool :=
  bool_decide (is_Some (players_table db !! room)).

Definition get_game_by_room (room : string) (db : Store) : option Game :=
  games_table db !! room.

Definition get_players_by_room (room : string) (db : Store) : gset Player :=
  default ∅ (players_table db !! room).

Definition add_game_to_room (room : string) (game : Game) (db : Store)
  : Store :=
  mkStore (<[room := game]> (games_table db)) (players_table db).

Definition update_game_in_room (room : string) (game : Game) (db : Store)
  : Store :=
  add_game_to_room room game db.

Definition add_player_to_room (room : string) (player : Player) (db : Store)
  : Store :=
  mkStore (games_table db)
    (<[room := get_players_by_room room db ∪ {[player]}]> (players_table db)).

(** [players.remove(player)] raises [KeyError] for a player who is not in
    the room. *)
Definition remove_player_from_room (room : string) (player : Player)
  (db : Store) : SetError + Store :=
  let players := get_players_by_room room db in
  if bool_decide (player ∈ players) then
    inr (mkStore (games_table db)
           (<[room := players ∖ {[player]}]> (players_table db)))
  else inl KeyError.

Definition delete_room (room : string) (db : Store) : Store :=
  mkStore (games_table db) (delete room (players_table db)).

Definition delete_game (room : string) (db : Store) : Store :=
  mkStore (delete room (games_table db)) (players_table db).

Definition delete_all (room : string) (db : Store) : Store :=
  delete_game room (delete_room room db).

(** [' ' in s] *)
Fixpoint has_space (s : string) : bool :=
  match s with
  | EmptyString => false
  | String a s' => Ascii.eqb a " "%char || has_space s'
  end.

(** [State.allow_player]: whether [player] may create or join [room], and
    the reason when not. [bool(game)] is true of every [Game] object. *)
Definition allow_player (action room : string) (player : Player)
  (db : Store) : bool * option string :=
  if (name player =? EmptyString)%string then
    (false, Some "name cannot be blank")
  else if has_space (name player) then
    (false, Some "name should not contain white spaces")
  else if (room =? EmptyString)%string then
    (false, Some "room should not be empty")
  else if (action =? "Join")%string && negb (_exists_players room db) then
    (false, Some ("cannot join game, room " +:+ room +:+ " does not exist"))
  else
    let started := bool_decide (is_Some (get_game_by_room room db)) in
    let players := get_players_by_room room db in
    if bool_decide (Z.of_nat (size players) = MAX_PLAYERS_ALLOWED) then
      (false, Some ("room is full, max " +:+ pretty MAX_PLAYERS_ALLOWED
                    +:+ " players are supported"))
    else if started then
      if bool_decide (player ∉ players) then
        (false, Some ("cannot join, game in the room " +:+ room
                      +:+ " has already started"))
      else (true, None)
    else
      if bool_decide (player ∈ players) then
        (false, Some ("name " +:+ name player
                      +:+ " is already taken for this room, try a different name"))
      else (true, None).

(** ** More sample games *)

(** [holding_wild] with two cards owed by [alice], whose turn it is. *)
Definition owing_two : Game :=
  set_pending_draw_for_index (Some 0) (set_pending_draw_count 2 holding_wild).

(** [holding_wild] once [alice] has been removed. *)
Definition bob_alone : Game :=
  set_players_list [bob] (set_players {[bob]} holding_wild).

(** A database with no room and no game. *)
Definition no_rooms : Store := mkStore ∅ ∅.
(** ** Reasoning about the monad *)

Lemma bind_Ok {A B} (m : M A) (k : A → M B) s a s' :
  m s = Ok a s' → bind m k s = k a s'.
Proof. unfold bind. by intros ->. Qed.

Lemma bind_Exc {A B} (m : M A) (k : A → M B) s e s' :
  m s = Exc e s' → bind m k s = Exc e s'.
Proof. unfold bind. by intros ->. Qed.

Lemma list_pop_snoc {A} (l : list A) x : list_pop (l ++ [x]) = Some (l, x).
Proof.
  induction l as [|y l IH]; [done|].
  simpl. rewrite IH. by destruct l.
Qed.

Lemma list_pop_Some {A} (l i : list A) x :
  list_pop l = Some (i, x) ↔ l = i ++ [x].
Proof.
  split; [|intros ->; apply list_pop_snoc].
  revert i. induction l as [|y l IH]; intros i H; [done|].
  simpl in H. destruct l as [|z l].
  - by simplify_eq.
  - destruct (list_pop (z :: l)) as [[i' x']|] eqn:E; simplify_eq.
    by rewrite (IH i' eq_refl).
Qed.

Lemma list_pop_None {A} (l : list A) : list_pop l = None ↔ l = [].
Proof.
  split; [|by intros ->].
  destruct l as [|x l] using rev_ind; [done|].
  by rewrite list_pop_snoc.
Qed.

Lemma Player_id_inj p q : Player_id p = Player_id q → p = q.
Proof.
  destruct p as [a], q as [b]. unfold Player_id. simpl.
  intros H. by simplify_eq.
Qed.

(** ** The legality test *)

(** The test as the source branches: on the truth value of
    [self.current_color]. *)
Lemma can_play_card_truthy (g : Game) (card top_card : Card) :
  _can_play_card g card top_card = true ↔
  if truthy (current_color g)
  then color card = "black" ∨ Some (color card) = current_color g
       ∨ value card = value top_card
  else color top_card = "black" ∨ color card = "black"
       ∨ color card = color top_card ∨ value card = value top_card.
Proof.
  unfold _can_play_card, is_black.
  destruct (truthy (current_color g)).
  - destruct (String.eqb_spec (color card) "black") as [Hb|Hb].
    + split; auto.
    + rewrite orb_true_iff, bool_decide_eq_true, String.eqb_eq. tauto.
  - destruct (String.eqb_spec (color top_card) "black") as [Ht|Ht].
    + split; auto.
    + rewrite !orb_true_iff, !String.eqb_eq. tauto.
Qed.

(** C5. [_can_play_card] is exactly the two-case test of the
    specification, for every card, top card and value of [current_color].
    When [current_color] is a colour [cc] (any string but the empty one,
    which the [if self.current_color] of the source takes for unset), a
    card is playable iff it is black, or its colour is [cc], or its value
    is the top card's. When [current_color] is unset ([None], or the empty
    string), a card is playable iff the top card is black, or the card is
    black, or its colour or value is the top card's. *)
Theorem can_play_card_exact (g : Game) (card top_card : Card) :
  (∀ cc, current_color g = Some cc → cc ≠ "" →
     (_can_play_card g card top_card = true ↔
      color card = "black" ∨ color card = cc
      ∨ value card = value top_card))
  ∧ (current_color g = None ∨ current_color g = Some "" →
     (_can_play_card g card top_card = true ↔
      color top_card = "black" ∨ color card = "black"
      ∨ color card = color top_card ∨ value card = value top_card)).
Proof.
  split.
  - intros cc Hcc Hne. unfold _can_play_card, is_black. rewrite Hcc.
    cbn [truthy]. apply String.eqb_neq in Hne. rewrite Hne. cbn [negb].
    destruct (String.eqb_spec (color card) "black") as [Hb|Hb].
    + split; auto.
    + rewrite orb_true_iff, bool_decide_eq_true, String.eqb_eq.
      split.
      * intros [Hc|Hv]; [right; left; congruence|right; right; exact Hv].
      * intros [Hk|[Hc|Hv]]; [contradiction|left; congruence|right; exact Hv].
  - intros Hcc. unfold _can_play_card, is_black.
    assert (truthy (current_color g) = false) as ->.
    { destruct Hcc as [->| ->]; reflexivity. }
    destruct (String.eqb_spec (color top_card) "black") as [Ht|Ht].
    + split; auto.
    + rewrite !orb_true_iff, !String.eqb_eq. tauto.
Qed.

Lemma can_play_card_color_set (g : Game) (cc : string) (card top_card : Card) :
  current_color g = Some cc → cc ∈ COLORS →
  _can_play_card g card top_card = true ↔
  color card = "black" ∨ color card = cc ∨ value card = value top_card.
Proof.
  intros Hcc Hin. rewrite can_play_card_truthy, Hcc.
  assert (truthy (Some cc) = true) as ->.
  { unfold COLORS in Hin. set_unfold. by destruct Hin as [->|[->|[->|[->|[]]]]]. }
  split; intros [?|[?|?]]; auto; [right; left; congruence|right; left; congruence].
Qed.

Lemma can_play_card_color_unset (g : Game) (card top_card : Card) :
  current_color g = None →
  _can_play_card g card top_card = true ↔
  color top_card = "black" ∨ color card = "black"
  ∨ color card = color top_card ∨ value card = value top_card.
Proof. intros Hcc. by rewrite can_play_card_truthy, Hcc. Qed.

(** ** Counting the cards of the hands *)

Lemma sum_list_perm (l1 l2 : list nat) : l1 ≡ₚ l2 → sum_list l1 = sum_list l2.
Proof. induction 1; simpl; lia. Qed.

Lemma hands_total_empty : hands_total ∅ = 0%nat.
Proof. unfold hands_total. by rewrite map_to_list_empty. Qed.

Lemma hands_total_insert_fresh (h : gmap Player (list Card)) p l :
  h !! p = None → hands_total (<[p := l]> h) = (length l + hands_total h)%nat.
Proof.
  intros Hp. unfold hands_total.
  rewrite (sum_list_perm _ (length <$> ((p, l) :: map_to_list h).*2)); [done|].
  by rewrite (map_to_list_insert h p l Hp).
Qed.

Lemma hands_total_lookup (h : gmap Player (list Card)) p l :
  h !! p = Some l → hands_total h = (length l + hands_total (delete p h))%nat.
Proof.
  intros Hp. rewrite <- (insert_delete_id h p l Hp) at 1.
  apply hands_total_insert_fresh, lookup_delete_eq.
Qed.

Lemma hands_total_insert (h : gmap Player (list Card)) p l :
  (hands_total (<[p := l]> h) + length (default [] (h !! p)))%nat
  = (hands_total h + length l)%nat.
Proof.
  destruct (h !! p) as [l0|] eqn:Hp; simpl.
  - rewrite (hands_total_lookup h p l0 Hp).
    rewrite <- insert_delete_eq.
    rewrite hands_total_insert_fresh by apply lookup_delete_eq. lia.
  - rewrite hands_total_insert_fresh by done. lia.
Qed.

Lemma set_hands_id g : set_hands (hands g) g = g.
Proof. by destruct g. Qed.

Lemma touch_held g p l : hands g !! p = Some l → touch p g = g.
Proof.
  intros Hp. unfold touch, hand_of. rewrite Hp. simpl.
  rewrite insert_id by done. apply set_hands_id.
Qed.

Lemma hand_of_touch g p q : hand_of (touch p g) q = hand_of g q.
Proof.
  unfold touch, hand_of. simpl.
  destruct (decide (p = q)) as [->|Hne].
  - by rewrite lookup_insert_eq.
  - by rewrite lookup_insert_ne.
Qed.

Lemma hands_total_touch g p : hands_total (hands (touch p g)) = hands_total (hands g).
Proof.
  unfold touch. simpl. pose proof (hands_total_insert (hands g) p (hand_of g p)).
  unfold hand_of in *. lia.
Qed.

(** ** Closed forms of the dictionary and lookup operations *)

Lemma hands_get_eq p s :
  hands_get p s = Ok (hand_of (st_game s) p) (st_set_game (touch p (st_game s)) s).
Proof.
  unfold hands_get, bind, get, hand_of.
  destruct (hands (st_game s) !! p) as [l|] eqn:Hp; simpl.
  - unfold ret. rewrite (touch_held _ _ _ Hp). by destruct s.
  - unfold modify, ret, touch, hand_of. by rewrite Hp.
Qed.

Lemma hands_update_eq p f s :
  hands_update p f s
  = Ok tt (st_set_game
             (set_hands (<[p := f (hand_of (st_game s) p)]> (hands (st_game s)))
                (st_game s)) s).
Proof.
  unfold hands_update. rewrite (bind_Ok _ _ _ _ _ (hands_get_eq p s)).
  unfold modify, touch, st_set_game, set_hands. simpl.
  by rewrite insert_insert_eq.
Qed.

Lemma list_find_by_id `{HasId A} (objects : list A) (obj_id : string) :
  list_find (λ i, i = obj_id) (get_id <$> objects)
  = (λ r, (r.1, get_id r.2)) <$> list_find (λ o, get_id o = obj_id) objects.
Proof.
  rewrite list_find_fmap. unfold compose.
  by destruct (list_find _ objects) as [[? ?]|].
Qed.

Lemma find_by_id_list_find `{HasId A} (objects : list A) (obj_id : string) :
  find_by_id objects obj_id
  = snd <$> list_find (λ o, get_id o = obj_id) objects.
Proof.
  unfold find_by_id.
  induction objects as [|o l IH]; [done|].
  simpl. destruct (String.eqb_spec (get_id o) obj_id); case_decide; try done.
  rewrite IH. by destruct (list_find _ l) as [[? ?]|].
Qed.

Lemma find_object_eq `{HasId A} (objects : list A) (obj_id : string) s :
  find_object objects obj_id s
  = match find_by_id objects obj_id with
    | Some o => Ok o s
    | None => Exc ValueError s
    end.
Proof.
  unfold find_object, find_object_idx, bind, lift_opt.
  rewrite list_find_by_id, find_by_id_list_find.
  destruct (list_find _ objects) as [[i o]|] eqn:E; simpl; [|done].
  apply list_find_Some in E as (Hi & _ & _). by rewrite Hi.
Qed.

Lemma find_by_id_Some `{HasId A} (objects : list A) (obj_id : string) o :
  find_by_id objects obj_id = Some o → o ∈ objects ∧ get_id o = obj_id.
Proof.
  rewrite find_by_id_list_find.
  destruct (list_find _ objects) as [[i o']|] eqn:E; simpl; [|done].
  intros [= ->]. apply list_find_Some in E as (Hi & Hid & _).
  split; [by eapply list_elem_of_lookup_2|done].
Qed.

Lemma find_object_idx_eq `{HasId A} (objects : list A) (obj_id : string) s :
  find_object_idx objects obj_id s
  = match list_find (λ o, get_id o = obj_id) objects with
    | Some (i, _) => Ok i s
    | None => Exc ValueError s
    end.
Proof.
  unfold find_object_idx, lift_opt. rewrite list_find_by_id.
  by destruct (list_find _ objects) as [[i o]|].
Qed.

(** A member of a set of players is what [find_object] finds under its
    own identifier. *)
Lemma find_by_id_player (ps : list Player) p :
  p ∈ ps → find_by_id ps (Player_id p) = Some p.
Proof.
  intros Hp. rewrite find_by_id_list_find.
  destruct (list_find _ ps) as [[i q]|] eqn:E; simpl.
  - apply list_find_Some in E as (_ & Hid & _).
    f_equal. by apply Player_id_inj.
  - apply list_find_None in E. rewrite Forall_forall in E.
    by destruct (E p Hp).
Qed.

(** ** Symbolic execution of the engine *)

Ltac mred :=
  cbv [bind ret raise get modify notify call_on_game_over tick lift_opt
       validate_players get_top_card _next_index _advance_turn random_shuffle
       hands_append enter _calculate_score random_choice];
  cbn [st_game st_rng st_notes st_calls st_set_game outcome_state
       hands players_list players current_index direction current_color
       pending_draw_count pending_draw_for_index remaining_cards game_stack
       set_hands set_current_index set_direction set_current_color
       set_pending_draw_count set_pending_draw_for_index set_remaining_cards
       set_game_stack touch fst snd].

(** The scrutinee on which the running computation [t] is stuck: a whole
    boolean condition, or the innermost scrutinee of another type. *)
Ltac head_scrut t :=
  lazymatch t with
  | match ?x with _ => _ end =>
      lazymatch type of x with
      | bool => x
      | _ => match x with
             | _ => head_scrut x
             | _ => x
             end
      end
  | ?f _ => head_scrut f
  end.

Ltac mcase :=
  match goal with
  | |- context [outcome_state ?t] => let x := head_scrut t in destruct x eqn:?
  | |- ?t = _ → _ => let x := head_scrut t in destruct x eqn:?
  | |- match ?t with _ => _ end => let x := head_scrut t in destruct x eqn:?
  end.

Ltac bsimp :=
  repeat match goal with
    | p : (_ * _)%type |- _ => destruct p; cbn [fst snd] in *
    | H : context [_ && _ = true] |- _ => rewrite andb_true_iff in H
    | H : context [_ && _ = false] |- _ => rewrite andb_false_iff in H
    | H : context [bool_decide _ = true] |- _ =>
        rewrite bool_decide_eq_true in H
    | H : context [bool_decide _ = false] |- _ =>
        rewrite bool_decide_eq_false in H
    | H : context [negb _ = true] |- _ => rewrite negb_true_iff in H
    | H : context [negb _ = false] |- _ => rewrite negb_false_iff in H
    | H : list_pop _ = Some _ |- _ => apply list_pop_Some in H
    | H : list_pop _ = None |- _ => apply list_pop_None in H
    | H : (_ =? _)%string = true |- _ => apply String.eqb_eq in H
    | H : (_ =? _)%string = false |- _ => apply String.eqb_neq in H
    | H : _ ∧ _ |- _ => destruct H
    end.

(** Unfolds the relations between games down to equations on their
    attributes and on the sizes of the piles and hands. *)
Ltac game_simpl :=
  unfold piles_moved, hands_touched, same_traces, pending_on_current,
    obligated, touch in *;
  unfold same_turn, cards_in_game, hand_of in *;
  cbn [st_game st_rng st_notes st_calls st_set_game outcome_state
       hands players_list players current_index direction current_color
       pending_draw_count pending_draw_for_index remaining_cards game_stack
       set_hands set_current_index set_direction set_current_color
       set_pending_draw_count set_pending_draw_for_index set_remaining_cards
       set_game_stack fst snd] in *;
  repeat first [ rewrite insert_insert_eq in * | rewrite lookup_insert_eq in * ];
  cbn [from_option id] in *.

(** Replaces the size of every updated dictionary by what
    [hands_total_insert] says of it. *)
Ltac count_inserts :=
  repeat match goal with
    | |- context [hands_total (<[?p := ?l]> ?h)] =>
        let H := fresh "Hins" in
        pose proof (hands_total_insert h p l) as H;
        generalize dependent (hands_total (<[p := l]> h)); intros
    | H : context [hands_total (<[?p := ?l]> ?h)] |- _ =>
        let H := fresh "Hins" in
        pose proof (hands_total_insert h p l) as H;
        generalize dependent (hands_total (<[p := l]> h)); intros
    end.

(** What a successful [list_find] says of the length of the list and of
    the list without the element found. *)
Ltac found_lengths :=
  repeat match goal with
    | H : list_find _ ?l = Some (?i, ?x) |- _ =>
        let Hl := fresh "Hlk" in
        apply list_find_Some in H as (Hl & _ & _);
        pose proof (lookup_lt_Some _ _ _ Hl);
        pose proof (length_delete l i (mk_is_Some _ _ Hl))
    end.

Lemma same_turn_refl g : same_turn g g.
Proof. by repeat split. Qed.

Lemma same_turn_trans g1 g2 g3 :
  same_turn g1 g2 → same_turn g2 g3 → same_turn g1 g3.
Proof. unfold same_turn. intuition congruence. Qed.

Lemma shuffle_length (shuffle_at : nat → list Card → list Card) :
  (∀ t l, shuffle_at t l ≡ₚ l) → ∀ t l, length (shuffle_at t l) = length l.
Proof. intros Hperm t l. by rewrite Hperm. Qed.

Section Piles.
Variable shuffle_at : nat → list Card → list Card.

Lemma refill_if_empty_eq s :
    refill_if_empty shuffle_at s
    = if bool_decide (remaining_cards (st_game s) = []) then
        match list_pop (game_stack (st_game s)) with
        | None => Exc IndexError s
        | Some (init, top) =>
            Ok tt (mkSt (set_game_stack [top]
                           (set_remaining_cards (shuffle_at (st_rng s) init)
                              (st_game s)))
                     (S (st_rng s)) (st_notes s) (st_calls s))
        end
      else Ok tt s.
  Proof.
    unfold refill_if_empty, transfer_played_cards. mred.
    case_bool_decide; [|done].
    destruct (list_pop (game_stack (st_game s))) as [[init top]|] eqn:E; [|done].
    apply list_pop_Some in E. mred. by rewrite E, last_snoc.
  Qed.

Lemma draw_n_S p n :
    _draw_n shuffle_at p (S n)
    = (refill_if_empty shuffle_at ;;;
       let* g := get in
       match list_pop (remaining_cards g) with
       | None => ret tt
       | Some (rest, c) =>
           hands_get p ;;;
           modify (set_remaining_cards rest) ;;;
           hands_append p c ;;;
           _draw_n shuffle_at p n
       end).
  Proof. done. Qed.
End Piles.

Ltac mstep :=
  first [ rewrite hands_get_eq | rewrite hands_update_eq
        | rewrite find_object_eq | rewrite find_object_idx_eq
        | rewrite refill_if_empty_eq ].

Ltac mrun := mred; repeat (first [mstep | mcase]; mred).

(** Closes a goal that compares attributes, pile sizes and top cards; the
    equation of a shuffled list is reduced to the equation of its length,
    which needs the hypothesis [shuffle_perm] of the section. *)
Ltac frame_solver :=
  game_simpl; bsimp; subst;
  repeat match goal with
    | H : game_stack _ = _ |- _ => rewrite H in *
    end;
  rewrite ?last_snoc in *;
  repeat split; first [done | congruence | lia].

Ltac piles_solver :=
  game_simpl; bsimp; subst; found_lengths; count_inserts;
  repeat match goal with
    | H : remaining_cards _ = _ |- _ => rewrite H in *
    | H : game_stack _ = _ |- _ => rewrite H in *
    | H : ?sh _ _ = _ ++ [_] |- _ =>
        apply (f_equal length) in H;
        rewrite (shuffle_length sh) in H by assumption
    end;
  rewrite ?length_app, ?last_snoc in *;
  repeat match goal with
    | |- context [length (?sh ?t ?l)] =>
        rewrite (shuffle_length sh) by assumption
    end;
  simpl length in *;
  repeat split; first [congruence | lia | done].

Section PileSpecs.
Variable shuffle_at : nat → list Card → list Card.

Lemma draw_n_frame p n s :
    let s' := outcome_state (_draw_n shuffle_at p n s) in
    piles_moved (st_game s) (st_game s') ∧ same_traces s s'.
  Proof.
    revert s. induction n as [|n IH]; intros s.
    { simpl. frame_solver. }
    rewrite draw_n_S. mrun.
    all: try match goal with
         | |- context [_draw_n _ _ _ ?s1] =>
             destruct (IH s1) as [Hm Ht]; revert Hm Ht;
             generalize (outcome_state (_draw_n shuffle_at p n s1));
             intros s2 Hm Ht
         end.
    all: clear IH; frame_solver.
  Qed.

Lemma score_from_ext g g' ps ex total :
    (∀ q, hand_of g' q = hand_of g q) →
    score_from g' ps ex total = score_from g ps ex total.
  Proof.
    intros Hh. revert total. unfold score_from.
    induction ps as [|p ps IH]; intros total; [done|].
    simpl. by rewrite Hh, IH.
  Qed.

Lemma calculate_score_from_spec ps ex total s :
    ∃ g', _calculate_score_from ps ex total s
          = Ok (score_from (st_game s) ps ex total) (st_set_game g' s)
          ∧ hands_touched (st_game s) g'.
  Proof.
    revert total s. induction ps as [|p ps IH]; intros total s.
    { exists (st_game s). split; [by destruct s|].
      by repeat split. }
    simpl. case_bool_decide.
    { apply IH. }
    rewrite (bind_Ok _ _ _ _ _ (hands_get_eq p s)).
    destruct (IH (foldl (λ t c, t + card_points c) total (hand_of (st_game s) p))
                (st_set_game (touch p (st_game s)) s)) as (g' & Heq & Hsame & Hrem & Hst & Hh & Htot).
    exists g'. split.
    - rewrite Heq. simpl st_game.
      rewrite (score_from_ext (st_game s) (touch p (st_game s)));
        [|apply hand_of_touch].
      reflexivity.
    - destruct Hsame as (? & ? & ? & ? & ? & ? & ?).
      cbn [st_game st_set_game] in *.
      change (players_list (touch p (st_game s))) with (players_list (st_game s)) in *.
      repeat split; try done.
      + intros q. by rewrite Hh, (hand_of_touch (st_game s)).
      + by rewrite Htot, (hands_total_touch (st_game s)).
  Qed.

Hypothesis shuffle_perm : ∀ t l, shuffle_at t l ≡ₚ l.

Lemma draw_n_count p n s :
    cards_in_game (st_game (outcome_state (_draw_n shuffle_at p n s)))
    = cards_in_game (st_game s).
  Proof.
    revert s. induction n as [|n IH]; intros s; [done|].
    rewrite draw_n_S. mrun.
    all: try match goal with
         | |- context [_draw_n _ _ _ ?s1] =>
             rewrite (IH s1); clear IH
         end.
    all: piles_solver.
  Qed.
End PileSpecs.

(** Symbolic execution of [play]: the calls of [_draw_n] and
    [_calculate_score] are replaced by what their specifications say; in a
    section that assumes [shuffle_perm], the count of the cards comes too. *)
Ltac mcall :=
  match goal with
  | |- context [_calculate_score_from ?ps ?ex ?t ?s1] =>
      let g' := fresh "gs" in
      let Hs := fresh "Hscore" in
      destruct (calculate_score_from_spec ps ex t s1) as (g' & -> & Hs)
  | |- context [_draw_n ?sh ?p ?n ?s1] =>
      let Hd := fresh "Hdrawn" in
      let Hc := fresh "Hcount" in
      pose proof (draw_n_frame sh p n s1) as Hd;
      try (pose proof (draw_n_count sh) as Hc;
           specialize (Hc ltac:(assumption) p n s1));
      destruct (_draw_n sh p n s1) as [[] ?|? ?];
      cbn [outcome_state] in *
  end.

Ltac prun := mred; repeat (first [mstep | mcall | mcase]; mred).
(** ** What every call of [draw] and [play] preserves *)

Section Calls.
Variable shuffle_at : nat → list Card → list Card.

Lemma draw_pending_on_current pid s :
    pending_on_current (st_game s) →
    pending_on_current (st_game (outcome_state (draw shuffle_at pid s))).
  Proof.
    unfold draw. intros Hinv.
    mrun; game_simpl; bsimp; try done.
    all: intros Hpos; first [lia | by specialize (Hinv Hpos) | tauto].
  Qed.

Lemma play_pending_on_current pid cid cc uno s :
    pending_on_current (st_game s) →
    pending_on_current
      (st_game (outcome_state (play shuffle_at pid cid cc uno s))).
  Proof.
    unfold play. intros Hinv.
    prun; game_simpl; bsimp; try done.
    all: assert (¬ 0 < pending_draw_count (st_game s)) by tauto.
    all: intros Hpos; first [done | lia].
  Qed.

Hypothesis shuffle_perm : ∀ t l, shuffle_at t l ≡ₚ l.

Lemma draw_cards_conserved pid s :
    cards_in_game (st_game (outcome_state (draw shuffle_at pid s)))
    = cards_in_game (st_game s).
  Proof. unfold draw. mrun; piles_solver. Qed.

Lemma play_cards_conserved pid cid cc uno s :
    cards_in_game (st_game (outcome_state (play shuffle_at pid cid cc uno s)))
    = cards_in_game (st_game s).
  Proof. unfold play. prun; piles_solver. Qed.
End Calls.
(** ** Construction *)

Section Construction.
Variable shuffle_at : nat → list Card → list Card.
Variable choice_at : nat → nat.

  (** *** Construction: the deck and the deal *)

Lemma Deck_shuffle_eq n cards s :
    Deck_shuffle shuffle_at n cards s
    = Ok (shuffled shuffle_at n (st_rng s) cards)
        (mkSt (st_game s) (n + st_rng s) (st_notes s) (st_calls s)).
  Proof.
    revert cards s. induction n as [|n IH]; intros cards s.
    { by destruct s. }
    simpl. mred. rewrite IH. simpl. do 2 f_equal. lia.
  Qed.

Lemma Deck_cards_length : length Deck_cards = 108%nat.
  Proof. reflexivity. Qed.

Lemma py_slice_split {A} (l : list A) k : py_slice_to l k ++ py_slice_from l k = l.
  Proof. apply take_drop. Qed.

Lemma deal_round_spec ps dealt s :
    ∃ g', deal_round ps dealt s = Ok (drop (length ps) dealt) (st_set_game g' s)
          ∧ same_turn (st_game s) g'
          ∧ remaining_cards g' = remaining_cards (st_game s)
          ∧ game_stack g' = game_stack (st_game s)
          ∧ hands_total (hands g')
            = (hands_total (hands (st_game s)) + length ps `min` length dealt)%nat
          ∧ (NoDup ps → (length ps ≤ length dealt)%nat → ∀ q,
               length (hand_of g' q)
               = (length (hand_of (st_game s) q)
                  + if decide (q ∈ ps) then 1 else 0)%nat).
  Proof.
    revert dealt s. induction ps as [|p ps IH]; intros dealt s.
    { exists (st_game s). simpl. split; [by destruct s|].
      split; [apply same_turn_refl|]. repeat split; try lia.
      all: intros; try rewrite decide_False by set_solver; lia. }
    destruct dealt as [|c dealt].
    { exists (st_game s). simpl. split; [by destruct s|].
      split; [apply same_turn_refl|]. repeat split; try lia.
      all: intros; simpl in *; lia. }
    cbn [deal_round]. mred. rewrite hands_update_eq. mred.
    set (g1 := set_hands _ (st_game s)).
    destruct (IH dealt (st_set_game g1 s))
      as (g' & Heq & Hsame & Hrem & Hst & Htot & Hper).
    simpl st_game in *. rewrite Heq.
    exists g'. split; [done|].
    split; [eapply same_turn_trans; [|exact Hsame]; by repeat split|].
    split; [by rewrite Hrem|]. split; [by rewrite Hst|].
    pose proof (hands_total_insert (hands (st_game s)) p
                  (hand_of (st_game s) p ++ [c])) as Hins.
    fold (hand_of (st_game s) p) in Hins. rewrite length_app in Hins.
    split.
    - rewrite Htot. subst g1. simpl in *. lia.
    - intros Hnd Hlen q. apply NoDup_cons in Hnd as [Hp Hnd].
      simpl in Hlen. rewrite (Hper Hnd) by lia.
      subst g1. unfold hand_of. simpl hands.
      destruct (decide (q = p)) as [->|Hne].
      + rewrite lookup_insert_eq, (decide_True (P := p ∈ p :: ps)) by set_solver.
        rewrite decide_False by done. simpl. rewrite length_app. simpl. lia.
      + rewrite lookup_insert_ne by done.
        destruct (decide (q ∈ ps)).
        * rewrite decide_True by set_solver. done.
        * rewrite decide_False by set_solver. done.
  Qed.

Lemma deal_loop_spec rounds ps dealt s :
    ps ≠ [] → (length dealt ≤ rounds)%nat →
    ∃ g', deal_loop rounds ps dealt s = Some (Ok tt (st_set_game g' s))
          ∧ same_turn (st_game s) g'
          ∧ remaining_cards g' = remaining_cards (st_game s)
          ∧ game_stack g' = game_stack (st_game s)
          ∧ hands_total (hands g')
            = (hands_total (hands (st_game s)) + length dealt)%nat
          ∧ (NoDup ps → ∀ h, length dealt = (length ps * h)%nat → ∀ q,
               length (hand_of g' q)
               = (length (hand_of (st_game s) q)
                  + if decide (q ∈ ps) then h else 0)%nat).
  Proof.
    intros Hps. revert dealt s.
    induction rounds as [|rounds IH]; intros dealt s Hlen.
    { destruct dealt; [|simpl in Hlen; lia].
      exists (st_game s). simpl. split; [by destruct s|].
      split; [apply same_turn_refl|]. repeat split; try lia.
      intros _ h Hh q. destruct (decide (q ∈ ps)); [|lia].
      destruct ps; [done|]. simpl in Hh. destruct h; [lia|]. lia. }
    destruct dealt as [|c dealt].
    { exists (st_game s). simpl. split; [by destruct s|].
      split; [apply same_turn_refl|]. repeat split; try lia.
      intros _ h Hh q. destruct (decide (q ∈ ps)); [|lia].
      destruct ps; [done|]. simpl in Hh. destruct h; [lia|]. lia. }
    cbn [deal_loop].
    destruct (deal_round_spec ps (c :: dealt) s)
      as (g1 & -> & Hsame1 & Hrem1 & Hst1 & Htot1 & Hper1).
    assert (length (drop (length ps) (c :: dealt)) ≤ rounds)%nat as Hlen'.
    { rewrite length_drop. destruct ps; [done|]. simpl in *. lia. }
    destruct (IH (drop (length ps) (c :: dealt)) (st_set_game g1 s) Hlen')
      as (g2 & -> & Hsame2 & Hrem2 & Hst2 & Htot2 & Hper2).
    exists g2. split; [done|].
    split; [eapply same_turn_trans; [exact Hsame1|exact Hsame2]|].
    split; [simpl in *; congruence|]. split; [simpl in *; congruence|].
    split.
    - rewrite Htot2. simpl st_game. rewrite Htot1, length_drop. lia.
    - intros Hnd h Hh q. destruct h as [|h].
      { rewrite Nat.mul_0_r in Hh. done. }
      assert (length ps ≤ length (c :: dealt))%nat as Hle by lia.
      rewrite (Hper2 Hnd h).
      + simpl st_game. rewrite (Hper1 Hnd Hle).
        destruct (decide (q ∈ ps)); lia.
      + rewrite length_drop. lia.
  Qed.

Lemma sorted_by_id_perm l : sorted_by_id l ≡ₚ l.
  Proof. apply merge_sort_Permutation. Qed.

Lemma seats_NoDup (players0 : gset Player) :
    NoDup (sorted_by_id (elements players0)).
  Proof. rewrite sorted_by_id_perm. apply NoDup_elements. Qed.

Lemma seats_length (players0 : gset Player) :
    length (sorted_by_id (elements players0)) = size players0.
  Proof. by rewrite sorted_by_id_perm. Qed.

Lemma seats_elem (players0 : gset Player) p :
    p ∈ sorted_by_id (elements players0) ↔ p ∈ players0.
  Proof. by rewrite sorted_by_id_perm, elem_of_elements. Qed.

Lemma seats_set (players0 : gset Player) :
    list_to_set (sorted_by_id (elements players0)) = players0.
  Proof. apply set_eq. intros p. by rewrite elem_of_list_to_set, seats_elem. Qed.

Lemma Game_init_cards_eq players0 hand_size rng :
    let cards := shuffled shuffle_at SHUFFLE_FREQ rng Deck_cards in
    let k := Z.of_nat (size players0) * hand_size in
    Game_init_cards shuffle_at hand_size (mkSt (Game_new players0) rng [] [])
    = if bool_decide (size players0 < 2)%nat then
        Exc InsufficientPlayers
          (mkSt (Game_new players0) (SHUFFLE_FREQ + rng) [] [])
      else
        Ok (py_slice_to cards k)
          (mkSt (set_remaining_cards (py_slice_from cards k) (Game_new players0))
             (SHUFFLE_FREQ + rng) [] []).
  Proof.
    intros cards k. unfold Game_init_cards, Deck_init.
    unfold bind at 1. rewrite Deck_shuffle_eq. fold cards.
    mred. unfold Game_new. mred. rewrite !seats_set.
    assert (Z.of_nat (size players0) < MIN_PLAYERS_ALLOWED
            ↔ (size players0 < 2)%nat) as Hmin by (unfold MIN_PLAYERS_ALLOWED; lia).
    rewrite (bool_decide_ext _ _ Hmin).
    case_bool_decide; [done|].
    mred. by rewrite seats_length.
  Qed.

  (** What [Game.__init__] has done when it reaches
      [_start_discard_with_valid_card]. *)
Lemma Game_init_deal_spec players0 hand_size rng :
    let cards := shuffled shuffle_at SHUFFLE_FREQ rng Deck_cards in
    let k := Z.of_nat (size players0) * hand_size in
    if bool_decide (size players0 < 2)%nat then
      Game_init_deal shuffle_at players0 hand_size rng
      = Some (Exc InsufficientPlayers
                (mkSt (Game_new players0) (SHUFFLE_FREQ + rng) [] []))
    else
      ∃ g, Game_init_deal shuffle_at players0 hand_size rng
           = Some (Ok tt (mkSt g (SHUFFLE_FREQ + rng) [] []))
           ∧ same_turn (Game_new players0) g
           ∧ game_stack g = []
           ∧ remaining_cards g = py_slice_from cards k
           ∧ hands_total (hands g) = length (py_slice_to cards k)
           ∧ (∀ h, length (py_slice_to cards k) = (size players0 * h)%nat →
              ∀ q, length (hand_of g q)
                   = if decide (q ∈ players0) then h else 0%nat).
  Proof.
    intros cards k. unfold Game_init_deal.
    rewrite Game_init_cards_eq. fold cards k.
    case_bool_decide as Hsz; [done|].
    set (s1 := mkSt _ _ _ _).
    destruct (deal_loop_spec (length (py_slice_to cards k))
                (players_list (st_game s1)) (py_slice_to cards k) s1)
      as (g' & Heq & Hsame & Hrem & Hst & Htot & Hper); [|done|].
    { intros Hnil. apply (f_equal length) in Hnil. simpl in Hnil.
      rewrite seats_length in Hnil. simpl in Hnil. lia. }
    rewrite Heq. mred.
    exists (set_game_stack [] g'). split; [done|].
    destruct Hsame as (? & ? & ? & ? & ? & ? & ?).
    subst s1. simpl in *.
    split; [done|]. split; [done|]. split; [done|].
    rewrite hands_total_empty in Htot. split; [done|].
    intros h Hh q. unfold hand_of. simpl.
    specialize (Hper (seats_NoDup players0) h).
    rewrite seats_length in Hper. specialize (Hper Hh q).
    unfold hand_of in Hper. simpl in Hper. rewrite Hper, lookup_empty. simpl.
    destruct (decide (q ∈ players0)).
    - by rewrite decide_True by (by apply seats_elem).
    - by rewrite decide_False by (by rewrite seats_elem).
  Qed.

  (** One iteration of the opening loop, the discard stack being empty. *)
Lemma start_discard_step_spec s :
    game_stack (st_game s) = [] →
    match start_discard_step shuffle_at choice_at s with
    | Exc _ _ => True
    | Ok true s' =>
        same_turn (st_game s) (st_game s')
        ∧ hands (st_game s') = hands (st_game s)
        ∧ game_stack (st_game s') = []
        ∧ ∃ rest card,
            remaining_cards (st_game s) = rest ++ [card]
            ∧ remaining_cards (st_game s') = shuffle_at (st_rng s) (card :: rest)
    | Ok false s' =>
        hands (st_game s') = hands (st_game s)
        ∧ players_list (st_game s') = players_list (st_game s)
        ∧ players (st_game s') = players (st_game s)
        ∧ ∃ card,
            remaining_cards (st_game s) = remaining_cards (st_game s') ++ [card]
            ∧ game_stack (st_game s') = [card]
            ∧ is_draw_four card = false
            ∧ (pending_draw_count (st_game s) = 0
               → pending_on_current (st_game s'))
            ∧ (value card = "draw-two" →
               pending_draw_count (st_game s') = 2
               ∧ pending_draw_for_index (st_game s')
                 = Some (current_index (st_game s'))
               ∧ current_index (st_game s')
                 = (current_index (st_game s) + 1 * direction (st_game s))
                   mod Z.of_nat (length (players_list (st_game s))))
    end.
  Proof.
    intros Hst. unfold start_discard_step. mrun; try done.
    all: game_simpl; bsimp; subst.
    all: try match goal with
           | H1 : game_stack ?g = [], H2 : game_stack ?g = _ ++ [_] |- _ =>
               rewrite H1 in H2; by apply app_cons_not_nil in H2
           end.
    all: rewrite ?Hst.
    all: repeat split; try done.
    all: try (do 2 eexists; split; [eassumption|done]).
    all: exists c; split; [done|]; split; [done|]; split; [done|].
    all: split; intros; repeat split; first [lia | congruence].
  Qed.

  (** The outcome of the opening loop when it ends normally. *)
Lemma start_discard_spec fuel s s' :
    game_stack (st_game s) = [] →
    _start_discard_with_valid_card shuffle_at choice_at fuel s
    = Some (Ok tt s') →
    hands (st_game s') = hands (st_game s)
    ∧ players_list (st_game s') = players_list (st_game s)
    ∧ players (st_game s') = players (st_game s)
    ∧ remaining_cards (st_game s) ≠ []
    ∧ ∃ card,
        game_stack (st_game s') = [card]
        ∧ is_draw_four card = false
        ∧ (pending_draw_count (st_game s) = 0
           → pending_on_current (st_game s'))
        ∧ (value card = "draw-two" →
           pending_draw_count (st_game s') = 2
           ∧ pending_draw_for_index (st_game s')
             = Some (current_index (st_game s'))
           ∧ current_index (st_game s')
             = (current_index (st_game s) + 1 * direction (st_game s))
               mod Z.of_nat (length (players_list (st_game s)))).
  Proof.
    revert s. induction fuel as [|fuel IH]; intros s Hst Hrun; [done|].
    simpl in Hrun. pose proof (start_discard_step_spec s Hst) as Hstep.
    destruct (start_discard_step shuffle_at choice_at s) as [[] s1|]; [| |done].
    - destruct Hstep as (Hturn & Hh & Hst1 & rest & card & Hrem & _).
      destruct (IH s1 Hst1 Hrun) as (Hh' & Hpl & Hps & _ & card' & ? & ? & Hp & Hd).
      destruct Hturn as (Epl & Eps & Ecur & Edir & _ & Ecnt & _).
      split; [congruence|]. split; [congruence|]. split; [congruence|].
      split; [rewrite Hrem; by destruct rest|].
      exists card'. split; [done|]. split; [done|]. split.
      + intros Hzero. apply Hp. congruence.
      + intros Hv. destruct (Hd Hv) as (? & ? & Hc).
        by rewrite Epl, Ecur, Edir in Hc.
    - simplify_eq. destruct Hstep as (Hh & Hpl & Hps & card & Hrem & ? & ? & ? & ?).
      repeat split; try done.
      { rewrite Hrem. by destruct (remaining_cards (st_game s')). }
      by exists card.
  Qed.

Hypothesis shuffle_perm : ∀ t l, shuffle_at t l ≡ₚ l.

Lemma shuffled_perm n t cards : shuffled shuffle_at n t cards ≡ₚ cards.
  Proof.
    revert t cards. induction n as [|n IH]; intros t cards; [done|].
    simpl. by rewrite IH.
  Qed.

Lemma shuffled_deck_length t :
    length (shuffled shuffle_at SHUFFLE_FREQ t Deck_cards) = 108%nat.
  Proof. by rewrite shuffled_perm. Qed.

Lemma start_discard_count fuel s s' :
    game_stack (st_game s) = [] →
    _start_discard_with_valid_card shuffle_at choice_at fuel s
    = Some (Ok tt s') →
    cards_in_game (st_game s') = cards_in_game (st_game s).
  Proof.
    revert s. induction fuel as [|fuel IH]; intros s Hst Hrun; [done|].
    simpl in Hrun. pose proof (start_discard_step_spec s Hst) as Hstep.
    destruct (start_discard_step shuffle_at choice_at s) as [[] s1|]; [| |done].
    - destruct Hstep as (_ & Hh & Hst1 & rest & card & Hrem & Hrem1).
      rewrite (IH s1 Hst1 Hrun). unfold cards_in_game.
      rewrite Hh, Hst1, Hst, Hrem, Hrem1, shuffle_perm, length_app. simpl. lia.
    - simplify_eq. destruct Hstep as (Hh & _ & _ & card & Hrem & Hst1 & _).
      unfold cards_in_game.
      rewrite Hh, Hst1, Hst, Hrem, length_app. simpl. lia.
  Qed.
End Construction.
(** ** Sample oracles are shuffles *)

Lemma keep_order_perm t l : keep_order t l ≡ₚ l.
Proof. done. Qed.

Lemma to_back_perm c t l : to_back c t l ≡ₚ l.
Proof. destruct t; [apply filter_app_complement|done]. Qed.

(** ** Invariants of the reachable games *)

Section Reachable.
Variable shuffle_at : nat → list Card → list Card.
Variable choice_at : nat → nat.

Lemma Game_init_inv fuel players0 hand_size rng s :
    Game_init shuffle_at choice_at fuel players0 hand_size rng = Some (Ok tt s) →
    ∃ g0, Game_init_deal shuffle_at players0 hand_size rng
          = Some (Ok tt (mkSt g0 (SHUFFLE_FREQ + rng) [] []))
          ∧ _start_discard_with_valid_card shuffle_at choice_at fuel
              (mkSt g0 (SHUFFLE_FREQ + rng) [] []) = Some (Ok tt s)
          ∧ (2 ≤ size players0)%nat.
  Proof.
    unfold Game_init. intros Hrun.
    pose proof (Game_init_deal_spec shuffle_at players0 hand_size rng) as Hdeal.
    cbv zeta in Hdeal. case_bool_decide as Hsz.
    - rewrite Hdeal in Hrun. discriminate Hrun.
    - destruct Hdeal as (g0 & Heq & _). rewrite Heq in Hrun.
      exists g0. split; [exact Heq|]. split; [exact Hrun|]. lia.
  Qed.

Lemma Game_init_pending fuel players0 hand_size rng s :
    Game_init shuffle_at choice_at fuel players0 hand_size rng = Some (Ok tt s) →
    pending_on_current (st_game s).
  Proof.
    intros Hrun. destruct (Game_init_inv _ _ _ _ _ Hrun) as (g0 & Hdeal & Hloop & _).
    pose proof (Game_init_deal_spec shuffle_at players0 hand_size rng) as Hspec.
    cbv zeta in Hspec. case_bool_decide; [rewrite Hspec in Hdeal; discriminate Hdeal|].
    destruct Hspec as (g1 & Heq & Hturn & Hst & _).
    rewrite Heq in Hdeal. injection Hdeal as <-.
    destruct (start_discard_spec shuffle_at choice_at fuel
                (mkSt g1 (SHUFFLE_FREQ + rng) [] []) s Hst Hloop)
      as (_ & _ & _ & _ & card & _ & _ & Hp & _).
    apply Hp. cbn [st_game].
    destruct Hturn as (_ & _ & _ & _ & _ & Hc & _). rewrite Hc. reflexivity.
  Qed.

  (** C10. In every game reachable from a construction by calls of [draw]
      and [play], an outstanding obligation ([pending_draw_count > 0]) is
      owed by the seat whose turn it is: [pending_draw_for_index] is set
      and equals [current_index], so that the test [draw] makes to choose
      the draw-resolution branch holds. *)
Theorem pending_seat_is_current g rng :
    reachable shuffle_at choice_at g rng →
    0 < pending_draw_count g →
    pending_draw_for_index g = Some (current_index g)
    ∧ bool_decide (0 < pending_draw_count g)
      && bool_decide (pending_draw_for_index g = Some (current_index g))
      = true.
  Proof.
    intros Hreach Hpos.
    assert (pending_on_current g) as Hinv.
    { clear Hpos. induction Hreach as [fuel players0 h rng s Hrun|g rng a s Hreach IH Hs].
      - by eapply Game_init_pending.
      - subst s. destruct a; simpl.
        + by apply draw_pending_on_current.
        + by apply play_pending_on_current. }
    specialize (Hinv Hpos). split; [done|].
    by rewrite !bool_decide_eq_true_2.
  Qed.

Hypothesis shuffle_perm : ∀ t l, shuffle_at t l ≡ₚ l.

Lemma Game_init_cards_in_game fuel players0 hand_size rng s :
    Game_init shuffle_at choice_at fuel players0 hand_size rng = Some (Ok tt s) →
    cards_in_game (st_game s) = 108%nat.
  Proof.
    intros Hrun. destruct (Game_init_inv _ _ _ _ _ Hrun) as (g0 & Hdeal & Hloop & _).
    pose proof (Game_init_deal_spec shuffle_at players0 hand_size rng) as Hspec.
    cbv zeta in Hspec. case_bool_decide; [rewrite Hspec in Hdeal; discriminate Hdeal|].
    destruct Hspec as (g1 & Heq & Hturn & Hst & Hrem & Htot & _).
    rewrite Heq in Hdeal. injection Hdeal as <-.
    rewrite (start_discard_count shuffle_at choice_at shuffle_perm fuel
               (mkSt g1 (SHUFFLE_FREQ + rng) [] []) s Hst Hloop).
    unfold cards_in_game. cbn [st_game]. rewrite Hst, Hrem, Htot.
    unfold py_slice_from, py_slice_to. cbn [length].
    rewrite length_drop, length_take, (shuffled_deck_length shuffle_at shuffle_perm).
    lia.
  Qed.

  (** C2. Card conservation: in every game reachable from a successful
      construction by calls of [draw] and [play], the draw pile, the
      discard stack and the hands hold 108 cards together. *)
Theorem cards_conserved g rng :
    reachable shuffle_at choice_at g rng → cards_in_game g = 108%nat.
  Proof.
    induction 1 as [fuel players0 h rng s Hrun|g rng a s Hreach IH Hs].
    - by eapply Game_init_cards_in_game.
    - subst s. rewrite <- IH. destruct a; simpl.
      + by apply draw_cards_conserved.
      + by apply play_cards_conserved.
  Qed.
End Reachable.

Lemma plain_start_reachable :
  reachable keep_order first_choice (st_game plain_start) (st_rng plain_start).
Proof.
  apply (reachable_init keep_order first_choice 1 {[alice; bob]} 7 0).
  vm_compute. reflexivity.
Defined.

Lemma draw_two_start_reachable :
  reachable (to_back (red "draw-two")) first_choice
    (st_game draw_two_start) (st_rng draw_two_start).
Proof.
  apply (reachable_init (to_back (red "draw-two")) first_choice 1
           {[alice; bob]} 7 0).
  vm_compute. reflexivity.
Defined.

(** The game after [alice] has drawn a card from the plain start. *)
Lemma cards_conserved_witness :
  cards_in_game
    (st_game (outcome_state
                (draw keep_order "player-alice"
                   (enter (st_game plain_start) (st_rng plain_start)))))
  = 108%nat.
Proof.
  eapply (cards_conserved keep_order first_choice keep_order_perm).
  eapply (reachable_call keep_order first_choice _ _ (Draw "player-alice")).
  - exact plain_start_reachable.
  - reflexivity.
Defined.

Lemma pending_seat_is_current_witness :
  pending_draw_for_index (st_game draw_two_start)
  = Some (current_index (st_game draw_two_start))
  ∧ bool_decide (0 < pending_draw_count (st_game draw_two_start))
    && bool_decide (pending_draw_for_index (st_game draw_two_start)
                    = Some (current_index (st_game draw_two_start)))
    = true.
Proof.
  apply (pending_seat_is_current (to_back (red "draw-two")) first_choice _
           (st_rng draw_two_start) draw_two_start_reachable).
  vm_compute. reflexivity.
Defined.

(** ** Python indexing and turn arithmetic *)

Lemma py_index_mod {A} (l : list A) (i : Z) x :
  py_index l i = Some x → py_index l (i mod Z.of_nat (length l)) = Some x.
Proof.
  unfold py_index. intros H.
  assert (length l ≠ 0)%nat as Hn.
  { destruct l; [|done]. revert H. repeat case_bool_decide; by rewrite ?lookup_nil. }
  assert (0 ≤ i mod Z.of_nat (length l) < Z.of_nat (length l)) as Hb
    by (apply Z.mod_pos_bound; lia).
  rewrite (bool_decide_eq_true_2 _ (proj1 Hb)).
  case_bool_decide as Hi.
  - apply lookup_lt_Some in H as Hlt.
    rewrite Z.mod_small by lia. done.
  - case_bool_decide as Hi'; [|done].
    rewrite <- H. f_equal.
    rewrite <- (Z.mod_add i 1) by lia.
    rewrite Z.mod_small by lia. lia.
Qed.

Lemma py_index_Some_length {A} (l : list A) (i : Z) x :
  py_index l i = Some x → (0 < length l)%nat.
Proof.
  unfold py_index. destruct l; [|simpl; lia].
  repeat case_bool_decide; by rewrite ?lookup_nil.
Qed.

(** ** Successful plays *)

(** Reads the outcome of a path of [play] or [draw] against what is known
    of the call: a path that raises, rejects or ends the game is discarded
    when the call is known to have done otherwise. *)
Ltac path_facts :=
  unfold rejected in *;
  game_simpl; bsimp;
  repeat match goal with
    | H : st_notes _ = _ |- _ => rewrite H in *
    | H : st_calls _ = _ |- _ => rewrite H in *
    end;
  cbn [st_notes st_calls app existsb is_rejection orb] in *.

Ltac same_player :=
  repeat match goal with
    | H : find_by_id _ (Player_id ?p) = Some ?p0 |- _ =>
        let Hid := fresh "Hid" in
        apply find_by_id_Some in H as [_ Hid];
        apply Player_id_inj in Hid; subst p0
    end.

(** What is known of the game a call started from replaces what the
    frame lemmas say of the game it was in when it drew penalty cards. *)
Ltac frame_back :=
  repeat match goal with
    | H : players_list (st_game _) = _ |- _ => rewrite H in *; clear H
    | H : players (st_game _) = _ |- _ => rewrite H in *; clear H
    | H : current_index (st_game _) = _ |- _ => rewrite H in *; clear H
    | H : direction (st_game _) = _ |- _ => rewrite H in *; clear H
    | H : current_color (st_game _) = _ |- _ => rewrite H in *; clear H
    | H : pending_draw_count (st_game _) = _ |- _ => rewrite H in *; clear H
    | H : pending_draw_for_index (st_game _) = _ |- _ =>
        rewrite H in *; clear H
    end.

(** The card found in the hand is the card the statement names. *)
Ltac same_card :=
  repeat match goal with
    | H1 : find_by_id ?l ?i = Some ?c, H2 : find_by_id ?l ?i = Some ?c' |- _ =>
        assert (c' = c) by congruence; subst c'; clear H2
    end.

Section Plays.
Variable shuffle_at : nat → list Card → list Card.

  (** C7. When the current player plays a reverse card successfully and
      does not win: with exactly two players the turn advances by two steps,
      which is the same seat again, and [direction] is unchanged; with three
      or more players [direction] is negated and the turn advances by one
      step in the new direction. In both cases the new [current_index] is
      the floor modulo of the sum, in [[0, playerCount)]. *)
Theorem reverse_turn g rng p card cid cc uno s' :
    py_index (players_list g) (current_index g) = Some p →
    held_card g p cid = Some card →
    value card = "reverse" →
    play shuffle_at (Player_id p) cid cc uno (enter g rng) = Ok tt s' →
    rejected s' = false →
    st_calls s' = [] →
    let n := Z.of_nat (length (players_list g)) in
    (n = 2 →
     direction (st_game s') = direction g
     ∧ current_index (st_game s') = (current_index g + 2 * direction g) mod n
     ∧ py_index (players_list (st_game s')) (current_index (st_game s'))
       = Some p)
    ∧ (3 ≤ n →
       direction (st_game s') = - direction g
       ∧ current_index (st_game s')
         = (current_index g + 1 * direction (st_game s')) mod n)
    ∧ 0 ≤ current_index (st_game s') < n.
  Proof.
    intros Hseat Hcard Hval Hplay Hrej Hcalls n. subst n.
    unfold held_card in Hcard.
    revert Hplay. unfold play. prun.
    all: intros Hres; first [discriminate Hres | injection Hres as <-].
    all: path_facts; try discriminate.
    all: simplify_eq; same_player; same_card; frame_back.
    all: try congruence.
    all: assert (0 < Z.of_nat (length (players_list g))) as Hn by lia.
    all: repeat split; intros; try lia; try (apply Z.mod_pos_bound; lia).
    all: match goal with H : Z.of_nat _ = 2 |- _ =>
           rewrite H, (Z.mul_comm 2), Z.mod_add by lia; rewrite <- H
         end.
    all: by apply py_index_mod.
  Qed.

  (** *** An outstanding obligation *)

Lemma py_index_in_range {A} (l : list A) (i : Z) :
    0 ≤ i < Z.of_nat (length l) → is_Some (py_index l i).
  Proof.
    intros Hi. unfold py_index. rewrite bool_decide_eq_true_2 by lia.
    apply lookup_lt_is_Some. lia.
  Qed.

  (** While a seat owes cards, every call of [play] is rejected and
      leaves the game as it is. *)
Lemma play_while_obligated g rng q pid cid cc uno :
    obligated g →
    ¬ Z.of_nat (size (players g)) < MIN_PLAYERS_ALLOWED →
    py_index (players_list g) (current_index g) = Some q →
    ∃ s', play shuffle_at pid cid cc uno (enter g rng) = Ok tt s'
          ∧ rejected s' = true ∧ st_game s' = g.
  Proof.
    intros [Hpos Hfor] Hsize Hseat. unfold play. mred.
    rewrite (bool_decide_eq_false_2 _ Hsize). mred. rewrite Hseat. mred.
    rewrite (bool_decide_eq_true_2 _ Hpos), (bool_decide_eq_true_2 _ Hfor).
    destruct (negb (pid =? Player_id q)%string); eexists; by repeat split.
  Qed.

  (** One call made while the seat [q] owes cards: the obligation stays
      on that seat, and decreases by one at most, and only for a draw
      asked by [q]. *)
Lemma call_while_obligated a g rng q :
    obligated g →
    ¬ Z.of_nat (size (players g)) < MIN_PLAYERS_ALLOWED →
    py_index (players_list g) (current_index g) = Some q →
    let g' := st_game (outcome_state (perform shuffle_at a (enter g rng))) in
    players g' = players g ∧ players_list g' = players_list g
    ∧ pending_draw_count g - (if decide (a = Draw (Player_id q)) then 1 else 0)
      ≤ pending_draw_count g'
    ∧ (0 < pending_draw_count g' →
       pending_draw_for_index g' = Some (current_index g')
       ∧ current_index g' = current_index g).
  Proof.
    intros Hob Hsize Hseat. destruct a as [pid|pid cid cc uno]; simpl.
    - destruct Hob as [Hpos Hfor]. unfold draw. mrun.
      all: path_facts; simplify_eq.
      all: try (rewrite decide_True by (f_equal; by symmetry)).
      all: repeat split; intros; try done; try lia.
      all: try tauto.
      all: try (case_decide; lia).
    - destruct (play_while_obligated g rng q pid cid cc uno Hob Hsize Hseat)
        as (s' & -> & _ & Hg).
      cbn [outcome_state]. rewrite Hg. destruct Hob.
      repeat split; try done. lia.
  Qed.

Lemma draws_by_cons qid a acts :
    draws_by qid (a :: acts)
    = ((if decide (a = Draw qid) then 1 else 0) + draws_by qid acts)%nat.
  Proof. unfold draws_by. rewrite filter_cons. by case_decide. Qed.

  (** As long as the seat that owes cards has asked for fewer draws than it
      owes, the obligation stands, on the same seat. *)
Lemma run_while_obligated acts g rng q :
    obligated g →
    ¬ Z.of_nat (size (players g)) < MIN_PLAYERS_ALLOWED →
    py_index (players_list g) (current_index g) = Some q →
    Z.of_nat (draws_by (Player_id q) acts) < pending_draw_count g →
    let gr := run shuffle_at acts g rng in
    obligated gr.1
    ∧ ¬ Z.of_nat (size (players gr.1)) < MIN_PLAYERS_ALLOWED
    ∧ current_index gr.1 = current_index g
    ∧ players_list gr.1 = players_list g.
  Proof.
    revert g rng. induction acts as [|a acts IH]; intros g rng Hob Hsize Hseat Hfew.
    { by simpl. }
    cbn [run]. rewrite draws_by_cons in Hfew.
    destruct (call_while_obligated a g rng q Hob Hsize Hseat)
      as (Hp & Hpl & Hcnt & Hstill).
    set (s := outcome_state (perform shuffle_at a (enter g rng))) in *.
    assert (Z.of_nat (draws_by (Player_id q) acts) < pending_draw_count (st_game s))
      as Hfew' by (case_decide; lia).
    destruct Hstill as [Hfor Hcur]; [lia|].
    rewrite <- Hcur, <- Hpl. apply IH; try done.
    - split; [lia|done].
    - by rewrite Hp.
    - by rewrite Hpl, Hcur.
  Qed.

  (** What a successful play of a draw-two or draw-four that does not end
      the game leaves behind. *)
Lemma play_draw_card g rng p card cid cc uno s1 :
    py_index (players_list g) (current_index g) = Some p →
    held_card g p cid = Some card →
    value card = "draw-two" ∨ value card = "draw-four" →
    play shuffle_at (Player_id p) cid cc uno (enter g rng) = Ok tt s1 →
    rejected s1 = false →
    st_calls s1 = [] →
    pending_draw_count (st_game s1)
    = (if bool_decide (value card = "draw-two") then 2 else 4)
    ∧ pending_draw_for_index (st_game s1) = Some (current_index (st_game s1))
    ∧ current_index (st_game s1)
      = (current_index g + 1 * direction g)
        mod Z.of_nat (length (players_list g))
    ∧ players_list (st_game s1) = players_list g
    ∧ players (st_game s1) = players g
    ∧ ¬ Z.of_nat (size (players g)) < MIN_PLAYERS_ALLOWED.
  Proof.
    intros Hseat Hcard Hval Hplay Hrej Hcalls.
    unfold held_card in Hcard.
    revert Hplay. unfold play. prun.
    all: intros Hres; first [discriminate Hres | injection Hres as <-].
    all: path_facts; try discriminate.
    all: simplify_eq; same_player; same_card; frame_back.
    all: unfold is_draw_four in *; bsimp.
    all: try (destruct Hval; congruence).
    all: repeat split; try done.
    all: try (rewrite bool_decide_eq_true_2 by done; done).
    all: try (rewrite bool_decide_eq_false_2 by done; done).
  Qed.

  (** C3 (amended). When the current seat plays a draw-two or a draw-four
      successfully and the play does not end the game (the hand is not
      empty afterwards): [pending_draw_count] is 2 or 4 respectively,
      [pending_draw_for_index] is the seat one step ahead, which is the new
      current seat, and as long as that seat has asked for fewer draws than
      it owes, whatever other calls were made, every call of [play] is
      rejected and leaves the game as it is. *)
Theorem draw_card_obligation g rng p card cid cc uno s1 :
    py_index (players_list g) (current_index g) = Some p →
    held_card g p cid = Some card →
    value card = "draw-two" ∨ value card = "draw-four" →
    play shuffle_at (Player_id p) cid cc uno (enter g rng) = Ok tt s1 →
    rejected s1 = false →
    st_calls s1 = [] →
    pending_draw_count (st_game s1)
    = (if bool_decide (value card = "draw-two") then 2 else 4)
    ∧ pending_draw_for_index (st_game s1) = Some (current_index (st_game s1))
    ∧ current_index (st_game s1)
      = (current_index g + 1 * direction g)
        mod Z.of_nat (length (players_list g))
    ∧ ∃ q, py_index (players_list (st_game s1)) (current_index (st_game s1))
           = Some q
           ∧ ∀ acts pid' cid' cc' uno',
               Z.of_nat (draws_by (Player_id q) acts)
               < pending_draw_count (st_game s1) →
               let gr := run shuffle_at acts (st_game s1) (st_rng s1) in
               0 < pending_draw_count gr.1
               ∧ pending_draw_for_index gr.1
                 = Some (current_index (st_game s1))
               ∧ ∃ s', play shuffle_at pid' cid' cc' uno' (enter gr.1 gr.2)
                       = Ok tt s'
                       ∧ rejected s' = true ∧ st_game s' = gr.1.
  Proof.
    intros Hseat Hcard Hval Hplay Hrej Hcalls.
    destruct (play_draw_card g rng p card cid cc uno s1 Hseat Hcard Hval Hplay
                Hrej Hcalls) as (Hcnt & Hfor & Hcur & Hpl & Hps & Hsize).
    split; [done|]. split; [done|]. split; [done|].
    assert (0 < pending_draw_count (st_game s1)) as Hpos.
    { rewrite Hcnt. by case_bool_decide. }
    destruct (py_index_in_range (players_list (st_game s1))
                (current_index (st_game s1))) as [q Hq].
    { rewrite Hcur, Hpl. apply Z.mod_pos_bound.
      apply py_index_Some_length in Hseat. lia. }
    exists q. split; [done|].
    intros acts pid' cid' cc' uno' Hfew gr.
    destruct (run_while_obligated acts (st_game s1) (st_rng s1) q)
      as (Hob & Hsize' & Hcur' & Hpl'); try done.
    { by rewrite Hps. }
    fold gr in Hob, Hsize', Hcur', Hpl'.
    pose proof Hob as [Hpos' Hfor'].
    split; [done|]. split; [by rewrite Hfor', Hcur'|].
    eapply play_while_obligated; try done.
    by rewrite Hpl', Hcur'.
  Qed.
End Plays.

(** ** Scoring *)

Lemma card_points_deck c : c ∈ Deck_cards → card_points c = spec_card_value c.
Proof.
  revert c. apply Forall_forall.
  apply (bool_decide_unpack _). vm_compute. exact I.
Qed.

Lemma sum_Z_cons x l : sum_Z (x :: l) = x + sum_Z l.
Proof. reflexivity. Qed.

Lemma foldl_card_points total cs :
  foldl (λ t c, t + card_points c) total cs
  = total + sum_Z (card_points <$> cs).
Proof.
  revert total. unfold sum_Z.
  induction cs as [|c cs IH]; intros total; cbn [foldl fmap list_fmap foldr].
  - lia.
  - rewrite IH. lia.
Qed.

Lemma score_from_sum g ps winner total :
  score_from g ps winner total
  = total + sum_Z ((λ p, sum_Z (card_points <$> hand_of g p))
                     <$> filter (λ p, p ≠ winner) ps).
Proof.
  unfold score_from. revert total.
  induction ps as [|p ps IH]; intros total.
  { unfold sum_Z. cbn [foldl filter fmap list_fmap foldr]. rewrite filter_nil. cbn. lia. }
  cbn [foldl]. rewrite IH, filter_cons.
  case_bool_decide as Hid.
  - apply Player_id_inj in Hid. subst p. by rewrite decide_False by tauto.
  - rewrite decide_True by congruence.
    rewrite foldl_card_points, fmap_cons, sum_Z_cons. lia.
Qed.

(** On hands made of cards of the deck, [_calculate_score] returns the
    score of the specification. *)
Lemma score_from_spec_score g g' winner :
  (∀ q, q ≠ winner → hand_of g' q = hand_of g q) →
  (∀ q c, q ≠ winner → c ∈ hand_of g q → c ∈ Deck_cards) →
  players_list g' = players_list g →
  score_from g' (players_list g') winner 0 = spec_score g winner.
Proof.
  intros Hh Hdeck Hpl. rewrite score_from_sum, Hpl. unfold spec_score.
  rewrite Z.add_0_l. f_equal.
  apply Forall_fmap_ext_1, Forall_forall. intros q Hq.
  apply list_elem_of_filter in Hq as [Hne _].
  rewrite (Hh q Hne). f_equal.
  apply Forall_fmap_ext_1, Forall_forall. intros c Hc.
  apply card_points_deck. by eapply Hdeck.
Qed.

(** ** Winning *)

Section Winning.
Variable shuffle_at : nat → list Card → list Card.

  (** C4. When the current player successfully plays the last card of
      their hand, [on_game_over(WON, player)] is called exactly once, the
      turn pointer, the direction and the pending-draw state stay as they
      were (no action effect is processed), and the score reported is the
      sum over the hands of the other seats, made of cards of the deck, of
      the numeric value of the digit cards, 20 for each draw-two, reverse
      or skip and 50 for each black card. *)
Theorem last_card_wins g rng p card cid cc uno s' :
    py_index (players_list g) (current_index g) = Some p →
    hand_of g p = [card] →
    (∀ q c, q ≠ p → c ∈ hand_of g q → c ∈ Deck_cards) →
    play shuffle_at (Player_id p) cid cc uno (enter g rng) = Ok tt s' →
    rejected s' = false →
    st_calls s' = [(WON, p)]
    ∧ st_notes s' = [NSuccess (MsgWon (name p) (spec_score g p))]
    ∧ current_index (st_game s') = current_index g
    ∧ direction (st_game s') = direction g
    ∧ pending_draw_count (st_game s') = pending_draw_count g
    ∧ pending_draw_for_index (st_game s') = pending_draw_for_index g
    ∧ hand_of (st_game s') p = [].
  Proof.
    intros Hseat Hhand Hdeck Hplay Hrej.
    revert Hplay. unfold play. prun.
    all: intros Hres; first [discriminate Hres | injection Hres as <-].
    all: path_facts; try discriminate.
    all: simplify_eq; same_player.
    all: unfold hand_of in Hhand; rewrite ?Hhand in *.
    all: found_lengths; simpl length in *; try lia.
    assert (n = 0%nat) as -> by lia. cbn [delete list_delete] in *.
    split; [done|]. split.
    - do 3 f_equal.
      erewrite <- (score_from_spec_score g (set_hands (<[p:=[]]> (hands g)) g) p);
        [reflexivity| |done|done].
      intros q Hq. unfold hand_of. simpl. by rewrite lookup_insert_ne.
    - repeat split; try done.
      by rewrite H2, lookup_insert_eq.
  Qed.
End Winning.

(** ** Drawing *)

Section Drawing.
Variable shuffle_at : nat → list Card → list Card.
Hypothesis shuffle_perm : ∀ t l, shuffle_at t l ≡ₚ l.

Lemma voluntary_draw_outcome g rng p top rest c :
    ¬ Z.of_nat (size (players g)) < MIN_PLAYERS_ALLOWED →
    py_index (players_list g) (current_index g) = Some p →
    p ∈ players g →
    last (game_stack g) = Some top →
    ¬ obligated g →
    refilled_pile shuffle_at g rng = rest ++ [c] →
    match draw shuffle_at (Player_id p) (enter g rng) with
    | Ok _ s' =>
        st_notes s' = []
        ∧ remaining_cards (st_game s') = rest
        ∧ hands (st_game s') = <[p := hand_of g p ++ [c]]> (hands g)
        ∧ last (game_stack (st_game s')) = Some top
        ∧ length (game_stack (st_game s') ++ rest ++ [c])
          = length (game_stack g ++ remaining_cards g)
        ∧ current_index (st_game s')
          = if _can_play_card g c top then current_index g
            else (current_index g + 1 * direction g)
                 mod Z.of_nat (length (players_list g))
    | Exc _ _ => False
    end.
  Proof.
    intros Hsize Hseat Hin Htop Hfree Hpile.
    pose proof (find_by_id_player (elements (players g)) p) as Hfind.
    rewrite elem_of_elements in Hfind. specialize (Hfind Hin).
    pose proof (py_index_Some_length _ _ _ Hseat) as Hn.
    unfold refilled_pile in Hpile.
    unfold draw. mrun.
    all: unfold _can_play_card in *.
    all: path_facts; simplify_eq.
    all: try (rewrite String.eqb_refl in *; discriminate).
    all: try (rewrite bool_decide_eq_true_2 in Hpile by done).
    all: try (rewrite bool_decide_eq_false_2 in Hpile by done).
    all: repeat match goal with
           | H : game_stack _ = _ |- _ => rewrite H in *
           | H : remaining_cards _ = _ |- _ => rewrite H in *
           end.
    all: rewrite ?list_pop_snoc, ?last_snoc in *; simplify_eq.
    all: try tauto.
    all: cbn [last] in *; simplify_eq.
    all: try match goal with
           | H1 : ?x = ?a ++ [?b], H2 : ?x = ?a' ++ [?b'] |- _ =>
               rewrite H1 in H2; apply app_inj_tail in H2 as [-> ->]
           | H : ?a ++ [?b] = ?a' ++ [?b'] |- _ =>
               apply app_inj_tail in H as [-> ->]
           | H1 : ?x = [], H2 : ?x = _ ++ [_] |- _ =>
               rewrite H1 in H2; by apply app_cons_not_nil in H2
           | H : [] = _ ++ [_] |- _ => by apply app_cons_not_nil in H
           end.
    all: try match goal with
           | H : ?b = _ |- context [if ?b then _ else _] => rewrite H
           end.
    all: repeat split; try done.
    all: repeat match goal with
           | H : shuffle_at _ _ = _ |- _ =>
               apply (f_equal length) in H;
               rewrite (shuffle_length _ shuffle_perm) in H
           end.
    all: rewrite ?length_app, ?length_cons, ?length_app in *.
    all: cbn [length] in *; lia.
  Qed.

  (** The pile [draw] takes from is empty only when the draw pile is
      empty and the discard stack has no card under its top card. *)
Lemma refilled_pile_nonempty g rng :
    remaining_cards g ≠ [] ∨ (2 ≤ length (game_stack g))%nat →
    refilled_pile shuffle_at g rng ≠ [].
  Proof.
    unfold refilled_pile. intros Hcards. case_bool_decide as Hrem.
    - destruct Hcards as [?|Hlen]; [done|].
      destruct (list_pop (game_stack g)) as [[init top]|] eqn:Hpop.
      + apply list_pop_Some in Hpop. rewrite Hpop, length_app in Hlen.
        simpl in Hlen. intros Hnil. apply (f_equal length) in Hnil.
        rewrite (shuffle_length _ shuffle_perm) in Hnil. simpl in Hnil. lia.
      + apply list_pop_None in Hpop. rewrite Hpop in Hlen. simpl in Hlen. lia.
    - done.
  Qed.

  (** C8. When the seat whose turn it is owes no cards and the draw pile
      has a card, or the discard stack a card under its top card to refill
      it, a call of [draw] by that seat moves exactly the last card of the
      draw pile (refilled from the shuffled discard stack if it was empty)
      to the end of the seat's hand; the turn advances by one step when
      that card is not playable on the top card and the current colour, and
      stays where it is when it is playable. *)
Theorem voluntary_draw g rng p top :
    ¬ Z.of_nat (size (players g)) < MIN_PLAYERS_ALLOWED →
    py_index (players_list g) (current_index g) = Some p →
    p ∈ players g →
    last (game_stack g) = Some top →
    ¬ obligated g →
    remaining_cards g ≠ [] ∨ (2 ≤ length (game_stack g))%nat →
    ∃ rest c s',
      refilled_pile shuffle_at g rng = rest ++ [c]
      ∧ draw shuffle_at (Player_id p) (enter g rng) = Ok tt s'
      ∧ st_notes s' = []
      ∧ remaining_cards (st_game s') = rest
      ∧ hands (st_game s') = <[p := hand_of g p ++ [c]]> (hands g)
      ∧ last (game_stack (st_game s')) = Some top
      ∧ length (game_stack (st_game s') ++ rest ++ [c])
        = length (game_stack g ++ remaining_cards g)
      ∧ current_index (st_game s')
        = if _can_play_card g c top then current_index g
          else (current_index g + 1 * direction g)
               mod Z.of_nat (length (players_list g)).
  Proof.
    intros Hsize Hseat Hin Htop Hfree Hcards.
    pose proof (refilled_pile_nonempty g rng Hcards) as Hpile.
    destruct (list_pop (refilled_pile shuffle_at g rng)) as [[rest c]|] eqn:Hpop;
      [|by apply list_pop_None in Hpop].
    apply list_pop_Some in Hpop. exists rest, c.
    pose proof (voluntary_draw_outcome g rng p top rest c Hsize Hseat Hin Htop
                  Hfree Hpop) as Hout.
    destruct (draw shuffle_at (Player_id p) (enter g rng)) as [[] s'|]; [|done].
    by exists s'.
  Qed.
End Drawing.

(** ** Rejected calls *)

Lemma default_lookup_touch (h : gmap Player (list Card)) p q :
  default [] (<[p := default [] (h !! p)]> h !! q) = default [] (h !! q).
Proof.
  destruct (decide (p = q)) as [->|Hne].
  - by rewrite lookup_insert_eq.
  - by rewrite lookup_insert_ne.
Qed.

Section Rejections.
Variable shuffle_at : nat → list Card → list Card.

  (** C1 (the defect). A black card played without a valid [chosen_color]
      is rejected after it has left the hand for the discard stack: on the
      game [holding_wild], [play(alice, wild-black)] with no colour notifies
      the error, and the hand of [alice] and the discard stack are no
      longer what they were. *)
Theorem rejected_wild_play_mutates :
    let g := holding_wild in
    let s' := outcome_state
                (play shuffle_at "player-alice" "wild-black" None false
                   (enter g 0)) in
    play shuffle_at "player-alice" "wild-black" None false (enter g 0)
    = Ok tt s'
    ∧ st_notes s' = [NError MsgChooseColor]
    ∧ rejected s' = true
    ∧ hand_of g alice = [black "wild"; red "5"]
    ∧ hand_of (st_game s') alice = [red "5"]
    ∧ game_stack g = [red "3"]
    ∧ game_stack (st_game s') = [red "3"; black "wild"]
    ∧ ¬ same_observables g (st_game s').
  Proof.
    cbv zeta.
    assert (play shuffle_at "player-alice" "wild-black" None false
              (enter holding_wild 0)
            = Ok tt (mkSt (set_game_stack [red "3"; black "wild"]
                             (set_hands (<[alice := [red "5"]]> (hands holding_wild))
                                holding_wild))
                       0 [NError MsgChooseColor] [])) as ->.
    { vm_compute. reflexivity. }
    cbn [outcome_state st_notes st_game].
    repeat split; try (vm_compute; reflexivity).
    intros (_ & Hst & _). vm_compute in Hst. discriminate Hst.
  Qed.

  (** In general, the call that ends with that error has put the card on
      the discard stack. *)
Lemma color_rejection_mutates g rng pid cid cc uno s' :
    play shuffle_at pid cid cc uno (enter g rng) = Ok tt s' →
    NError MsgChooseColor ∈ st_notes s' →
    ∃ card, game_stack (st_game s') = game_stack g ++ [card]
            ∧ is_black card = true.
  Proof.
    intros Hplay Hnote. revert Hplay. unfold play. prun.
    all: intros Hres; first [discriminate Hres | injection Hres as <-].
    all: path_facts.
    all: repeat match goal with
           | H : _ ∈ [] |- _ => by apply not_elem_of_nil in H
           | H : _ ∈ _ :: _ |- _ => apply elem_of_cons in H as [?|?]
           end; simplify_eq.
    all: by eexists.
  Qed.

Hypothesis shuffle_perm : ∀ t l, shuffle_at t l ≡ₚ l.

  (** Every other rejection leaves the game as it was, up to the empty
      hand the [defaultdict] creates when it is read. *)
Lemma other_rejections_atomic a g rng s' :
    perform shuffle_at a (enter g rng) = Ok tt s' →
    rejected s' = true →
    NError MsgChooseColor ∉ st_notes s' →
    game_stack (st_game s') = game_stack g
    ∧ remaining_cards (st_game s') = remaining_cards g
    ∧ current_index (st_game s') = current_index g
    ∧ direction (st_game s') = direction g
    ∧ current_color (st_game s') = current_color g
    ∧ pending_draw_count (st_game s') = pending_draw_count g
    ∧ pending_draw_for_index (st_game s') = pending_draw_for_index g
    ∧ ∀ q, hand_of (st_game s') q = hand_of g q.
  Proof.
    intros Hrun Hrej Hnot. revert Hrun. destruct a as [pid|pid cid cc uno]; simpl.
    - unfold draw. mrun.
      all: intros Hres; first [discriminate Hres | injection Hres as <-].
      all: path_facts; try discriminate.
      all: try match goal with
             | H : shuffle_at ?t ?l = [] |- _ =>
                 assert (l = []) as ->
                   by (apply Permutation_nil; rewrite <- H; apply shuffle_perm)
             end.
      all: repeat match goal with
             | H : game_stack _ = _ |- _ => rewrite H in *
             | H : remaining_cards _ = _ |- _ => rewrite H in *
             end.
      all: repeat split; try done.
      all: intros; apply default_lookup_touch.
    - unfold play. prun.
      all: intros Hres; first [discriminate Hres | injection Hres as <-].
      all: path_facts; try discriminate.
      all: try (by destruct Hnot; left).
      all: repeat split; try done.
      all: intros; apply default_lookup_touch.
  Qed.
End Rejections.

(** ** The game a construction leaves *)

Section Start.
Variable shuffle_at : nat → list Card → list Card.
Variable choice_at : nat → nat.

  (** C6 (amended). When the opening discard is a draw-two, the
      construction leaves an obligation of 2 on seat 1, the seat one step
      after the first seat in sorted order, and the turn pointer on that
      same seat; the hands are those that were dealt, no card has been
      drawn. *)
Theorem opening_draw_two fuel players0 hand_size rng s top :
    Game_init shuffle_at choice_at fuel players0 hand_size rng
    = Some (Ok tt s) →
    last (game_stack (st_game s)) = Some top →
    value top = "draw-two" →
    pending_draw_count (st_game s) = 2
    ∧ pending_draw_for_index (st_game s) = Some 1
    ∧ current_index (st_game s) = 1
    ∧ players_list (st_game s) = sorted_by_id (elements players0)
    ∧ ∃ g0, Game_init_deal shuffle_at players0 hand_size rng
            = Some (Ok tt (mkSt g0 (SHUFFLE_FREQ + rng) [] []))
            ∧ hands (st_game s) = hands g0.
  Proof.
    intros Hrun Htop Hval.
    destruct (Game_init_inv _ _ _ _ _ _ _ Hrun) as (g0 & Hdeal & Hloop & Hsz).
    pose proof (Game_init_deal_spec shuffle_at players0 hand_size rng) as Hspec.
    cbv zeta in Hspec.
    case_bool_decide; [rewrite Hspec in Hdeal; discriminate Hdeal|].
    destruct Hspec as (g1 & Heq & Hturn & Hst & _).
    rewrite Heq in Hdeal. injection Hdeal as <-.
    destruct (start_discard_spec shuffle_at choice_at fuel
                (mkSt g1 (SHUFFLE_FREQ + rng) [] []) s Hst Hloop)
      as (Hh & Hpl & _ & _ & card & Hstack & _ & _ & Hd).
    rewrite Hstack in Htop. cbn [last] in Htop. injection Htop as ->.
    destruct (Hd Hval) as (Hcnt & Hfor & Hcur).
    destruct Hturn as (Epl & _ & Ecur & Edir & _).
    cbn [st_game] in *. rewrite Epl, Ecur, Edir in Hcur.
    unfold Game_new in Hcur. cbn [players_list current_index direction] in Hcur.
    rewrite seats_length in Hcur.
    assert (current_index (st_game s) = 1) as Hone.
    { rewrite Hcur. apply Z.mod_small. lia. }
    rewrite Hfor, Hone, Hpl, Epl.
    split; [exact Hcnt|]. split; [reflexivity|]. split; [reflexivity|].
    split; [reflexivity|]. exists g1. split; [exact Heq|exact Hh].
  Qed.

Hypothesis shuffle_perm : ∀ t l, shuffle_at t l ≡ₚ l.

  (** C9. After a successful construction with [n] players and a hand
      size [h], a number of cards and so not negative, every player holds
      exactly [h] cards, the hands hold [n × h] cards together, and the
      discard stack is one card that is not a draw-four. *)
Theorem hands_dealt fuel players0 hand_size rng s :
    Game_init shuffle_at choice_at fuel players0 hand_size rng
    = Some (Ok tt s) →
    0 ≤ hand_size →
    (∀ p, p ∈ players0 →
          Z.of_nat (length (hand_of (st_game s) p)) = hand_size)
    ∧ Z.of_nat (hands_total (hands (st_game s)))
      = Z.of_nat (size players0) * hand_size
    ∧ ∃ c, game_stack (st_game s) = [c] ∧ is_draw_four c = false.
  Proof.
    intros Hrun Hh.
    destruct (Game_init_inv _ _ _ _ _ _ _ Hrun) as (g0 & Hdeal & Hloop & Hsz).
    pose proof (Game_init_deal_spec shuffle_at players0 hand_size rng) as Hspec.
    cbv zeta in Hspec.
    case_bool_decide; [rewrite Hspec in Hdeal; discriminate Hdeal|].
    destruct Hspec as (g1 & Heq & Hturn & Hst & Hrem & Htot & Hper).
    rewrite Heq in Hdeal. injection Hdeal as <-.
    destruct (start_discard_spec shuffle_at choice_at fuel
                (mkSt g1 (SHUFFLE_FREQ + rng) [] []) s Hst Hloop)
      as (Hhands & _ & _ & Hne & card & Hstack & Hd4 & _).
    cbn [st_game] in *.
    set (cards := shuffled shuffle_at SHUFFLE_FREQ rng Deck_cards) in *.
    set (k := Z.of_nat (size players0) * hand_size) in *.
    assert (length cards = 108%nat) as Hlen
      by apply (shuffled_deck_length shuffle_at shuffle_perm).
    assert (0 ≤ k) as Hk by (subst k; lia).
    assert (Z.to_nat k < 108)%nat as Hlt.
    { rewrite Hrem in Hne. unfold py_slice_from, py_slice_bound in Hne.
      rewrite bool_decide_eq_true_2 in Hne by done.
      destruct (decide (Z.to_nat k < 108)%nat) as [Hlt|Hge]; [exact Hlt|].
      rewrite drop_ge in Hne by lia. by destruct Hne. }
    assert (length (py_slice_to cards k)
            = (size players0 * Z.to_nat hand_size)%nat) as Hdealt.
    { unfold py_slice_to, py_slice_bound.
      rewrite bool_decide_eq_true_2 by done.
      rewrite length_take, Hlen. subst k. lia. }
    split; [|split].
    - intros p Hp. unfold hand_of. rewrite Hhands.
      pose proof (Hper _ Hdealt p) as Hp'. unfold hand_of in Hp'.
      rewrite Hp', decide_True by exact Hp. lia.
    - rewrite Hhands, Htot, Hdealt. lia.
    - exists card. split; [exact Hstack|exact Hd4].
  Qed.
End Start.

(** ** The theorems on sample games *)

Ltac conjuncts := repeat match goal with |- _ ∧ _ => split end.

Lemma draw_card_obligation_witness :
  pending_draw_count
    (st_game (outcome_state
                (play keep_order "player-alice" "draw-two-red" None false
                   (enter holding_draw_two 0))))
  = (if bool_decide (value (red "draw-two") = "draw-two") then 2 else 4).
Proof.
  eapply proj1.
  apply (draw_card_obligation keep_order holding_draw_two 0 alice
           (red "draw-two") "draw-two-red" None false).
  - vm_compute. reflexivity.
  - vm_compute. reflexivity.
  - left. reflexivity.
  - vm_compute. reflexivity.
  - vm_compute. reflexivity.
  - vm_compute. reflexivity.
Defined.

(** C3 as stated fails when the draw-two is the last card of the hand:
    the play is successful, it ends the game, and no obligation is set. *)
Lemma draw_two_as_last_card :
  let s' := outcome_state
              (play keep_order "player-alice" "draw-two-red" None true
                 (enter last_draw_two 0)) in
  play keep_order "player-alice" "draw-two-red" None true (enter last_draw_two 0)
  = Ok tt s'
  ∧ py_index (players_list last_draw_two) (current_index last_draw_two)
    = Some alice
  ∧ held_card last_draw_two alice "draw-two-red" = Some (red "draw-two")
  ∧ rejected s' = false
  ∧ st_calls s' = [(WON, alice)]
  ∧ pending_draw_count (st_game s') = 0
  ∧ pending_draw_for_index (st_game s') = None.
Proof. cbv zeta. conjuncts; vm_compute; reflexivity. Qed.

Lemma last_wild_hands_of_deck q c :
  q ≠ alice → c ∈ hand_of last_wild q → c ∈ Deck_cards.
Proof.
  intros Hq. unfold hand_of, last_wild, table. cbn [hands].
  rewrite lookup_insert_ne by done.
  destruct (decide (q = bob)) as [->|Hb].
  - rewrite lookup_insert_eq. cbn [default from_option id]. revert c.
    apply Forall_forall. apply (bool_decide_unpack _). vm_compute. exact I.
  - rewrite lookup_insert_ne, lookup_empty by done. cbn. intros Hc.
    by apply not_elem_of_nil in Hc.
Qed.

Lemma last_card_wins_witness :
  st_calls (outcome_state
              (play keep_order "player-alice" "wild-black" (Some "blue") false
                 (enter last_wild 0)))
  = [(WON, alice)]
  ∧ st_notes (outcome_state
                (play keep_order "player-alice" "wild-black" (Some "blue") false
                   (enter last_wild 0)))
    = [NSuccess (MsgWon (name alice) (spec_score last_wild alice))]
  ∧ spec_score last_wild alice = 77.
Proof.
  destruct (last_card_wins keep_order last_wild 0 alice (black "wild")
              "wild-black" (Some "blue") false
              (outcome_state
                 (play keep_order "player-alice" "wild-black" (Some "blue") false
                    (enter last_wild 0))))
    as (Hcalls & Hnotes & _).
  - vm_compute. reflexivity.
  - vm_compute. reflexivity.
  - exact last_wild_hands_of_deck.
  - vm_compute. reflexivity.
  - vm_compute. reflexivity.
  - split; [exact Hcalls|]. split; [exact Hnotes|]. vm_compute. reflexivity.
Defined.

Lemma opening_draw_two_witness :
  pending_draw_count (st_game draw_two_start) = 2
  ∧ pending_draw_for_index (st_game draw_two_start) = Some 1
  ∧ current_index (st_game draw_two_start) = 1.
Proof.
  destruct (opening_draw_two (to_back (red "draw-two")) first_choice 1
              {[alice; bob]} 7 0 draw_two_start (red "draw-two"))
    as (Hcnt & Hfor & Hcur & _).
  - vm_compute. reflexivity.
  - vm_compute. reflexivity.
  - reflexivity.
  - split; [exact Hcnt|]. split; [exact Hfor|exact Hcur].
Defined.

(** C6 as stated fails: with the draw-two opening the obligation and the
    turn are on seat 1 ([bob]), not on the first seat in sorted order
    ([alice], seat 0). *)
Lemma opening_draw_two_not_first_seat :
  Game_init (to_back (red "draw-two")) first_choice 1 {[alice; bob]} 7 0
  = Some (Ok tt draw_two_start)
  ∧ game_stack (st_game draw_two_start) = [red "draw-two"]
  ∧ players_list (st_game draw_two_start) = [alice; bob]
  ∧ pending_draw_count (st_game draw_two_start) = 2
  ∧ pending_draw_for_index (st_game draw_two_start) = Some 1
  ∧ pending_draw_for_index (st_game draw_two_start) ≠ Some 0
  ∧ current_index (st_game draw_two_start) ≠ 0.
Proof.
  conjuncts; try (vm_compute; reflexivity).
  - vm_compute. discriminate.
  - vm_compute. discriminate.
Qed.

Lemma reverse_turn_witness :
  0 ≤ current_index
        (st_game (outcome_state
                    (play keep_order "player-alice" "reverse-red" None false
                       (enter holding_reverse 0)))) < 3.
Proof.
  eapply proj2, proj2.
  apply (reverse_turn keep_order holding_reverse 0 alice (red "reverse")
           "reverse-red" None false).
  - vm_compute. reflexivity.
  - vm_compute. reflexivity.
  - reflexivity.
  - vm_compute. reflexivity.
  - vm_compute. reflexivity.
  - vm_compute. reflexivity.
Defined.

Lemma voluntary_draw_witness :
  ∃ rest c s',
    refilled_pile keep_order holding_wild 0 = rest ++ [c]
    ∧ draw keep_order "player-alice" (enter holding_wild 0) = Ok tt s'
    ∧ remaining_cards (st_game s') = rest.
Proof.
  destruct (voluntary_draw keep_order keep_order_perm holding_wild 0 alice
              (red "3"))
    as (rest & c & s' & Hpile & Hdraw & _ & Hrem & _).
  - vm_compute. intros H. discriminate H.
  - vm_compute. reflexivity.
  - vm_compute. set_solver.
  - reflexivity.
  - intros [H _]. vm_compute in H. discriminate H.
  - left. vm_compute. discriminate.
  - exists rest, c, s'. split; [exact Hpile|]. split; [exact Hdraw|exact Hrem].
Defined.

Lemma hands_dealt_witness :
  (∀ p, p ∈ ({[alice; bob]} : gset Player) →
        Z.of_nat (length (hand_of (st_game plain_start) p)) = 7)
  ∧ ∃ c, game_stack (st_game plain_start) = [c] ∧ is_draw_four c = false.
Proof.
  destruct (hands_dealt keep_order first_choice keep_order_perm 1
              {[alice; bob]} 7 0 plain_start)
    as (Hhands & _ & Hstack).
  - vm_compute. reflexivity.
  - lia.
  - split; [exact Hhands|exact Hstack].
Defined.

(** A negative number is not a hand size. Given one, the slices of
    [Game.__init__] count from the end of the deck: [Game(room, {alice,
    bob}, -1)] is constructed, and each hand holds 53 cards. *)
Lemma negative_hand_size_deals_53 :
  Game_init keep_order first_choice 1 {[alice; bob]} (-1) 0
  = Some (Ok tt negative_start)
  ∧ length (hand_of (st_game negative_start) alice) = 53%nat
  ∧ length (hand_of (st_game negative_start) bob) = 53%nat
  ∧ Z.of_nat (length (hand_of (st_game negative_start) alice)) ≠ -1.
Proof.
  conjuncts; try (vm_compute; reflexivity).
  vm_compute. discriminate.
Qed.

(** ** Looking objects up by their identifier *)

(** X1. [find_object] returns the first object of the list whose [id] is
    the one asked for, at the index [find_object_idx] gives, and leaves the
    state alone; it raises [ValueError] exactly when no object of the list
    has that [id], and never [IndexError]. *)
Theorem find_object_first_match `{HasId A} (objects : list A)
  (obj_id : string) (s : St) :
  match find_object objects obj_id s with
  | Ok o s' =>
      s' = s
      ∧ ∃ i, find_object_idx objects obj_id s = Ok i s
             ∧ objects !! i = Some o ∧ get_id o = obj_id
             ∧ ∀ j o', objects !! j = Some o' → (j < i)%nat
                       → get_id o' ≠ obj_id
  | Exc e s' =>
      s' = s ∧ e = ValueError
      ∧ find_object_idx objects obj_id s = Exc ValueError s
      ∧ ∀ o, o ∈ objects → get_id o ≠ obj_id
  end.
Proof.
  unfold find_object, bind. rewrite find_object_idx_eq.
  destruct (list_find _ objects) as [[i o]|] eqn:E.
  - apply list_find_Some in E as (Hi & Hid & Hfirst).
    unfold lift_opt. rewrite Hi. unfold ret.
    split; [reflexivity|]. exists i.
    split; [reflexivity|]. split; [exact Hi|]. split; [exact Hid|].
    intros j o' Hj Hlt. by eapply Hfirst.
  - apply list_find_None in E. rewrite Forall_forall in E.
    split; [reflexivity|]. split; [reflexivity|]. split; [reflexivity|].
    exact E.
Qed.

(** ** Turn arithmetic *)

(** X2. [_next_index] raises [ZeroDivisionError] when no player is
    seated; otherwise it leaves the state alone and its result is the index
    of a seat, whatever the sign of [direction] and of [steps]. *)
Theorem next_index_names_a_seat (steps : Z) (s : St) :
  match players_list (st_game s) with
  | [] => _next_index steps s = Exc ZeroDivisionError s
  | _ :: _ =>
      ∃ i p, _next_index steps s = Ok i s
             ∧ 0 ≤ i < Z.of_nat (length (players_list (st_game s)))
             ∧ py_index (players_list (st_game s)) i = Some p
  end.
Proof.
  unfold _next_index. mred.
  destruct (players_list (st_game s)) as [|q l] eqn:Hl; [done|].
  rewrite bool_decide_eq_false_2 by (simpl; lia).
  set (n := Z.of_nat (length (q :: l))).
  assert (0 < n) as Hn by (subst n; simpl; lia).
  pose proof (Z.mod_pos_bound
                (current_index (st_game s) + steps * direction (st_game s))
                n Hn) as Hb.
  destruct (py_index_in_range (q :: l) _ Hb) as [p Hp].
  exists ((current_index (st_game s) + steps * direction (st_game s)) mod n), p.
  by repeat split; try lia.
Qed.

(** X3. Advancing the turn by [a] steps and then by [b] steps is
    advancing it by [a + b] steps. *)
Theorem advance_turn_compose (a b : Z) (s : St) :
  players_list (st_game s) ≠ [] →
  (_advance_turn a ;;; _advance_turn b) s = _advance_turn (a + b) s.
Proof.
  intros Hl. mred.
  assert (Z.of_nat (length (players_list (st_game s))) ≠ 0) as Hn.
  { destruct (players_list (st_game s)); [done|simpl; lia]. }
  rewrite !(bool_decide_eq_false_2 _ Hn). mred.
  rewrite ?(bool_decide_eq_false_2 _ Hn). mred.
  rewrite Zplus_mod_idemp_l.
  replace (current_index (st_game s) + a * direction (st_game s)
           + b * direction (st_game s))
    with (current_index (st_game s) + (a + b) * direction (st_game s)) by lia.
  reflexivity.
Qed.

(** ** The piles *)

Section PilesExact.
Variable shuffle_at : nat → list Card → list Card.
Hypothesis shuffle_perm : ∀ t l, shuffle_at t l ≡ₚ l.

(** X4. [transfer_played_cards] raises [IndexError] on an empty discard
    stack. Otherwise it leaves the top card alone on the stack, makes the
    cards that were under it the draw pile, by one call of
    [random.shuffle], and forgets the draw pile there was: the game holds
    as many cards fewer as that pile had. *)
Theorem transfer_played_cards_count (s : St) :
  match transfer_played_cards shuffle_at s with
  | Ok _ s' =>
      ∃ init top,
        game_stack (st_game s) = init ++ [top]
        ∧ game_stack (st_game s') = [top]
        ∧ remaining_cards (st_game s') ≡ₚ init
        ∧ st_rng s' = S (st_rng s)
        ∧ hands (st_game s') = hands (st_game s)
        ∧ (cards_in_game (st_game s') + length (remaining_cards (st_game s))
           = cards_in_game (st_game s))%nat
  | Exc e s' => e = IndexError ∧ s' = s ∧ game_stack (st_game s) = []
  end.
Proof.
  unfold transfer_played_cards. mred.
  destruct (list_pop (game_stack (st_game s))) as [[init top]|] eqn:Hpop.
  - apply list_pop_Some in Hpop. mred. rewrite Hpop, last_snoc. mred.
    exists init, top. repeat split; try done.
    unfold cards_in_game. cbn.
    rewrite Hpop, (shuffle_length _ shuffle_perm), length_app. simpl. lia.
  - apply list_pop_None in Hpop. mred. by repeat split.
Qed.

(** What [_draw_n] does on a game with a top card, with what is left to
    draw afterwards. *)
Lemma draw_n_outcome (p : Player) (n : nat) (s : St) :
  game_stack (st_game s) ≠ [] →
  ∃ s', _draw_n shuffle_at p n s = Ok tt s'
        ∧ length (hand_of (st_game s') p)
          = (length (hand_of (st_game s) p) + n `min` drawable (st_game s))%nat
        ∧ drawable (st_game s') = (drawable (st_game s) - n)%nat
        ∧ game_stack (st_game s') ≠ []
        ∧ ∀ q, q ≠ p → hand_of (st_game s') q = hand_of (st_game s) q.
Proof.
  revert s. induction n as [|n IH]; intros s Hst.
  { exists s. split; [reflexivity|]. repeat split; try done; lia. }
  rewrite draw_n_S. mred. rewrite refill_if_empty_eq.
  case_bool_decide as Hrem.
  - destruct (list_pop (game_stack (st_game s))) as [[init top]|] eqn:Hpop;
      [|by apply list_pop_None in Hpop].
    apply list_pop_Some in Hpop. mred.
    destruct (list_pop (shuffle_at (st_rng s) init)) as [[rest c]|] eqn:Hp2.
    + apply list_pop_Some in Hp2. mred.
      rewrite hands_get_eq. mred. rewrite hands_update_eq. mred.
      match goal with
      | |- context [_draw_n _ _ _ ?s1] =>
          destruct (IH s1) as (s' & Heq & Hlen & Hdr & Hne & Hoth); [done|]
      end.
      exists s'. split; [exact Heq|]. clear Heq IH.
      apply (f_equal length) in Hp2.
      rewrite (shuffle_length _ shuffle_perm), length_app in Hp2.
      unfold drawable in *. game_simpl.
      rewrite Hrem, Hpop, ?length_app in *. cbn [length] in *.
      split; [lia|]. split; [lia|]. split; [done|].
      intros q Hq. rewrite (Hoth q Hq). by rewrite !lookup_insert_ne.
    + apply list_pop_None in Hp2. mred.
      apply (f_equal length) in Hp2.
      rewrite (shuffle_length _ shuffle_perm) in Hp2.
      eexists. split; [reflexivity|]. clear IH.
      unfold drawable in *. game_simpl.
      rewrite (shuffle_length _ shuffle_perm), Hrem, Hpop, length_app.
      cbn [length] in *.
      split; [lia|]. split; [lia|]. done.
  - mred.
    destruct (list_pop (remaining_cards (st_game s))) as [[rest c]|] eqn:Hp2;
      [|by apply list_pop_None in Hp2].
    apply list_pop_Some in Hp2. mred.
    rewrite hands_get_eq. mred. rewrite hands_update_eq. mred.
    match goal with
    | |- context [_draw_n _ _ _ ?s1] =>
        destruct (IH s1) as (s' & Heq & Hlen & Hdr & Hne & Hoth); [done|]
    end.
    exists s'. split; [exact Heq|]. clear Heq IH.
    unfold drawable in *. game_simpl.
    rewrite Hp2, ?length_app in *. cbn [length] in *.
    split; [lia|]. split; [lia|]. split; [done|].
    intros q Hq. rewrite (Hoth q Hq). by rewrite !lookup_insert_ne.
Qed.

(** Which cards [_draw_n] hands out, and where they come from. *)
Lemma draw_n_cards (p : Player) (n : nat) (s : St) :
  game_stack (st_game s) ≠ [] →
  ∃ s' drawn,
    _draw_n shuffle_at p n s = Ok tt s'
    ∧ hand_of (st_game s') p = hand_of (st_game s) p ++ drawn
    ∧ remaining_cards (st_game s') ++ game_stack (st_game s') ++ drawn
      ≡ₚ remaining_cards (st_game s) ++ game_stack (st_game s)
    ∧ last (game_stack (st_game s')) = last (game_stack (st_game s))
    ∧ ((n ≤ length (remaining_cards (st_game s)))%nat →
       remaining_cards (st_game s)
       = remaining_cards (st_game s') ++ reverse drawn
       ∧ game_stack (st_game s') = game_stack (st_game s)
       ∧ st_rng s' = st_rng s).
Proof.
  revert s. induction n as [|n IH]; intros s Hst.
  { exists s, []. split; [reflexivity|]. rewrite !app_nil_r.
    split; [reflexivity|]. split; [reflexivity|]. split; [reflexivity|].
    intros _. done. }
  rewrite draw_n_S. mred. rewrite refill_if_empty_eq.
  case_bool_decide as Hrem.
  - destruct (list_pop (game_stack (st_game s))) as [[init top]|] eqn:Hpop;
      [|by apply list_pop_None in Hpop].
    apply list_pop_Some in Hpop. mred.
    destruct (list_pop (shuffle_at (st_rng s) init)) as [[rest c]|] eqn:Hp2.
    + apply list_pop_Some in Hp2. mred.
      rewrite hands_get_eq. mred. rewrite hands_update_eq. mred.
      match goal with
      | |- context [_draw_n _ _ _ ?s1] =>
          destruct (IH s1) as (s' & drawn & Heq & Hhand & Hperm & Hlast & _);
            [done|]
      end.
      exists s', (c :: drawn). split; [exact Heq|]. clear Heq IH.
      revert Hhand Hperm Hlast. unfold hand_of. game_simpl.
      rewrite ?lookup_insert_eq. cbn [default from_option id].
      intros Hhand Hperm Hlast.
      split; [by rewrite Hhand, <- app_assoc|].
      split.
      { rewrite Hrem, Hpop. cbn [app].
        rewrite <- (shuffle_perm (st_rng s) init), Hp2.
        trans (c :: (rest ++ [top])); [|solve_Permutation].
        rewrite <- Hperm. solve_Permutation. }
      split; [by rewrite Hlast, Hpop, last_snoc|].
      rewrite Hrem. cbn [length]. lia.
    + apply list_pop_None in Hp2. mred.
      exists (mkSt (set_game_stack [top]
                      (set_remaining_cards (shuffle_at (st_rng s) init)
                         (st_game s)))
                (S (st_rng s)) (st_notes s) (st_calls s)), [].
      split; [reflexivity|]. clear IH.
      unfold hand_of. game_simpl. rewrite !app_nil_r.
      split; [reflexivity|].
      split; [by rewrite Hrem, Hpop, (shuffle_perm (st_rng s) init)|].
      split; [by rewrite Hpop, last_snoc|].
      rewrite Hrem. cbn [length]. lia.
  - mred.
    destruct (list_pop (remaining_cards (st_game s))) as [[rest c]|] eqn:Hp2;
      [|by apply list_pop_None in Hp2].
    apply list_pop_Some in Hp2. mred.
    rewrite hands_get_eq. mred. rewrite hands_update_eq. mred.
    match goal with
    | |- context [_draw_n _ _ _ ?s1] =>
        destruct (IH s1) as (s' & drawn & Heq & Hhand & Hperm & Hlast & Hpile);
          [done|]
    end.
    exists s', (c :: drawn). split; [exact Heq|]. clear Heq IH.
    revert Hhand Hperm Hlast Hpile. unfold hand_of. game_simpl.
    rewrite ?lookup_insert_eq. cbn [default from_option id].
    intros Hhand Hperm Hlast Hpile.
    split; [by rewrite Hhand, <- app_assoc|].
    split.
    { rewrite Hp2.
      trans (c :: (rest ++ game_stack (st_game s))); [|solve_Permutation].
      rewrite <- Hperm. solve_Permutation. }
    split; [exact Hlast|].
    intros Hn. rewrite Hp2, length_app in Hn. cbn [length] in Hn.
    destruct Hpile as (Hrest & Hstack & Hrng); [lia|].
    split; [|by split].
    by rewrite Hp2, reverse_cons, app_assoc, <- Hrest.
Qed.
(** X5. On a game with a top card, [_draw_n(player, n)] returns, and
    appends to the end of the player's hand, in the order drawn, [n] cards
    or as many as the draw pile and the cards under the top card can give,
    whichever is smaller. The cards drawn come from the two piles, which
    hold that many cards fewer and, with the cards drawn, the cards they
    held; the top card stays. When the draw pile holds [n] cards or more
    they are its last [n] cards, the last one first, the discard stack is
    as it was and [random] is not called. The hands of the others are as
    they were. *)
Theorem draw_n_exact (p : Player) (n : nat) (s : St) :
  game_stack (st_game s) ≠ [] →
  ∃ s' drawn,
    _draw_n shuffle_at p n s = Ok tt s'
    ∧ hand_of (st_game s') p = hand_of (st_game s) p ++ drawn
    ∧ length drawn = (n `min` drawable (st_game s))%nat
    ∧ (length (remaining_cards (st_game s'))
       + length (game_stack (st_game s')) + length drawn
       = length (remaining_cards (st_game s))
         + length (game_stack (st_game s)))%nat
    ∧ remaining_cards (st_game s') ++ game_stack (st_game s') ++ drawn
      ≡ₚ remaining_cards (st_game s) ++ game_stack (st_game s)
    ∧ last (game_stack (st_game s')) = last (game_stack (st_game s))
    ∧ ((n ≤ length (remaining_cards (st_game s)))%nat →
       remaining_cards (st_game s)
       = remaining_cards (st_game s') ++ reverse drawn
       ∧ game_stack (st_game s') = game_stack (st_game s)
       ∧ st_rng s' = st_rng s)
    ∧ ∀ q, q ≠ p → hand_of (st_game s') q = hand_of (st_game s) q.
Proof.
  intros Hst.
  destruct (draw_n_outcome p n s Hst) as (s' & Heq & Hlen & _ & _ & Hoth).
  destruct (draw_n_cards p n s Hst)
    as (s2 & drawn & Heq2 & Hhand & Hperm & Hlast & Hpile).
  rewrite Heq in Heq2. injection Heq2 as <-.
  exists s', drawn. split; [exact Heq|]. split; [exact Hhand|].
  assert (length drawn = (n `min` drawable (st_game s))%nat) as Hdrawn.
  { rewrite Hhand, length_app in Hlen. lia. }
  split; [exact Hdrawn|].
  split.
  { apply Permutation_length in Hperm. rewrite !length_app in Hperm. lia. }
  split; [exact Hperm|]. split; [exact Hlast|]. split; [exact Hpile|].
  exact Hoth.
Qed.

(** ** The deck *)

(** X6. Whatever the shuffles do, [Deck()] holds 108 cards, the cards of
    [Deck_cards] in some order, after exactly [SHUFFLE_FREQ] calls of
    [random.shuffle]: 25 of each of the four colours, 8 black cards, 76
    number cards, 4 draw-four cards. *)
Theorem Deck_init_census (s : St) :
  ∃ cards,
    Deck_init shuffle_at s
    = Ok cards (mkSt (st_game s) (SHUFFLE_FREQ + st_rng s)
                  (st_notes s) (st_calls s))
    ∧ cards ≡ₚ Deck_cards
    ∧ length cards = 108%nat
    ∧ (∀ col, col ∈ COLORS →
              length (filter (λ c, (color c =? col)%string = true) cards)
              = 25%nat)
    ∧ length (filter (λ c, is_black c = true) cards) = 8%nat
    ∧ length (filter (λ c, isdigit (value c) = true) cards) = 76%nat
    ∧ length (filter (λ c, is_draw_four c = true) cards) = 4%nat.
Proof.
  exists (shuffled shuffle_at SHUFFLE_FREQ (st_rng s) Deck_cards).
  pose proof (shuffled_perm shuffle_at shuffle_perm SHUFFLE_FREQ (st_rng s)
                Deck_cards) as Hperm.
  split.
  { unfold Deck_init. exact (Deck_shuffle_eq shuffle_at SHUFFLE_FREQ Deck_cards s). }
  split; [exact Hperm|]. rewrite !Hperm.
  split; [reflexivity|]. split.
  - intros col Hcol. rewrite Hperm. unfold COLORS in Hcol.
    repeat (apply elem_of_cons in Hcol as [->|Hcol];
            [vm_compute; reflexivity|]).
    by apply not_elem_of_nil in Hcol.
  - split; [vm_compute; reflexivity|].
    split; vm_compute; reflexivity.
Qed.
End PilesExact.

(** X7. Among the cards of the deck the [id] names the card: two deck
    cards with the same [id] have the same colour and value, so that
    [find_object(player_cards, card_id)] can only find a copy of the card
    that was meant. *)
Theorem deck_card_ids (c c' : Card) :
  c ∈ Deck_cards → c' ∈ Deck_cards → Card_id c = Card_id c' → c = c'.
Proof.
  assert (forallb
            (λ c, forallb
                    (λ c', implb (Card_id c =? Card_id c')%string
                             ((color c =? color c')%string
                              && (value c =? value c')%string))
                    Deck_cards)
            Deck_cards = true) as Hall by (vm_compute; reflexivity).
  intros Hc Hc' Hid. rewrite forallb_forall in Hall.
  specialize (Hall c (proj1 (list_elem_of_In _ _) Hc)).
  rewrite forallb_forall in Hall.
  specialize (Hall c' (proj1 (list_elem_of_In _ _) Hc')).
  apply String.eqb_eq in Hid. rewrite Hid in Hall. cbn [implb] in Hall.
  apply andb_true_iff in Hall as [Hcol Hval].
  apply String.eqb_eq in Hcol, Hval.
  destruct c, c'. cbn in Hcol, Hval. by subst.
Qed.

(** X8. On the cards of the deck, [is_special] holds of the cards that
    are not number cards, and [is_color_special] of every card that is not
    black, the number cards included. *)
Theorem deck_special_cards (c : Card) :
  c ∈ Deck_cards →
  is_special c = negb (isdigit (value c))
  ∧ is_color_special c = negb (is_black c).
Proof.
  revert c. apply Forall_forall.
  apply (bool_decide_unpack _). vm_compute. exact I.
Qed.

(** ** Calls of [draw] and [play], case by case *)

Section CallCases.
Variable shuffle_at : nat → list Card → list Card.

(** X9. A call of [draw] or [play] on a game with fewer than
    [MIN_PLAYERS_ALLOWED] players raises the exception of
    [validate_players] before anything else is looked at, and a call by
    anyone but the player whose turn it is ends with the error
    [not your turn]; in both cases the game, the hands dictionary included,
    is left exactly as it was, and [random] is not called. *)
Theorem wrong_turn_rejected (a : Action) (g : Game) (rng : nat) :
  (Z.of_nat (size (players g)) < MIN_PLAYERS_ALLOWED →
   perform shuffle_at a (enter g rng) = Exc InsufficientPlayers (enter g rng))
  ∧ (∀ p, ¬ Z.of_nat (size (players g)) < MIN_PLAYERS_ALLOWED →
          py_index (players_list g) (current_index g) = Some p →
          actor a ≠ Player_id p →
          perform shuffle_at a (enter g rng)
          = Ok tt (mkSt g rng [NError MsgNotYourTurn] [])).
Proof.
  split.
  - intros Hfew. destruct a; cbn [perform]; unfold draw, play; mred.
    all: by rewrite (bool_decide_eq_true_2 _ Hfew).
  - intros p Hsize Hseat Hother.
    destruct a; cbn [perform actor] in *; unfold draw, play; mred.
    all: rewrite (bool_decide_eq_false_2 _ Hsize); mred.
    all: rewrite Hseat; mred.
    all: apply String.eqb_neq in Hother; rewrite Hother; reflexivity.
Qed.

(** X10. A draw by the seat that owes cards takes the last card of the
    draw pile (refilled from the discard stack when it was empty) into its
    hand without a word to the notification sink. While more than one card
    is owed the count falls by one and the turn stays; with the last card
    owed the obligation is cleared and the turn passes on by one step. *)
Theorem obligated_draw (g : Game) (rng : nat) (p : Player)
  (rest : list Card) (c : Card) :
  ¬ Z.of_nat (size (players g)) < MIN_PLAYERS_ALLOWED →
  py_index (players_list g) (current_index g) = Some p →
  p ∈ players g →
  obligated g →
  refilled_pile shuffle_at g rng = rest ++ [c] →
  ∃ s', draw shuffle_at (Player_id p) (enter g rng) = Ok tt s'
        ∧ st_notes s' = []
        ∧ remaining_cards (st_game s') = rest
        ∧ hands (st_game s') = <[p := hand_of g p ++ [c]]> (hands g)
        ∧ direction (st_game s') = direction g
        ∧ if bool_decide (pending_draw_count g = 1) then
            pending_draw_count (st_game s') = 0
            ∧ pending_draw_for_index (st_game s') = None
            ∧ current_index (st_game s')
              = (current_index g + 1 * direction g)
                mod Z.of_nat (length (players_list g))
          else
            pending_draw_count (st_game s') = pending_draw_count g - 1
            ∧ pending_draw_for_index (st_game s') = Some (current_index g)
            ∧ current_index (st_game s') = current_index g.
Proof.
  intros Hsize Hseat Hin [Hpos Hfor] Hpile.
  pose proof (find_by_id_player (elements (players g)) p) as Hfind.
  rewrite elem_of_elements in Hfind. specialize (Hfind Hin).
  pose proof (py_index_Some_length _ _ _ Hseat) as Hn.
  unfold refilled_pile in Hpile.
  cut (match draw shuffle_at (Player_id p) (enter g rng) with
       | Ok _ s' =>
           st_notes s' = []
           ∧ remaining_cards (st_game s') = rest
           ∧ hands (st_game s') = <[p := hand_of g p ++ [c]]> (hands g)
           ∧ direction (st_game s') = direction g
           ∧ if bool_decide (pending_draw_count g = 1) then
               pending_draw_count (st_game s') = 0
               ∧ pending_draw_for_index (st_game s') = None
               ∧ current_index (st_game s')
                 = (current_index g + 1 * direction g)
                   mod Z.of_nat (length (players_list g))
             else
               pending_draw_count (st_game s') = pending_draw_count g - 1
               ∧ pending_draw_for_index (st_game s') = Some (current_index g)
               ∧ current_index (st_game s') = current_index g
       | Exc _ _ => False
       end).
  { destruct (draw shuffle_at (Player_id p) (enter g rng)) as [[] s'|];
      [|done]. intros Hout. by exists s'. }
  unfold draw. mrun.
  all: path_facts; simplify_eq.
  all: try (rewrite String.eqb_refl in *; discriminate).
  all: try (rewrite bool_decide_eq_true_2 in Hpile by done).
  all: try (rewrite bool_decide_eq_false_2 in Hpile by done).
  all: repeat match goal with
         | H : game_stack _ = _ |- _ => rewrite H in *
         | H : remaining_cards _ = _ |- _ => rewrite H in *
         end.
  all: rewrite ?list_pop_snoc in *; simplify_eq.
  all: try tauto.
  all: try match goal with
         | H1 : ?x = ?a ++ [?b], H2 : ?x = ?a' ++ [?b'] |- _ =>
             rewrite H1 in H2; apply app_inj_tail in H2 as [-> ->]
         | H : ?a ++ [?b] = ?a' ++ [?b'] |- _ =>
             apply app_inj_tail in H as [-> ->]
         | H1 : ?x = [], H2 : ?x = _ ++ [_] |- _ =>
             rewrite H1 in H2; by apply app_cons_not_nil in H2
         | H : [] = _ ++ [_] |- _ => by apply app_cons_not_nil in H
         end.
  all: try (case_bool_decide; repeat split; first [done | lia]).
  all: lia.
Qed.

(** X11. When the player whose turn it is, owing no cards, asks to play
    a card identifier that is not in their hand, [play] raises
    [ValueError]: nothing is sent to the notification sink, and the game is
    as it was but for the entry the read of [self.hands[player]] makes. *)
Theorem play_unknown_card (g : Game) (rng : nat) (p : Player)
  (cid : string) (cc : option string) (uno : bool) :
  ¬ Z.of_nat (size (players g)) < MIN_PLAYERS_ALLOWED →
  py_index (players_list g) (current_index g) = Some p →
  p ∈ players g →
  ¬ obligated g →
  held_card g p cid = None →
  play shuffle_at (Player_id p) cid cc uno (enter g rng)
  = Exc ValueError (mkSt (touch p g) rng [] []).
Proof.
  intros Hsize Hseat Hin Hfree Hheld.
  pose proof (find_by_id_player (elements (players g)) p) as Hfind.
  rewrite elem_of_elements in Hfind. specialize (Hfind Hin).
  unfold play. mred.
  rewrite (bool_decide_eq_false_2 _ Hsize). mred.
  rewrite Hseat. mred. rewrite String.eqb_refl. cbn [negb].
  assert (bool_decide (0 < pending_draw_count g)
          && bool_decide (pending_draw_for_index g = Some (current_index g))
          = false) as ->.
  { apply andb_false_iff. unfold obligated in Hfree.
    destruct (decide (0 < pending_draw_count g)) as [Hpos|Hpos].
    - right. apply bool_decide_eq_false_2. tauto.
    - left. by apply bool_decide_eq_false_2. }
  rewrite find_object_eq, Hfind. mred.
  rewrite hands_get_eq. mred.
  rewrite find_object_eq. unfold held_card in Hheld.
  fold (hand_of g p). rewrite Hheld. reflexivity.
Qed.

(** X12. A call of [play] that returns without a rejection was made by
    the player whose turn it is, with a card of their hand that passes
    [_can_play_card] against the top card; afterwards that card is the top
    card, and [current_color] is set: to the colour of the card, or to
    [chosen_color] when the card is black. *)
Theorem play_puts_card_on_top (g : Game) (rng : nat) (pid cid : string)
  (cc : option string) (uno : bool) (s' : St) :
  play shuffle_at pid cid cc uno (enter g rng) = Ok tt s' →
  rejected s' = false →
  ∃ p card top,
    py_index (players_list g) (current_index g) = Some p
    ∧ pid = Player_id p
    ∧ held_card g p cid = Some card
    ∧ last (game_stack g) = Some top
    ∧ _can_play_card g card top = true
    ∧ last (game_stack (st_game s')) = Some card
    ∧ current_color (st_game s')
      = (if is_black card then cc else Some (color card))
    ∧ current_color (st_game s') ≠ None.
Proof.
  intros Hplay Hrej. revert Hplay. unfold play. prun.
  all: intros Hres; first [discriminate Hres | injection Hres as <-].
  all: path_facts; try discriminate.
  all: simplify_eq; same_player.
  all: match goal with
       | Hp : py_index _ _ = Some ?q,
         Hc : find_by_id (default _ _) _ = Some ?c,
         Ht : last (game_stack _) = Some ?t |- _ => exists q, c, t
       end.
  all: unfold held_card, hand_of, _can_play_card in *.
  all: cbn [current_color set_hands] in *.
  all: frame_back.
  all: repeat match goal with
         | H : game_stack _ = _ |- _ => rewrite H in *; clear H
         end.
  all: rewrite ?last_snoc in *.
  all: repeat split; try done; try congruence.
  all: destruct (is_black _); try done; try congruence.
  all: destruct cc; try done; try congruence.
  all: repeat match goal with H : _ ∨ _ |- _ => destruct H end; done.
Qed.
(** X13. A successful play that does not end the game, of a card that
    is neither a reverse nor a draw card, leaves [direction] and the
    pending-draw state as they were and passes the turn on by one step, or
    by two steps for a skip, which with two players is the same seat
    again. *)
Theorem plain_card_turn (g : Game) (rng : nat) (p : Player) (card : Card)
  (cid : string) (cc : option string) (uno : bool) (s' : St) :
  py_index (players_list g) (current_index g) = Some p →
  held_card g p cid = Some card →
  value card ∉ ["reverse"; "draw-two"; "draw-four"] →
  play shuffle_at (Player_id p) cid cc uno (enter g rng) = Ok tt s' →
  rejected s' = false →
  st_calls s' = [] →
  let n := Z.of_nat (length (players_list g)) in
  direction (st_game s') = direction g
  ∧ pending_draw_count (st_game s') = pending_draw_count g
  ∧ pending_draw_for_index (st_game s') = pending_draw_for_index g
  ∧ current_index (st_game s')
    = (current_index g
       + (if bool_decide (value card = "skip") then 2 else 1) * direction g)
      mod n
  ∧ (value card = "skip" → n = 2 →
     py_index (players_list (st_game s')) (current_index (st_game s'))
     = Some p).
Proof.
  intros Hseat Hcard Hval Hplay Hrej Hcalls n. subst n.
  unfold held_card in Hcard.
  assert (value card ≠ "reverse" ∧ value card ≠ "draw-two"
          ∧ value card ≠ "draw-four") as (Hrev & Htwo & Hfour).
  { set_unfold. tauto. }
  clear Hval.
  revert Hplay. unfold play. prun.
  all: intros Hres; first [discriminate Hres | injection Hres as <-].
  all: path_facts; try discriminate.
  all: simplify_eq; same_player; same_card; frame_back.
  all: unfold is_draw_four in *; bsimp.
  all: try congruence.
  all: try (rewrite bool_decide_eq_true_2 by done).
  all: try (rewrite bool_decide_eq_false_2 by done).
  all: repeat split; try done.
  all: intros _ Hn.
  all: rewrite Hn, (Z.mul_comm 2), Z.mod_add by lia; rewrite <- Hn.
  all: by apply py_index_mod.
Qed.
End CallCases.

Lemma snoc_not_nil {A} (l : list A) (x : A) : l ++ [x] ≠ [].
Proof. intros Hnil. by apply app_nil in Hnil as [_ ?]. Qed.

(** As [mcall], with the count of the cards [_draw_n] hands out. *)
Ltac mcall_exact Hperm :=
  match goal with
  | |- context [_calculate_score_from ?ps ?ex ?t ?s1] =>
      let g' := fresh "gs" in
      let Hs := fresh "Hscore" in
      destruct (calculate_score_from_spec ps ex t s1) as (g' & -> & Hs)
  | |- context [_draw_n ?sh ?p ?n ?s1] =>
      let Hd := fresh "Hdrawn" in
      let He := fresh "Hexact" in
      let sx := fresh "sx" in
      pose proof (draw_n_frame sh p n s1) as Hd;
      destruct (draw_n_outcome sh Hperm p n s1) as (sx & He & ? & ? & ? & ?);
      [ cbn [st_game st_set_game game_stack set_game_stack set_hands
             set_remaining_cards touch]; apply snoc_not_nil
      | cbv zeta in Hd; rewrite He in Hd |- *; cbn [outcome_state] in * ]
  end.

Section Penalty.
Variable shuffle_at : nat → list Card → list Card.
Hypothesis shuffle_perm : ∀ t l, shuffle_at t l ≡ₚ l.

(** X14. A player who plays the second-to-last card of their hand
    without calling UNO is told so and draws the two penalty cards, or the
    one card there is when the draw pile and the discard stack under the
    card just played hold no more; the game does not end on that play. *)
Theorem uno_penalty (g : Game) (rng : nat) (p : Player) (card : Card)
  (cid : string) (cc : option string) (s' : St) :
  py_index (players_list g) (current_index g) = Some p →
  held_card g p cid = Some card →
  length (hand_of g p) = 2%nat →
  play shuffle_at (Player_id p) cid cc false (enter g rng) = Ok tt s' →
  rejected s' = false →
  st_notes s' = [NError (MsgNoUno (name p))]
  ∧ st_calls s' = []
  ∧ length (hand_of (st_game s') p)
    = (1 + 2 `min` (length (remaining_cards g) + length (game_stack g)))%nat.
Proof.
  intros Hseat Hcard Hlen Hplay Hrej.
  unfold held_card in Hcard.
  revert Hplay. unfold play.
  mred; repeat (first [mstep | mcall_exact shuffle_perm | mcase]; mred).
  all: intros Hres; first [discriminate Hres | injection Hres as <-].
  all: unfold drawable in *.
  all: path_facts; try discriminate.
  all: simplify_eq; same_player; same_card.
  all: found_lengths; rewrite ?length_app in *; cbn [length] in *.
  all: try (exfalso; lia).
  all: split; [reflexivity|]; split; [reflexivity|].
  all: rewrite lookup_insert_eq; cbn [default from_option id]; lia.
Qed.
End Penalty.

(** ** Construction, case by case *)

Global Instance id_le_total : Total id_le.
Proof. intros p q. unfold id_le. apply String.leb_total. Qed.

Lemma COLORS_lookup (i : nat) :
  ∃ c, COLORS !! (i mod length COLORS)%nat = Some c ∧ c ∈ COLORS.
Proof.
  destruct (lookup_lt_is_Some_2 COLORS (i mod length COLORS)%nat) as [c Hc].
  { apply Nat.mod_upper_bound. done. }
  exists c. split; [exact Hc|]. by eapply list_elem_of_lookup_2.
Qed.

Section StartCases.
Variable shuffle_at : nat → list Card → list Card.
Variable choice_at : nat → nat.

Lemma start_discard_step_effect (s : St) :
  game_stack (st_game s) = [] →
  players_list (st_game s) ≠ [] →
  match start_discard_step shuffle_at choice_at s with
  | Exc e s' => e = IndexError ∧ remaining_cards (st_game s) = []
  | Ok true s' => True
  | Ok false s' =>
      ∃ card, game_stack (st_game s') = [card]
              ∧ opening_effect (st_game s) card (st_game s')
  end.
Proof.
  intros Hst Hpl.
  assert (Z.of_nat (length (players_list (st_game s))) ≠ 0) as Hn.
  { destruct (players_list (st_game s)); [done|simpl; lia]. }
  unfold start_discard_step. mred. rewrite refill_if_empty_eq.
  rewrite Hst. cbn [list_pop].
  case_bool_decide as Hrem; [done|]. mred.
  destruct (list_pop (remaining_cards (st_game s))) as [[rest card]|] eqn:Hpop;
    [|by apply list_pop_None in Hpop].
  mred. destruct (is_draw_four card) eqn:Hd4; mred; [done|].
  rewrite Hst. cbn [app].
  destruct (COLORS_lookup (choice_at (st_rng s))) as (col & Hcol & Hin).
  unfold opening_effect.
  destruct (is_black card) eqn:Hblack; mred; rewrite ?Hcol; mred.
  all: rewrite ?(bool_decide_eq_false_2 _ Hn); mred.
  all: destruct (value card =? "skip")%string eqn:Hskip; mred;
    rewrite ?(bool_decide_eq_false_2 _ Hn); mred.
  all: try destruct (value card =? "reverse")%string eqn:Hrev; mred;
    rewrite ?(bool_decide_eq_false_2 _ Hn); mred.
  all: try (case_bool_decide as Htwo; mred;
            rewrite ?(bool_decide_eq_false_2 _ Hn); mred).
  all: try destruct (value card =? "draw-two")%string eqn:Hdraw; mred;
    rewrite ?(bool_decide_eq_false_2 _ Hn); mred.
  all: bsimp.
  all: exists card; split; [reflexivity|].
  all: rewrite ?Hblack.
  all: split; [reflexivity|]; split; [by eauto|].
  all: repeat match goal with |- _ ∧ _ => split end; intros.
  all: try (exfalso; congruence).
  all: try (exfalso; set_unfold; tauto).
  all: repeat case_bool_decide; try (exfalso; lia).
  all: repeat match goal with |- _ ∧ _ => split end; reflexivity.
Qed.

(** The outcome of the opening loop when it ends normally: the effect of
    the card it settled on, on the game the loop started from. *)
Lemma start_discard_effect (fuel : nat) (s s' : St) :
  game_stack (st_game s) = [] →
  players_list (st_game s) ≠ [] →
  _start_discard_with_valid_card shuffle_at choice_at fuel s = Some (Ok tt s') →
  ∃ card, game_stack (st_game s') = [card]
          ∧ opening_effect (st_game s) card (st_game s').
Proof.
  revert s. induction fuel as [|fuel IH]; intros s Hst Hpl Hrun; [done|].
  simpl in Hrun.
  pose proof (start_discard_step_spec shuffle_at choice_at s Hst) as Hstep.
  pose proof (start_discard_step_effect s Hst Hpl) as Heff.
  destruct (start_discard_step shuffle_at choice_at s) as [[] s1|]; [| |done].
  - destruct Hstep as (Hturn & _ & Hst1 & _).
    destruct Hturn as (Epl & _ & Ecur & Edir & _ & Ecnt & Efor).
    destruct (IH s1 Hst1) as (card & Hstack & Hop); [congruence|exact Hrun|].
    exists card. split; [exact Hstack|].
    unfold opening_effect in *. by rewrite Epl, Ecur, Edir, Ecnt, Efor in Hop.
  - injection Hrun as <-. exact Heff.
Qed.

(** X15. With fewer than two players [Game(room, players, hand_size)]
    raises the exception of [validate_players], after the deck has been
    built and shuffled [SHUFFLE_FREQ] times and before any card is dealt. *)
Theorem construction_needs_two_players (fuel : nat) (players0 : gset Player)
  (hand_size : Z) (rng : nat) :
  (size players0 < 2)%nat →
  Game_init shuffle_at choice_at fuel players0 hand_size rng
  = Some (Exc InsufficientPlayers
            (mkSt (Game_new players0) (SHUFFLE_FREQ + rng) [] [])).
Proof.
  intros Hfew. unfold Game_init.
  pose proof (Game_init_deal_spec shuffle_at players0 hand_size rng) as Hspec.
  cbv zeta in Hspec. rewrite bool_decide_eq_true_2 in Hspec by exact Hfew.
  rewrite Hspec. reflexivity.
Qed.

(** X16. After a successful construction the seats are the players in
    the order of their identifiers, each once, the set of players is the
    set that was given, and at least two players are seated. *)
Theorem construction_seats (fuel : nat) (players0 : gset Player)
  (hand_size : Z) (rng : nat) (s : St) :
  Game_init shuffle_at choice_at fuel players0 hand_size rng = Some (Ok tt s) →
  players_list (st_game s) = sorted_by_id (elements players0)
  ∧ players (st_game s) = players0
  ∧ Sorted id_le (players_list (st_game s))
  ∧ NoDup (players_list (st_game s))
  ∧ (∀ p, p ∈ players_list (st_game s) ↔ p ∈ players0)
  ∧ (2 ≤ length (players_list (st_game s)))%nat.
Proof.
  intros Hrun.
  destruct (Game_init_inv _ _ _ _ _ _ _ Hrun) as (g0 & Hdeal & Hloop & Hsz).
  pose proof (Game_init_deal_spec shuffle_at players0 hand_size rng) as Hspec.
  cbv zeta in Hspec.
  case_bool_decide; [rewrite Hspec in Hdeal; discriminate Hdeal|].
  destruct Hspec as (g1 & Heq & Hturn & Hst & _).
  rewrite Heq in Hdeal. injection Hdeal as <-.
  destruct (start_discard_spec shuffle_at choice_at fuel
              (mkSt g1 (SHUFFLE_FREQ + rng) [] []) s Hst Hloop)
    as (_ & Hpl & Hps & _).
  destruct Hturn as (Epl & Eps & _).
  cbn [st_game] in *. rewrite Hpl, Hps, Epl, Eps.
  unfold Game_new. cbn [players_list players].
  split; [reflexivity|]. split; [apply seats_set|].
  split; [apply Sorted_merge_sort, _|]. split; [apply seats_NoDup|].
  split; [apply seats_elem|]. rewrite seats_length. exact Hsz.
Qed.

(** X17. After a successful construction whose opening card is not a
    draw-two nobody owes cards. A skip passes the turn two seats on, a
    reverse does the same with two players and turns the direction round,
    leaving the turn with the first seat, with three or more; any other
    card leaves the turn with the first seat. The colour to play on is the
    colour of the opening card, or one of the four colours when that card
    is black. *)
Theorem opening_card_effects (fuel : nat) (players0 : gset Player)
  (hand_size : Z) (rng : nat) (s : St) (top : Card) :
  Game_init shuffle_at choice_at fuel players0 hand_size rng = Some (Ok tt s) →
  last (game_stack (st_game s)) = Some top →
  value top ≠ "draw-two" →
  let n := Z.of_nat (size players0) in
  pending_draw_count (st_game s) = 0
  ∧ pending_draw_for_index (st_game s) = None
  ∧ current_index (st_game s)
    = (if bool_decide (value top = "skip" ∨ value top = "reverse" ∧ n = 2)
       then 2 mod n else 0)
  ∧ direction (st_game s)
    = (if bool_decide (value top = "reverse" ∧ n ≠ 2) then -1 else 1)
  ∧ (if is_black top then ∃ c, c ∈ COLORS ∧ current_color (st_game s) = Some c
     else current_color (st_game s) = Some (color top)).
Proof.
  intros Hrun Htop Hval n.
  destruct (Game_init_inv _ _ _ _ _ _ _ Hrun) as (g0 & Hdeal & Hloop & Hsz).
  pose proof (Game_init_deal_spec shuffle_at players0 hand_size rng) as Hspec.
  cbv zeta in Hspec.
  case_bool_decide; [rewrite Hspec in Hdeal; discriminate Hdeal|].
  destruct Hspec as (g1 & Heq & Hturn & Hst & _).
  rewrite Heq in Hdeal. injection Hdeal as <-.
  destruct Hturn as (Epl & _ & Ecur & Edir & _ & Ecnt & Efor).
  assert (Z.of_nat (length (players_list g1)) = n) as Hlen.
  { rewrite Epl. unfold Game_new. cbn [players_list].
    by rewrite seats_length. }
  destruct (start_discard_effect fuel (mkSt g1 (SHUFFLE_FREQ + rng) [] []) s)
    as (card & Hstack & Hop); [exact Hst| |exact Hloop|].
  { cbn [st_game]. intros Hnil. rewrite Hnil in Hlen. simpl in Hlen. lia. }
  clear Hrun Heq Hloop.
  rewrite Hstack in Htop. cbn [last] in Htop. injection Htop as ->.
  unfold opening_effect in Hop. cbn [st_game] in Hop.
  rewrite Hlen, Ecur, Edir, Ecnt, Efor in Hop.
  unfold Game_new in Hop.
  cbn [current_index direction pending_draw_count pending_draw_for_index]
    in Hop.
  destruct Hop as (_ & Hcol & Hskip & Hrev & _ & Hplain).
  destruct (decide (value top = "skip")) as [Es|Es].
  { destruct (Hskip Es) as (-> & -> & -> & ->).
    rewrite bool_decide_eq_true_2 by (by left).
    rewrite bool_decide_eq_false_2 by (rewrite Es; by intros [? _]).
    done. }
  destruct (decide (value top = "reverse")) as [Er|Er].
  { destruct (Hrev Er) as (-> & -> & Hturn).
    case_bool_decide as Htwo.
    - destruct Hturn as [-> ->].
      rewrite bool_decide_eq_true_2 by (by right).
      rewrite bool_decide_eq_false_2 by (by intros [_ ?]).
      done.
    - destruct Hturn as [-> ->].
      rewrite bool_decide_eq_false_2 by (intros [?|[_ ?]]; done).
      rewrite bool_decide_eq_true_2 by done.
      done. }
  destruct Hplain as (-> & -> & -> & ->).
  { set_unfold. tauto. }
  rewrite bool_decide_eq_false_2 by (intros [?|[? _]]; done).
  rewrite bool_decide_eq_false_2 by (by intros [? _]).
  done.
Qed.
Hypothesis shuffle_perm : ∀ t l, shuffle_at t l ≡ₚ l.

(** X18. When the hands asked for take the whole deck (two players or
    more, and [108] cards or more to deal), the construction deals all 108
    cards and then raises [IndexError]: there is no card left to open the
    discard stack with. *)
Theorem construction_deals_every_card (fuel : nat) (players0 : gset Player)
  (hand_size : Z) (rng : nat) :
  (2 ≤ size players0)%nat →
  108 ≤ Z.of_nat (size players0) * hand_size →
  ∃ s, Game_init shuffle_at choice_at (S fuel) players0 hand_size rng
       = Some (Exc IndexError s)
       ∧ remaining_cards (st_game s) = []
       ∧ game_stack (st_game s) = []
       ∧ hands_total (hands (st_game s)) = 108%nat.
Proof.
  intros Hsz Hall.
  pose proof (Game_init_deal_spec shuffle_at players0 hand_size rng) as Hspec.
  cbv zeta in Hspec. rewrite bool_decide_eq_false_2 in Hspec by lia.
  destruct Hspec as (g1 & Heq & _ & Hst & Hrem & Htot & _).
  pose proof (shuffled_deck_length shuffle_at shuffle_perm rng) as Hlen.
  revert Hrem Htot Hlen.
  generalize (shuffled shuffle_at SHUFFLE_FREQ rng Deck_cards).
  intros cards Hrem Htot Hlen.
  unfold py_slice_from, py_slice_to, py_slice_bound in Hrem, Htot.
  rewrite bool_decide_eq_true_2 in Hrem, Htot by lia.
  rewrite drop_ge in Hrem by lia.
  rewrite take_ge in Htot by lia.
  exists (mkSt g1 (SHUFFLE_FREQ + rng) [] []).
  split.
  - unfold Game_init. rewrite Heq. clear Heq.
    cbn [_start_discard_with_valid_card].
    unfold start_discard_step. unfold bind at 1.
    rewrite refill_if_empty_eq. cbn [st_game].
    rewrite Hrem, Hst. reflexivity.
  - clear Heq. cbn [st_game].
    split; [exact Hrem|]. split; [exact Hst|]. rewrite Htot. exact Hlen.
Qed.
End StartCases.

(** ** The games that can be reached, in full *)

Lemma well_seated_size (g : Game) :
  well_seated g → ¬ Z.of_nat (size (players g)) < MIN_PLAYERS_ALLOWED.
Proof.
  intros (Hnd & Hps & Hlen & _). rewrite Hps, size_list_to_set by exact Hnd.
  unfold MIN_PLAYERS_ALLOWED. lia.
Qed.

Lemma well_seated_seat (g : Game) :
  well_seated g →
  ∃ p, py_index (players_list g) (current_index g) = Some p ∧ p ∈ players g.
Proof.
  intros (_ & Hps & _ & Hcur & _).
  destruct (py_index_in_range (players_list g) _ Hcur) as [p Hp].
  exists p. split; [exact Hp|]. rewrite Hps, elem_of_list_to_set.
  unfold py_index in Hp. rewrite bool_decide_eq_true_2 in Hp by lia.
  by eapply list_elem_of_lookup_2.
Qed.

(** The parts of [well_seated] and [pending_exact], with the top card in
    place of the discard stack, as the symbolic execution meets them. *)
Ltac seats_facts :=
  unfold well_seated, pending_exact in *;
  repeat match goal with
    | H : game_stack _ ≠ [] |- _ => rewrite <- last_None in H
    | |- context [game_stack ?g ≠ []] => rewrite <- (last_None (game_stack g))
    end.

Section Reached.
Variable shuffle_at : nat → list Card → list Card.
Variable choice_at : nat → nat.

Lemma draw_keeps_seats (pid : string) (g : Game) (rng : nat) :
  well_seated g → pending_exact g →
  let g' := st_game (outcome_state (draw shuffle_at pid (enter g rng))) in
  well_seated g' ∧ pending_exact g'.
Proof.
  intros Hw Hp. cbv zeta. unfold well_seated, pending_exact in *.
  destruct Hw as (Hnd & Hps & Hlen & Hcur & Hdir & Hst & Hcol).
  seats_facts.
  destruct (pending_draw_for_index g) as [i|] eqn:Hfor.
  all: unfold draw; mrun.
  all: game_simpl; bsimp; subst.
  all: rewrite ?Hfor in *.
  all: try (exfalso; clear Hdir; intuition (congruence || lia)).
  all: repeat match goal with
         | H : game_stack _ = _ |- _ => rewrite H in *
         end.
  all: rewrite ?last_snoc in *.
  all: repeat match goal with |- _ ∧ _ => split end.
  all: try assumption; try done.
  all: try (apply Z.mod_pos_bound; lia).
  all: try lia.
  all: congruence.
Qed.

Lemma play_keeps_seats (pid cid : string) (cc : option string) (uno : bool)
  (g : Game) (rng : nat) :
  well_seated g → pending_exact g →
  let g' := st_game (outcome_state
                       (play shuffle_at pid cid cc uno (enter g rng))) in
  well_seated g' ∧ pending_exact g'.
Proof.
  intros Hw Hp. cbv zeta. unfold well_seated, pending_exact in *.
  destruct Hw as (Hnd & Hps & Hlen & Hcur & Hdir & Hst & Hcol).
  seats_facts.
  destruct (pending_draw_for_index g) as [i|] eqn:Hfor.
  all: unfold play; prun.
  all: game_simpl; bsimp; subst.
  all: rewrite ?Hfor in *.
  all: try (exfalso; clear Hdir; intuition (congruence || lia)).
  all: frame_back.
  all: repeat match goal with
         | H : game_stack _ = _ |- _ => rewrite H in *
         end.
  all: rewrite ?last_snoc in *.
  all: repeat match goal with
         | H : players_list ?x = _ |- context [players_list ?x] => rewrite H
         | H : players ?x = _ |- context [players ?x] => rewrite H
         | H : current_index ?x = _ |- context [current_index ?x] => rewrite H
         | H : direction ?x = _ |- context [direction ?x] => rewrite H
         | H : current_color ?x = _ |- context [current_color ?x] => rewrite H
         | H : pending_draw_count ?x = _ |- context [pending_draw_count ?x] =>
             rewrite H
         | H : pending_draw_for_index ?x = _
           |- context [pending_draw_for_index ?x] => rewrite H
         end.
  all: repeat match goal with |- _ ∧ _ => split end.
  all: try assumption; try done.
  all: try (apply Z.mod_pos_bound; lia).
  all: try lia.
  all: try congruence.
  all: destruct (is_black _); try done; try congruence.
  all: destruct cc; try done; try congruence.
  all: clear Hdir; repeat match goal with H : _ ∨ _ |- _ => destruct H end; done.
Qed.
Lemma Game_init_keeps_seats (fuel : nat) (players0 : gset Player)
  (hand_size : Z) (rng : nat) (s : St) :
  Game_init shuffle_at choice_at fuel players0 hand_size rng = Some (Ok tt s) →
  well_seated (st_game s) ∧ pending_exact (st_game s).
Proof.
  intros Hrun.
  destruct (Game_init_inv _ _ _ _ _ _ _ Hrun) as (g0 & Hdeal & Hloop & Hsz).
  pose proof (Game_init_deal_spec shuffle_at players0 hand_size rng) as Hspec.
  cbv zeta in Hspec.
  case_bool_decide; [rewrite Hspec in Hdeal; discriminate Hdeal|].
  destruct Hspec as (g1 & Heq & Hturn & Hst & _).
  rewrite Heq in Hdeal. injection Hdeal as <-.
  destruct Hturn as (Epl & Eps & Ecur & Edir & _ & Ecnt & Efor).
  assert (length (players_list g1) = size players0) as Hlen.
  { rewrite Epl. unfold Game_new. cbn [players_list]. apply seats_length. }
  destruct (start_discard_spec shuffle_at choice_at fuel
              (mkSt g1 (SHUFFLE_FREQ + rng) [] []) s Hst Hloop)
    as (_ & Hpl & Hps & _).
  destruct (start_discard_effect shuffle_at choice_at fuel
              (mkSt g1 (SHUFFLE_FREQ + rng) [] []) s)
    as (card & Hstack & Hop); [exact Hst| |exact Hloop|].
  { cbn [st_game]. intros Hnil. rewrite Hnil in Hlen. simpl in Hlen. lia. }
  clear Hrun Heq Hloop.
  unfold opening_effect in Hop. cbn [st_game] in *.
  rewrite Ecur, Edir, Ecnt, Efor, Hlen in Hop.
  unfold Game_new in Hop, Epl, Eps.
  cbn [current_index direction pending_draw_count pending_draw_for_index
       players_list players] in Hop, Epl, Eps.
  destruct Hop as (_ & Hcol & Hskip & Hrev & Htwo & Hplain).
  assert (0 < Z.of_nat (size players0)) as Hn by lia.
  unfold well_seated, pending_exact.
  rewrite Hpl, Hps, Epl, Eps, Hstack, seats_length.
  assert (current_color (st_game s) ≠ None) as Hcolour.
  { destruct (is_black card); [|congruence].
    destruct Hcol as (c & _ & ->). done. }
  assert ((0 ≤ current_index (st_game s) < Z.of_nat (size players0))
          ∧ (direction (st_game s) = 1 ∨ direction (st_game s) = -1)
          ∧ match pending_draw_for_index (st_game s) with
            | Some i => i = current_index (st_game s)
                        ∧ 0 < pending_draw_count (st_game s) ≤ 4
            | None => pending_draw_count (st_game s) = 0
            end) as (Hcur & Hdir & Hpend).
  { destruct (decide (value card = "skip")) as [Es|Es].
    { destruct (Hskip Es) as (-> & -> & -> & ->).
      split; [apply Z.mod_pos_bound; lia|]. split; [by left|reflexivity]. }
    destruct (decide (value card = "reverse")) as [Er|Er].
    { destruct (Hrev Er) as (-> & -> & Hturn).
      case_bool_decide; destruct Hturn as [-> ->].
      - split; [apply Z.mod_pos_bound; lia|]. split; [by left|reflexivity].
      - split; [lia|]. split; [by right|reflexivity]. }
    destruct (decide (value card = "draw-two")) as [Et|Et].
    { destruct (Htwo Et) as (Hc & -> & -> & ->).
      split; [rewrite Hc; apply Z.mod_pos_bound; lia|].
      split; [by left|]. split; [reflexivity|lia]. }
    destruct Hplain as (-> & -> & -> & ->).
    { set_unfold. tauto. }
    split; [lia|]. split; [by left|reflexivity]. }
  split; [|exact Hpend].
  split; [apply seats_NoDup|]. split; [reflexivity|]. split; [exact Hsz|].
  split; [exact Hcur|]. split; [exact Hdir|]. split; [discriminate|].
  exact Hcolour.
Qed.

(** The games reachable from a construction by calls of [draw] and
    [play] are well seated, with the obligation in full. *)
Lemma reachable_well_seated_facts (g : Game) (rng : nat) :
  reachable shuffle_at choice_at g rng →
  well_seated g ∧ pending_exact g.
Proof.
  induction 1 as [fuel players0 h rng s Hrun|g rng a s Hreach IH Hs].
  - by eapply Game_init_keeps_seats.
  - subst s. destruct IH as [Hw Hp]. destruct a; cbn [perform].
    + by apply draw_keeps_seats.
    + by apply play_keeps_seats.
Qed.

(** X19. In every game reachable from a construction by calls of [draw]
    and [play]: the seats are distinct players, two at least, the very
    players of the set; the turn is at one of the seats; [direction] is 1
    or -1; the discard stack has a top card and [current_color] is set;
    between 0 and 4 cards are owed, a seat is named as owing them exactly
    when some are, and that seat is the one whose turn it is. *)
Theorem reachable_invariants (g : Game) (rng : nat) :
  reachable shuffle_at choice_at g rng →
  NoDup (players_list g)
  ∧ players g = list_to_set (players_list g)
  ∧ (2 ≤ length (players_list g))%nat
  ∧ 0 ≤ current_index g < Z.of_nat (length (players_list g))
  ∧ (direction g = 1 ∨ direction g = -1)
  ∧ game_stack g ≠ []
  ∧ current_color g ≠ None
  ∧ 0 ≤ pending_draw_count g ≤ 4
  ∧ (pending_draw_for_index g = None ↔ pending_draw_count g = 0)
  ∧ (∀ i, pending_draw_for_index g = Some i → i = current_index g).
Proof.
  intros Hreach.
  destruct (reachable_well_seated_facts g rng Hreach) as [Hw Hp].
  destruct Hw as (Hnd & Hps & Hlen & Hcur & Hdir & Hst & Hcol).
  unfold pending_exact in Hp.
  split; [exact Hnd|]. split; [exact Hps|]. split; [exact Hlen|].
  split; [exact Hcur|]. split; [exact Hdir|]. split; [exact Hst|].
  split; [exact Hcol|].
  destruct (pending_draw_for_index g) as [i|].
  - destruct Hp as [-> Hcnt]. split; [lia|]. split.
    + split; [discriminate|lia].
    + by intros ? [= ->].
  - rewrite Hp. split; [lia|]. split; [done|discriminate].
Qed.
End Reached.

(** ** What the calls can raise *)

Lemma find_held_card_idx (l : list Card) (cid : string) (c : Card) :
  find_by_id l cid = Some c →
  list_find (λ o : Card, get_id o = get_id c) l ≠ None.
Proof.
  intros Hfind Hnone. apply find_by_id_Some in Hfind as [Hin _].
  apply list_find_None in Hnone. rewrite Forall_forall in Hnone.
  by apply (Hnone c Hin).
Qed.

Section Raises.
Variable shuffle_at : nat → list Card → list Card.
Variable choice_at : nat → nat.

Lemma draw_returns (pid : string) (g : Game) (rng : nat) :
  well_seated g →
  match draw shuffle_at pid (enter g rng) with
  | Ok _ _ => True
  | Exc _ _ => False
  end.
Proof.
  intros Hw.
  pose proof (well_seated_size g Hw) as Hsize.
  destruct (well_seated_seat g Hw) as (p & Hseat & Hin).
  pose proof (find_by_id_player (elements (players g)) p) as Hfind.
  rewrite elem_of_elements in Hfind. specialize (Hfind Hin).
  destruct Hw as (_ & _ & Hlen & _ & _ & Hst & _).
  rewrite <- last_None in Hst.
  unfold draw. mrun.
  all: game_simpl; bsimp; simplify_eq.
  all: try done.
  all: try lia.
  all: repeat match goal with
         | H : game_stack _ = _ |- _ => rewrite H in *
         end.
  all: rewrite ?last_snoc in *; try done.
  all: congruence.
Qed.

(** X20. In a game reachable from a construction by calls of [draw] and
    [play], a call of [draw] raises nothing, whoever makes it: it returns,
    having drawn a card or told the sink why not. *)
Theorem reachable_draw_returns (g : Game) (rng : nat) (pid : string) :
  reachable shuffle_at choice_at g rng →
  ∃ s', draw shuffle_at pid (enter g rng) = Ok tt s'.
Proof.
  intros Hreach.
  destruct (reachable_well_seated_facts shuffle_at choice_at g rng Hreach)
    as [Hw _].
  pose proof (draw_returns pid g rng Hw) as Hret.
  destruct (draw shuffle_at pid (enter g rng)) as [[] s'|]; [|done].
  by exists s'.
Qed.

(** X21. In such a game [get_state] raises nothing and changes nothing.
    The tuple it returns holds the hands, the top card of the discard
    stack, the identifier of the player whose turn it is, the colour to
    play on, which is set, and the number of cards owed together with the
    identifier of the player who owes them: the player whose turn it is
    when cards are owed, [None] when none are. *)
Theorem reachable_get_state (g : Game) (rng : nat) :
  reachable shuffle_at choice_at g rng →
  ∃ t p,
    get_state (enter g rng) = Ok t (enter g rng)
    ∧ t_hands t = hands g
    ∧ last (game_stack g) = Some (t_top_card t)
    ∧ py_index (players_list g) (current_index g) = Some p
    ∧ t_current_player_id t = Player_id p
    ∧ t_current_color t = current_color g
    ∧ t_current_color t ≠ None
    ∧ t_pending_draw_count t = pending_draw_count g
    ∧ t_pending_for_id t
      = (if bool_decide (0 < pending_draw_count g) then Some (Player_id p)
         else None).
Proof.
  intros Hreach.
  destruct (reachable_well_seated_facts shuffle_at choice_at g rng Hreach)
    as [Hw Hp].
  pose proof (well_seated_size g Hw) as Hsize.
  destruct (well_seated_seat g Hw) as (p & Hseat & Hin).
  destruct Hw as (_ & _ & _ & _ & _ & Hst & Hcol).
  apply last_is_Some in Hst as [top Htop].
  unfold pending_exact in Hp.
  unfold get_state. mred.
  rewrite (bool_decide_eq_false_2 _ Hsize). mred.
  rewrite Htop. mred. rewrite Hseat. mred.
  destruct (pending_draw_for_index g) as [i|] eqn:Hfor.
  - destruct Hp as [-> Hcnt]. mred. rewrite Hseat. mred.
    eexists _, p. split; [reflexivity|]. cbn.
    rewrite bool_decide_eq_true_2 by lia. by repeat split.
  - mred. eexists _, p. split; [reflexivity|]. cbn.
    rewrite bool_decide_eq_false_2 by lia. by repeat split.
Qed.

Hypothesis shuffle_perm : ∀ t l, shuffle_at t l ≡ₚ l.

Lemma play_raises (pid cid : string) (cc : option string) (uno : bool)
  (g : Game) (rng : nat) :
  well_seated g →
  match play shuffle_at pid cid cc uno (enter g rng) with
  | Ok _ _ => True
  | Exc e _ =>
      e = ValueError
      ∧ ∃ p, py_index (players_list g) (current_index g) = Some p
             ∧ pid = Player_id p
             ∧ held_card g p cid = None
  end.
Proof.
  intros Hw.
  pose proof (well_seated_size g Hw) as Hsize.
  destruct (well_seated_seat g Hw) as (p & Hseat & Hin).
  pose proof (find_by_id_player (elements (players g)) p) as Hfind.
  rewrite elem_of_elements in Hfind. specialize (Hfind Hin).
  destruct Hw as (_ & _ & Hlen & _ & _ & Hst & _).
  rewrite <- last_None in Hst.
  unfold play.
  mred; repeat (first [mstep | mcall_exact shuffle_perm | mcase]; mred).
  all: game_simpl; bsimp; simplify_eq.
  all: try done.
  all: try lia.
  all: same_player.
  all: try (split; [reflexivity|]; eexists; split; [reflexivity|];
            split; [reflexivity|]; unfold held_card, hand_of; assumption).
  all: try match goal with
         | H1 : find_by_id ?l _ = Some ?c, H2 : list_find _ ?l = None |- _ =>
             by destruct (find_held_card_idx _ _ _ H1)
         end.
  all: try congruence.
  all: frame_back; exfalso; lia.
Qed.

(** X22. In such a game a call of [play] raises nothing but the
    [ValueError] of a card identifier that the player whose turn it is
    does not hold. *)
Theorem reachable_play_raises (g : Game) (rng : nat) (pid cid : string)
  (cc : option string) (uno : bool) :
  reachable shuffle_at choice_at g rng →
  (∃ s', play shuffle_at pid cid cc uno (enter g rng) = Ok tt s')
  ∨ (∃ s' p, play shuffle_at pid cid cc uno (enter g rng) = Exc ValueError s'
             ∧ py_index (players_list g) (current_index g) = Some p
             ∧ pid = Player_id p
             ∧ held_card g p cid = None).
Proof.
  intros Hreach.
  destruct (reachable_well_seated_facts shuffle_at choice_at g rng Hreach)
    as [Hw _].
  pose proof (play_raises pid cid cc uno g rng Hw) as Hret.
  destruct (play shuffle_at pid cid cc uno (enter g rng)) as [[] s'|e s'].
  - left. by exists s'.
  - right. destruct Hret as (-> & p & Hseat & Hpid & Hheld).
    by exists s', p.
Qed.
End Raises.

(** ** Removing a player *)

Lemma Player_eqb_ne (p q : Player) : negb (Player_eqb p q) = true ↔ p ≠ q.
Proof.
  unfold Player_eqb. rewrite negb_true_iff. split.
  - intros Hne ->. by rewrite String.eqb_refl in Hne.
  - intros Hne. apply String.eqb_neq. intros Hid.
    by apply Hne, Player_id_inj.
Qed.

Lemma filter_all {A} (P : A → Prop) `{∀ x, Decision (P x)} (l : list A) :
  Forall P l → filter P l = l.
Proof.
  induction 1 as [|y l Hy _ IH]; [done|].
  by rewrite filter_cons, decide_True, IH.
Qed.

Lemma length_filter_ne (l : list Player) (x : Player) :
  NoDup l → x ∈ l →
  S (length (filter (λ p, p ≠ x) l)) = length l.
Proof.
  induction l as [|y l IH]; intros Hnd Hin.
  { by apply not_elem_of_nil in Hin. }
  apply NoDup_cons in Hnd as [Hy Hnd]. rewrite filter_cons.
  destruct (decide (y = x)) as [->|Hne].
  - rewrite decide_False by (by intros ?). simpl. f_equal.
    f_equal. apply filter_all. apply Forall_forall.
    intros z Hz ->. done.
  - rewrite decide_True by done. simpl. f_equal. apply IH; [done|].
    apply elem_of_cons in Hin as [->|Hin]; done.
Qed.

(** X23. [remove_player] raises [KeyError] for a player who is not in
    the set. Otherwise the player leaves the set and the list of seats,
    the other seats keeping their order; the hands, the player's own
    included, the draw pile, the discard stack, the turn pointer, the
    direction, the colour to play on and the cards owed are left as they
    are, so that the game holds as many cards as before. A list of seats that held the
    players of the set, each once, still does and is one seat shorter. *)
Theorem remove_player_removes (player : Player) (g : Game) :
  match remove_player player g with
  | inl e => player ∉ players g
  | inr g' =>
      player ∈ players g
      ∧ players g' = players g ∖ {[player]}
      ∧ players_list g' = filter (λ p, p ≠ player) (players_list g)
      ∧ (player ∉ players_list g')
      ∧ (players_list g' `sublist_of` players_list g)
      ∧ hands g' = hands g
      ∧ remaining_cards g' = remaining_cards g
      ∧ game_stack g' = game_stack g
      ∧ current_index g' = current_index g
      ∧ direction g' = direction g
      ∧ current_color g' = current_color g
      ∧ pending_draw_count g' = pending_draw_count g
      ∧ pending_draw_for_index g' = pending_draw_for_index g
      ∧ cards_in_game g' = cards_in_game g
      ∧ (players g = list_to_set (players_list g) →
         players g' = list_to_set (players_list g'))
      ∧ (NoDup (players_list g) → player ∈ players_list g →
         NoDup (players_list g')
         ∧ S (length (players_list g')) = length (players_list g))
  end.
Proof.
  unfold remove_player. case_bool_decide as Hin; [|exact Hin].
  cbn [players players_list set_players_list set_players hands current_index
       remaining_cards game_stack direction current_color pending_draw_count
       pending_draw_for_index].
  assert (filter (λ p, negb (Player_eqb p player) = true) (players_list g)
          = filter (λ p, p ≠ player) (players_list g)) as ->.
  { apply list_filter_iff. intros p. apply Player_eqb_ne. }
  split; [exact Hin|]. split; [reflexivity|]. split; [reflexivity|].
  split.
  { intros Hp. apply list_elem_of_filter in Hp as [Hne _]. by apply Hne. }
  split; [apply sublist_filter|].
  do 9 (split; [reflexivity|]).
  split.
  - intros Hps. rewrite Hps. apply set_eq. intros p.
    rewrite elem_of_difference, !elem_of_list_to_set, list_elem_of_filter.
    set_solver.
  - intros Hnd Hp. split; [by apply NoDup_filter|].
    by apply length_filter_ne.
Qed.

Section Removal.
Variable shuffle_at : nat → list Card → list Card.

(** X24. A game of two players is over once one of them is removed:
    every later call of [draw], [play] or [get_state] raises the exception
    of [validate_players], and leaves the game as the removal left it. *)
Theorem removal_ends_two_player_game (player : Player) (g g' : Game)
  (a : Action) (rng : nat) :
  remove_player player g = inr g' →
  (size (players g) ≤ 2)%nat →
  perform shuffle_at a (enter g' rng) = Exc InsufficientPlayers (enter g' rng)
  ∧ get_state (enter g' rng) = Exc InsufficientPlayers (enter g' rng).
Proof.
  unfold remove_player. case_bool_decide as Hin; [|discriminate].
  intros [= <-] Hsize.
  assert (Z.of_nat (size (players g ∖ {[player]})) < MIN_PLAYERS_ALLOWED)
    as Hfew.
  { rewrite size_difference by set_solver. rewrite size_singleton.
    assert (size (players g) ≠ 0)%nat.
    { intros Hz. apply size_empty_inv in Hz. set_solver. }
    unfold MIN_PLAYERS_ALLOWED. lia. }
  split.
  - destruct a; cbn [perform]; unfold draw, play; mred.
    all: by rewrite (bool_decide_eq_true_2 _ Hfew).
  - unfold get_state. mred. by rewrite (bool_decide_eq_true_2 _ Hfew).
Qed.
End Removal.

(** ** The request parser *)

(** The two lists the loop of [parse_data_args] builds. *)
Lemma parse_loop_eq {V} (data : gmap string V) (args m : list string)
  (v : list V) :
  foldl (λ '(missing_args, values) arg,
           match data !! arg with
           | None => (missing_args ++ [arg], values)
           | Some x => (missing_args, values ++ [x])
           end)
    (m, v) args
  = (m ++ filter (λ a, data !! a = None) args, v ++ omap (data !!.) args).
Proof.
  revert m v. induction args as [|a args IH]; intros m v.
  { cbn. by rewrite !app_nil_r. }
  cbn [foldl omap list_omap]. rewrite filter_cons.
  destruct (data !! a) as [x|] eqn:Ha.
  - rewrite IH, decide_False by done. by rewrite <- app_assoc.
  - rewrite IH, decide_True by done. by rewrite <- app_assoc.
Qed.

Lemma parse_data_args_eq {V} (data : gmap string V) (args : list string) :
  parse_data_args data args
  = if bool_decide (filter (λ a, data !! a = None) args ≠ [])
    then inl ("missing args: "
              +:+ String.concat ", " (filter (λ a, data !! a = None) args))
    else inr (omap (data !!.) args).
Proof. unfold parse_data_args. by rewrite parse_loop_eq. Qed.

Lemma filter_missing_nil {V} (data : gmap string V) (args : list string) :
  filter (λ a, data !! a = None) args = []
  ↔ Forall (λ a, is_Some (data !! a)) args.
Proof.
  induction args as [|a args IH]; [done|].
  rewrite filter_cons, Forall_cons.
  destruct (data !! a) as [x|] eqn:Ha.
  - rewrite decide_False by done. rewrite IH. split; [by eauto|tauto].
  - rewrite decide_True by done. split; [done|].
    intros [[? ?] _]. done.
Qed.

(** X25. [parse_data_args] returns a list exactly when every key of
    [args] is in [data]; the list then holds, position by position, the
    value of [data] under the key at that position of [args]. *)
Theorem parse_data_args_values {V} (data : gmap string V)
  (args : list string) (values : list V) :
  parse_data_args data args = inr values
  ↔ Forall2 (λ a v, data !! a = Some v) args values.
Proof.
  rewrite parse_data_args_eq. split.
  - case_bool_decide as Hmiss; [done|]. intros [= <-].
    apply filter_missing_nil in Hmiss.
    induction args as [|a args IH]; [constructor|].
    apply Forall_cons in Hmiss as [[x Hx] Hrest].
    cbn [omap list_omap]. rewrite Hx. constructor; [done|by apply IH].
  - intros Hall.
    assert (filter (λ a, data !! a = None) args = []) as ->.
    { apply filter_missing_nil. induction Hall; constructor; eauto. }
    rewrite bool_decide_eq_false_2 by (by intros ?). f_equal.
    induction Hall as [|a x args values Hx _ IH]; [done|].
    cbn [omap list_omap]. by rewrite Hx, IH.
Qed.

(** X26. [parse_data_args] raises exactly when some key of [args] is not
    in [data]; the message names the keys that are missing, in the order
    of [args], separated by a comma and a space. *)
Theorem parse_data_args_missing {V} (data : gmap string V)
  (args : list string) (msg : string) :
  parse_data_args data args = inl msg
  ↔ (∃ a, a ∈ args ∧ data !! a = None)
    ∧ msg = "missing args: "
            +:+ String.concat ", " (filter (λ a, data !! a = None) args).
Proof.
  rewrite parse_data_args_eq. split.
  - case_bool_decide as Hmiss; [|done]. intros [= <-]. split; [|done].
    destruct (filter (λ a, data !! a = None) args) as [|a l] eqn:Hf; [done|].
    assert (a ∈ filter (λ a, data !! a = None) args) as Hin
      by (rewrite Hf; left).
    apply list_elem_of_filter in Hin as [Ha Hin]. by exists a.
  - intros [(a & Hin & Ha) ->].
    rewrite bool_decide_eq_true_2; [done|].
    intros Hnil.
    assert (a ∈ filter (λ a, data !! a = None) args) as Hf
      by (by apply list_elem_of_filter).
    rewrite Hnil in Hf. by apply not_elem_of_nil in Hf.
Qed.

(** ** The game state sent to the players *)

Global Instance Player_id_Inj : Inj (=) (=) Player_id.
Proof. intros p q. apply Player_id_inj. Qed.

Lemma parse_object_inj (c c' : Card) : parse_object c = parse_object c' → c = c'.
Proof.
  intros Heq.
  assert (parse_object c !! "color" = parse_object c' !! "color") as Hcol
    by (by rewrite Heq).
  assert (parse_object c !! "value" = parse_object c' !! "value") as Hval
    by (by rewrite Heq).
  unfold parse_object in Hcol, Hval.
  repeat first [ rewrite lookup_insert_ne in Hcol by done
               | rewrite lookup_insert_eq in Hcol ].
  repeat first [ rewrite lookup_insert_ne in Hval by done
               | rewrite lookup_singleton_eq in Hval ].
  destruct c, c'. cbn in *. by simplify_eq.
Qed.

(** X27. The dictionary [parse_game_state] returns holds the top card
    and the hands: a hand for each player who has one and for nobody else,
    under the player's identifier, card by card in the same order, and
    each card can be read back from its dictionary. *)
Theorem parse_game_state_hands (state : GameState) :
  ∃ h,
    parse_game_state state !! "hands" = Some (FHands h)
    ∧ parse_game_state state !! "top_card"
      = Some (FCard (parse_object (state_top_card state)))
    ∧ (∀ p, h !! Player_id p = parse_object_list <$> (state_hands state !! p))
    ∧ (∀ k, is_Some (h !! k) →
            ∃ p, k = Player_id p ∧ is_Some (state_hands state !! p))
    ∧ (∀ l l', parse_object_list l = parse_object_list l' → l = l').
Proof.
  exists (kmap Player_id (parse_object_list <$> state_hands state)).
  split; [|split; [|split; [|split]]].
  - destruct state as [h t [p|] [c|] n f|h t [p|] [c|]|h t [p|]|h t];
      unfold parse_game_state; cbn [insert_if_set state_hands];
      by rewrite ?lookup_insert_ne, lookup_insert_eq by done.
  - destruct state as [h t [p|] [c|] n f|h t [p|] [c|]|h t [p|]|h t];
      unfold parse_game_state; cbn [insert_if_set state_top_card];
      by rewrite ?lookup_insert_ne, lookup_singleton_eq by done.
  - intros p. by rewrite lookup_kmap, lookup_fmap by apply _.
  - intros k Hk. apply lookup_kmap_is_Some in Hk as (p & -> & Hp); [|apply _].
    exists p. split; [done|]. by rewrite lookup_fmap, fmap_is_Some in Hp.
  - intros l l'. unfold parse_object_list.
    apply list_fmap_eq_inj. intros c c'. apply parse_object_inj.
Qed.

(** X28. Besides the hands and the top card the dictionary holds the
    number of cards owed and the identifier of the player who owes them,
    always, with 0 and [None] for the tuples of fewer than six elements;
    the identifier of the current player and the current colour only when
    they are not [None]; and no other key. *)
Theorem parse_game_state_keys (state : GameState) :
  let r := parse_game_state state in
  let '(p, c, n, f) :=
    match state with
    | State6 _ _ p c n f => (p, c, n, f)
    | State4 _ _ p c => (p, c, 0, None)
    | State3 _ _ p => (p, None, 0, None)
    | State2 _ _ => (None, None, 0, None)
    end in
  r !! "current_player_id" = FStr <$> p
  ∧ r !! "current_color" = FStr <$> c
  ∧ r !! "pending_draw_count" = Some (FInt n)
  ∧ r !! "pending_for_player_id" = Some (opt_field f)
  ∧ ∀ k, is_Some (r !! k) →
         k ∈ ["hands"; "top_card"; "current_player_id"; "current_color";
              "pending_draw_count"; "pending_for_player_id"].
Proof.
  cbv zeta.
  destruct state as [h t [p|] [c|] n f|h t [p|] [c|]|h t [p|]|h t];
    unfold parse_game_state; cbn [insert_if_set fmap option_fmap option_map].
  all: repeat match goal with |- _ ∧ _ => split end.
  all: try (by rewrite ?lookup_insert_ne, ?lookup_insert_eq,
              ?lookup_singleton_ne, ?lookup_empty by done).
  all: intros k Hk.
  all: repeat (apply lookup_insert_is_Some in Hk as [<-|[_ Hk]];
               [set_solver|]).
  all: apply lookup_singleton_is_Some in Hk as <-; set_solver.
Qed.

(** ** Admission to a room *)

(** X29. [allow_player] admits a player exactly when the name is not
    blank and has no space, the room is named, a room to join exists, the
    room does not hold [MAX_PLAYERS_ALLOWED] players, and the player is one
    of the room when its game has started and is not when it has not. A
    room with that many players admits nobody, its own players included. *)
Theorem allow_player_admits (action room : string) (player : Player)
  (db : Store) :
  (allow_player action room player db = (true, None)
   ↔ name player ≠ EmptyString
     ∧ has_space (name player) = false
     ∧ room ≠ EmptyString
     ∧ (action = "Join" → is_Some (players_table db !! room))
     ∧ Z.of_nat (size (get_players_by_room room db)) ≠ MAX_PLAYERS_ALLOWED
     ∧ (is_Some (get_game_by_room room db)
        ↔ player ∈ get_players_by_room room db))
  ∧ (fst (allow_player action room player db) = true
     ↔ snd (allow_player action room player db) = None).
Proof.
  unfold allow_player, _exists_players.
  destruct (String.eqb_spec (name player) EmptyString) as [Hn|Hn].
  { split; [split; [done|tauto]|done]. }
  destruct (has_space (name player)) eqn:Hsp.
  { split; [split; [done|]|done]. intros (_ & ? & _). done. }
  destruct (String.eqb_spec room EmptyString) as [Hr|Hr].
  { split; [split; [done|tauto]|done]. }
  destruct (String.eqb_spec action "Join") as [Ha|Ha]; cbn [andb].
  - case_bool_decide as Hex; cbn [negb].
    + cbv zeta. repeat case_bool_decide; cbn [fst snd].
      all: split; [split; [try done; intros _|]|done].
      all: try (intros (_ & _ & _ & _ & ? & ? & ?); tauto).
      all: try (repeat split; try done; tauto).
    + split; [split; [done|]|done]. intros (_ & _ & _ & Hj & _).
      exfalso. by apply Hex, Hj.
  - cbv zeta. repeat case_bool_decide; cbn [fst snd].
    all: split; [split; [try done; intros _|]|done].
    all: try (intros (_ & _ & _ & _ & ? & ? & ?); tauto).
    all: try (repeat split; try done; tauto).
Qed.

(** X30. A room that holds at most [MAX_PLAYERS_ALLOWED] players still
    does after a player whom [allow_player] admits is added to it; the
    player is then one of the room, and the other rooms and all the games
    are as they were. *)
Theorem admitted_player_fits (action room : string) (player : Player)
  (db : Store) :
  Z.of_nat (size (get_players_by_room room db)) ≤ MAX_PLAYERS_ALLOWED →
  allow_player action room player db = (true, None) →
  let db' := add_player_to_room room player db in
  Z.of_nat (size (get_players_by_room room db')) ≤ MAX_PLAYERS_ALLOWED
  ∧ player ∈ get_players_by_room room db'
  ∧ _exists_players room db' = true
  ∧ (∀ r, r ≠ room → get_players_by_room r db' = get_players_by_room r db)
  ∧ (∀ r, get_game_by_room r db' = get_game_by_room r db).
Proof.
  intros Hfits Hok. cbv zeta.
  assert (Z.of_nat (size (get_players_by_room room db)) ≠ MAX_PLAYERS_ALLOWED)
    as Hnot.
  { revert Hok. unfold allow_player. cbv zeta.
    repeat match goal with
      | |- context [if ?b then _ else _] => destruct b eqn:?; try done
      end.
    all: intros _.
    all: match goal with
         | H : bool_decide (Z.of_nat _ = _) = false |- _ =>
             by apply bool_decide_eq_false in H
         end. }
  unfold add_player_to_room, get_players_by_room, _exists_players,
    get_game_by_room in *.
  cbn [players_table games_table].
  rewrite lookup_insert_eq. cbn [default from_option id].
  split.
  { pose proof (size_union_alt (default ∅ (players_table db !! room))
                  {[player]}) as Hsz.
    pose proof (subseteq_size ({[player]} ∖ default ∅ (players_table db !! room))
                  {[player]}) as Hle.
    rewrite size_singleton in Hle.
    unfold MAX_PLAYERS_ALLOWED in *.
    assert (size ({[player]} ∖ default ∅ (players_table db !! room)) ≤ 1)%nat
      by (apply Hle; set_solver).
    lia. }
  split; [set_solver|].
  split; [apply bool_decide_eq_true; by eexists|].
  split; [|done].
  intros r Hr. by rewrite lookup_insert_ne.
Qed.

(** ** The further theorems on sample games *)

Lemma advance_turn_compose_witness :
  (_advance_turn 1 ;;; _advance_turn 1) (enter holding_wild 0)
  = _advance_turn (1 + 1) (enter holding_wild 0).
Proof.
  apply (advance_turn_compose 1 1 (enter holding_wild 0)).
  vm_compute. intros H. discriminate H.
Defined.

Lemma transfer_played_cards_count_witness :
  length (game_stack
            (st_game (outcome_state
                        (transfer_played_cards keep_order
                           (enter holding_wild 0)))))
  = 1%nat.
Proof.
  pose proof (transfer_played_cards_count keep_order keep_order_perm
                (enter holding_wild 0)) as H.
  destruct (transfer_played_cards keep_order (enter holding_wild 0))
    as [[] s'|e s'].
  - destruct H as (init & top & _ & Hst & _). cbn [outcome_state].
    rewrite Hst. reflexivity.
  - destruct H as (_ & _ & H). vm_compute in H. discriminate H.
Defined.

Lemma draw_n_exact_witness :
  ∃ s' drawn,
    _draw_n keep_order alice 2 (enter holding_draw_two 0) = Ok tt s'
    ∧ hand_of (st_game s') alice = hand_of holding_draw_two alice ++ drawn
    ∧ remaining_cards holding_draw_two
      = remaining_cards (st_game s') ++ reverse drawn.
Proof.
  destruct (draw_n_exact keep_order keep_order_perm alice 2
              (enter holding_draw_two 0))
    as (s' & drawn & Heq & Hhand & _ & _ & _ & _ & Hpile & _).
  - vm_compute. intros H. discriminate H.
  - exists s', drawn. split; [exact Heq|]. split; [exact Hhand|].
    apply Hpile. vm_compute. lia.
Defined.

Lemma Deck_init_census_witness :
  ∃ cards,
    Deck_init keep_order (enter holding_wild 0)
    = Ok cards (mkSt (st_game (enter holding_wild 0))
                  (SHUFFLE_FREQ + st_rng (enter holding_wild 0))
                  (st_notes (enter holding_wild 0))
                  (st_calls (enter holding_wild 0)))
    ∧ length cards = 108%nat.
Proof.
  destruct (Deck_init_census keep_order keep_order_perm (enter holding_wild 0))
    as (cards & Heq & _ & Hlen & _).
  exists cards. split; [exact Heq|exact Hlen].
Defined.

Lemma deck_card_ids_witness : mkCard "red" "5" = red "5".
Proof.
  apply (deck_card_ids (mkCard "red" "5") (red "5")).
  - apply (bool_decide_unpack _). vm_compute. exact I.
  - apply (bool_decide_unpack _). vm_compute. exact I.
  - vm_compute. reflexivity.
Defined.

Lemma deck_special_cards_witness :
  is_special (red "skip") = negb (isdigit (value (red "skip")))
  ∧ is_color_special (red "skip") = negb (is_black (red "skip")).
Proof.
  apply (deck_special_cards (red "skip")).
  apply (bool_decide_unpack _). vm_compute. exact I.
Defined.

Lemma obligated_draw_witness :
  ∃ s', draw keep_order (Player_id alice) (enter owing_two 0) = Ok tt s'
        ∧ st_notes s' = []
        ∧ hands (st_game s')
          = <[alice := hand_of owing_two alice ++ [red "9"]]> (hands owing_two)
        ∧ pending_draw_count (st_game s') = pending_draw_count owing_two - 1.
Proof.
  destruct (obligated_draw keep_order owing_two 0 alice [] (red "9"))
    as (s' & Heq & Hnotes & _ & Hhands & _ & Hif).
  - vm_compute. intros H. discriminate H.
  - vm_compute. reflexivity.
  - vm_compute. set_solver.
  - split; vm_compute; reflexivity.
  - vm_compute. reflexivity.
  - exists s'. split; [exact Heq|]. split; [exact Hnotes|].
    split; [exact Hhands|]. exact (proj1 Hif).
Defined.

Lemma play_unknown_card_witness :
  play keep_order (Player_id alice) "9-green" None false (enter holding_wild 0)
  = Exc ValueError (mkSt (touch alice holding_wild) 0 [] []).
Proof.
  apply (play_unknown_card keep_order holding_wild 0 alice "9-green" None
           false).
  - vm_compute. intros H. discriminate H.
  - vm_compute. reflexivity.
  - vm_compute. set_solver.
  - intros [H _]. vm_compute in H. discriminate H.
  - vm_compute. reflexivity.
Defined.

Lemma play_puts_card_on_top_witness :
  ∃ card,
    held_card holding_wild alice "wild-black" = Some card
    ∧ last (game_stack
              (st_game (outcome_state
                          (play keep_order "player-alice" "wild-black"
                             (Some "blue") true (enter holding_wild 0)))))
      = Some card.
Proof.
  destruct (play_puts_card_on_top keep_order holding_wild 0 "player-alice"
              "wild-black" (Some "blue") true
              (outcome_state
                 (play keep_order "player-alice" "wild-black" (Some "blue")
                    true (enter holding_wild 0))))
    as (p & card & top & Hseat & _ & Hheld & _ & _ & Hlast & _).
  - vm_compute. reflexivity.
  - vm_compute. reflexivity.
  - vm_compute in Hseat. injection Hseat as <-.
    exists card. split; [exact Hheld|exact Hlast].
Defined.

Lemma plain_card_turn_witness :
  current_index
    (st_game (outcome_state
                (play keep_order (Player_id alice) "5-red" None true
                   (enter holding_wild 0))))
  = 1.
Proof.
  destruct (plain_card_turn keep_order holding_wild 0 alice (red "5") "5-red"
              None true
              (outcome_state
                 (play keep_order (Player_id alice) "5-red" None true
                    (enter holding_wild 0))))
    as (_ & _ & _ & Hcur & _).
  - vm_compute. reflexivity.
  - vm_compute. reflexivity.
  - intros H. vm_compute in H.
    repeat (apply elem_of_cons in H as [H|H]; [discriminate H|]).
    by apply not_elem_of_nil in H.
  - vm_compute. reflexivity.
  - vm_compute. reflexivity.
  - vm_compute. reflexivity.
  - rewrite Hcur. vm_compute. reflexivity.
Defined.

Lemma uno_penalty_witness :
  length (hand_of
            (st_game (outcome_state
                        (play keep_order (Player_id alice) "5-red" None false
                           (enter holding_wild 0))))
            alice)
  = 3%nat.
Proof.
  destruct (uno_penalty keep_order keep_order_perm holding_wild 0 alice
              (red "5") "5-red" None
              (outcome_state
                 (play keep_order (Player_id alice) "5-red" None false
                    (enter holding_wild 0))))
    as (_ & _ & Hlen).
  - vm_compute. reflexivity.
  - vm_compute. reflexivity.
  - vm_compute. reflexivity.
  - vm_compute. reflexivity.
  - vm_compute. reflexivity.
  - rewrite Hlen. vm_compute. reflexivity.
Defined.

Lemma construction_needs_two_players_witness :
  Game_init keep_order first_choice 1 {[alice]} 7 0
  = Some (Exc InsufficientPlayers
            (mkSt (Game_new {[alice]}) (SHUFFLE_FREQ + 0) [] [])).
Proof.
  apply (construction_needs_two_players keep_order first_choice 1 {[alice]}
           7 0).
  rewrite size_singleton. lia.
Defined.

Lemma construction_seats_witness :
  players_list (st_game plain_start) = sorted_by_id (elements ({[alice; bob]} : gset Player))
  ∧ NoDup (players_list (st_game plain_start)).
Proof.
  destruct (construction_seats keep_order first_choice 1 {[alice; bob]} 7 0
              plain_start) as (Hlist & _ & _ & Hnd & _).
  - vm_compute. reflexivity.
  - split; [exact Hlist|exact Hnd].
Defined.

Lemma opening_card_effects_witness :
  pending_draw_count (st_game plain_start) = 0
  ∧ pending_draw_for_index (st_game plain_start) = None
  ∧ ∃ c, c ∈ COLORS ∧ current_color (st_game plain_start) = Some c.
Proof.
  destruct (opening_card_effects keep_order first_choice 1 {[alice; bob]} 7 0
              plain_start (black "wild"))
    as (Hcnt & Hfor & _ & _ & Hcol).
  - vm_compute. reflexivity.
  - vm_compute. reflexivity.
  - intros H. discriminate H.
  - split; [exact Hcnt|]. split; [exact Hfor|exact Hcol].
Defined.

Lemma construction_deals_every_card_witness :
  ∃ s, Game_init keep_order first_choice (S 0) {[alice; bob]} 54 0
       = Some (Exc IndexError s)
       ∧ hands_total (hands (st_game s)) = 108%nat.
Proof.
  destruct (construction_deals_every_card keep_order first_choice
              keep_order_perm 0 {[alice; bob]} 54 0)
    as (s & Heq & _ & _ & Htot).
  - vm_compute. lia.
  - vm_compute. intros H. discriminate H.
  - exists s. split; [exact Heq|exact Htot].
Defined.

Lemma reachable_invariants_witness :
  game_stack (st_game plain_start) ≠ []
  ∧ current_color (st_game plain_start) ≠ None
  ∧ 0 ≤ pending_draw_count (st_game plain_start) ≤ 4.
Proof.
  destruct (reachable_invariants keep_order first_choice
              (st_game plain_start) (st_rng plain_start)
              plain_start_reachable)
    as (_ & _ & _ & _ & _ & Hst & Hcol & Hcnt & _).
  split; [exact Hst|]. split; [exact Hcol|exact Hcnt].
Defined.

Lemma reachable_draw_returns_witness :
  ∃ s', draw keep_order "player-bob"
          (enter (st_game plain_start) (st_rng plain_start))
        = Ok tt s'.
Proof.
  exact (reachable_draw_returns keep_order first_choice
           (st_game plain_start) (st_rng plain_start) "player-bob"
           plain_start_reachable).
Defined.

Lemma reachable_get_state_witness :
  ∃ t, get_state (enter (st_game plain_start) (st_rng plain_start))
       = Ok t (enter (st_game plain_start) (st_rng plain_start))
       ∧ t_hands t = hands (st_game plain_start)
       ∧ t_pending_draw_count t = pending_draw_count (st_game plain_start).
Proof.
  destruct (reachable_get_state keep_order first_choice
              (st_game plain_start) (st_rng plain_start)
              plain_start_reachable)
    as (t & p & Heq & Hhands & _ & _ & _ & _ & _ & Hcnt & _).
  exists t. split; [exact Heq|]. split; [exact Hhands|exact Hcnt].
Defined.

Lemma reachable_play_raises_witness :
  (∃ s', play keep_order "player-alice" "9-green" None false
           (enter (st_game plain_start) (st_rng plain_start))
         = Ok tt s')
  ∨ (∃ s' p,
       play keep_order "player-alice" "9-green" None false
         (enter (st_game plain_start) (st_rng plain_start))
       = Exc ValueError s'
       ∧ py_index (players_list (st_game plain_start))
           (current_index (st_game plain_start)) = Some p
       ∧ "player-alice" = Player_id p
       ∧ held_card (st_game plain_start) p "9-green" = None).
Proof.
  exact (reachable_play_raises keep_order first_choice keep_order_perm
           (st_game plain_start) (st_rng plain_start) "player-alice"
           "9-green" None false plain_start_reachable).
Defined.

Lemma removal_ends_two_player_game_witness :
  perform keep_order (Draw "player-bob") (enter bob_alone 0)
  = Exc InsufficientPlayers (enter bob_alone 0)
  ∧ get_state (enter bob_alone 0)
    = Exc InsufficientPlayers (enter bob_alone 0).
Proof.
  apply (removal_ends_two_player_game keep_order alice holding_wild bob_alone
           (Draw "player-bob") 0).
  - vm_compute. reflexivity.
  - vm_compute. lia.
Defined.

Lemma admitted_player_fits_witness :
  Z.of_nat (size (get_players_by_room "den"
                    (add_player_to_room "den" alice no_rooms)))
  ≤ MAX_PLAYERS_ALLOWED
  ∧ alice ∈ get_players_by_room "den" (add_player_to_room "den" alice no_rooms).
Proof.
  destruct (admitted_player_fits "Create" "den" alice no_rooms)
    as (Hfits & Hin & _).
  - vm_compute. intros H. discriminate H.
  - vm_compute. reflexivity.
  - split; [exact Hfits|exact Hin].
Defined.
